(** * ArgvMap: the PowerDNS argument registry (pdns/arguments.cc)

    A shallow embedding of [ArgvMap] and of the specification claims made
    about it.  Strings are [string] (bytes as [ascii]); every [std::map] is
    an association list kept in key order, because [configstring] iterates
    the maps in that order; member functions are computations in a small
    state-and-exception monad in which a thrown [ArgException] keeps the
    registry as it was at the throw, the way a C++ object does. *)

From Stdlib Require Import String Ascii List Bool Arith ZArith Lia.
From Stdlib Require Import Sorting.Sorted Sorting.Permutation.
Import ListNotations.
Open Scope string_scope.

(** ** std::string operations used by arguments.cc *)

Module Str.

(** [std::isspace] in the "C" locale (also what [boost::trim] uses with
    the classic locale): space, \t, \n, \v, \f, \r. *)
Definition isspace (c : ascii) : bool :=
  let n := nat_of_ascii c in
  Nat.eqb n 32 || (Nat.leb 9 n && Nat.leb n 13).

Definition nl : ascii := ascii_of_nat 10.
Definition cr : ascii := ascii_of_nat 13.
Definition tab : ascii := ascii_of_nat 9.
Definition backslash : ascii := ascii_of_nat 92.

(** The one-character strings "\n" and "\t". *)
Definition NL : string := String nl EmptyString.
Definition TAB : string := String tab EmptyString.

Definition empty (s : string) : bool :=
  match s with EmptyString => true | String _ _ => false end.

(** [s.find(p) == 0] *)
Fixpoint starts_with (p s : string) : bool :=
  match p with
  | EmptyString => true
  | String a p' =>
      match s with
      | EmptyString => false
      | String b s' => Ascii.eqb a b && starts_with p' s'
      end
  end.

(** [s.find(c)]; [None] is [string::npos]. *)
Fixpoint find_char (c : ascii) (s : string) : option nat :=
  match s with
  | EmptyString => None
  | String d s' =>
      if Ascii.eqb d c then Some 0 else option_map S (find_char c s')
  end.

(** [s.find(pat)] *)
Fixpoint find_str (pat s : string) : option nat :=
  if starts_with pat s then Some 0
  else match s with
       | EmptyString => None
       | String _ s' => option_map S (find_str pat s')
       end.

Fixpoint drop (n : nat) (s : string) : string :=
  match n, s with
  | O, _ => s
  | S n', String _ s' => drop n' s'
  | S _, EmptyString => EmptyString
  end.

Fixpoint take (n : nat) (s : string) : string :=
  match n, s with
  | S n', String c s' => String c (take n' s')
  | _, _ => EmptyString
  end.

(** [s.substr(pos)] and [s.substr(pos, n)].  Every call in arguments.cc
    has [pos <= s.size()], so the out_of_range case does not arise. *)
Definition substr_from (pos : nat) (s : string) : string := drop pos s.
Definition substr (pos n : nat) (s : string) : string := take n (drop pos s).

(** [s.find_first_not_of(set)] *)
Fixpoint find_first_not_of (set : list ascii) (s : string) : option nat :=
  match s with
  | EmptyString => None
  | String c s' =>
      if existsb (Ascii.eqb c) set then option_map S (find_first_not_of set s')
      else Some 0
  end.

(** [boost::trim_left], [boost::trim_right], [boost::trim] *)
Fixpoint trim_left (s : string) : string :=
  match s with
  | EmptyString => EmptyString
  | String c s' => if isspace c then trim_left s' else s
  end.

Fixpoint trim_right (s : string) : string :=
  match s with
  | EmptyString => EmptyString
  | String c s' =>
      let r := trim_right s' in
      if empty r && isspace c then EmptyString else String c r
  end.

Definition trim (s : string) : string := trim_left (trim_right s).

(** [s[s.size() - 1]] for a non-empty [s] *)
Fixpoint last (s : string) : option ascii :=
  match s with
  | EmptyString => None
  | String c EmptyString => Some c
  | String _ s' => last s'
  end.

(** [s.substr(0, s.length() - 1)] *)
Fixpoint remove_last (s : string) : string :=
  match s with
  | EmptyString => EmptyString
  | String _ EmptyString => EmptyString
  | String c s' => String c (remove_last s')
  end.

(** [boost::ends_with(s, suffix)]: case-sensitive. *)
Fixpoint ends_with (s suffix : string) : bool :=
  if String.eqb s suffix then true
  else match s with
       | EmptyString => false
       | String _ s' => ends_with s' suffix
       end.

(** [s[0]]; for the empty string this is the terminating NUL. *)
Definition front (s : string) : ascii :=
  match s with EmptyString => zero | String c _ => c end.

Definition contains_char (c : ascii) (s : string) : bool :=
  match find_char c s with Some _ => true | None => false end.

(** [std::getline] applied until it fails: the lines of a stream.  A last
    line without a newline is still delivered; a trailing newline does not
    open a further, empty line. *)
Fixpoint getlines (s : string) : list string :=
  match s with
  | EmptyString => []
  | String c s' =>
      if Ascii.eqb c nl then EmptyString :: getlines s'
      else match getlines s' with
           | [] => [String c EmptyString]
           | l :: ls => String c l :: ls
           end
  end.

End Str.

(** ** std::map<string,string> *)

Module StdMap.

Definition t := list (string * string).

Definition empty : t := [].

(** [m.find(k)], as the mapped value when found. *)
Fixpoint find (k : string) (m : t) : option string :=
  match m with
  | [] => None
  | (k', v) :: m' => if String.eqb k k' then Some v else find k m'
  end.

(** [m.count(k) != 0] *)
Definition mem (k : string) (m : t) : bool :=
  match find k m with Some _ => true | None => false end.

(** [m[k] = v]: overwrite, or insert at the key's place in the order. *)
Fixpoint assign (k v : string) (m : t) : t :=
  match m with
  | [] => [(k, v)]
  | (k', v') :: m' =>
      match String.compare k k' with
      | Eq => (k, v) :: m'
      | Lt => (k, v) :: (k', v') :: m'
      | Gt => (k', v') :: assign k v m'
      end
  end.

(** [m[k]] read: a missing key is first inserted with the empty string. *)
Definition index (k : string) (m : t) : string * t :=
  match find k m with
  | Some v => (v, m)
  | None => (EmptyString, assign k EmptyString m)
  end.

(** [m.insert({k, v})]: does nothing when the key is present. *)
Definition insert (k v : string) (m : t) : t :=
  if mem k m then m else assign k v m.

End StdMap.

(** ** std::set<string> *)

Module StdSet.

Definition t := list string.

Definition empty : t := [].

Definition mem (k : string) (s : t) : bool := existsb (String.eqb k) s.

Fixpoint insert (k : string) (s : t) : t :=
  match s with
  | [] => [k]
  | k' :: s' =>
      match String.compare k k' with
      | Eq => s
      | Lt => k :: s
      | Gt => k' :: insert k s'
      end
  end.

End StdSet.

(** ** Collaborators declared outside arguments.cc *)

Module Ext.

(** Modelled from the spec: [stringtok] is declared in misc.hh, which is
    not among the sources.  The spec has the stored value "tokenized" on a
    set of delimiter characters: the tokens are the maximal non-empty runs
    of characters that are not delimiters, in order. *)
Fixpoint stringtok_from (delims : list ascii) (s tok : string) : list string :=
  match s with
  | EmptyString => if Str.empty tok then [] else [tok]
  | String c s' =>
      if existsb (Ascii.eqb c) delims
      then (if Str.empty tok then stringtok_from delims s' EmptyString
            else tok :: stringtok_from delims s' EmptyString)
      else stringtok_from delims s' (tok ++ String c EmptyString)
  end.

Definition stringtok (s : string) (delims : string) : list string :=
  stringtok_from (list_ascii_of_string delims) s EmptyString.

(** ASCII case folding, [std::tolower] in the POSIX locale. *)
Definition tolower (c : ascii) : nat :=
  let n := nat_of_ascii c in
  if Nat.leb 65 n && Nat.leb n 90 then n + 32 else n.

(** Modelled from the spec: [CIStringComparePOSIX] is declared in misc.hh,
    which is not among the sources.  The spec calls it a case-insensitive,
    POSIX-locale-independent comparator, an ASCII case-fold compare: the
    strict lexicographic order on the case-folded characters. *)
Fixpoint CIStringComparePOSIX (lhs rhs : string) : bool :=
  match lhs, rhs with
  | EmptyString, EmptyString => false
  | EmptyString, String _ _ => true
  | String _ _, EmptyString => false
  | String l lhs', String r rhs' =>
      if Nat.ltb (tolower r) (tolower l) then false
      else if Nat.ltb (tolower l) (tolower r) then true
      else CIStringComparePOSIX lhs' rhs'
  end.

(** [std::sort(first, last, comp)].  The standard asks for a permutation
    in which no element comes after one it is [comp]-less than, and leaves
    the order of equivalent elements (neither less than the other) to the
    library.  [ties x y] is that choice: whether the library puts [x] before
    an equivalent [y].  The result is built by insertion; whatever [ties]
    is it is a sorted permutation, and every sorted permutation of distinct
    elements is the result for some [ties] (lemmas [sort_perm],
    [sort_strongly_sorted] and [sort_reaches_every_order]). *)
Section Sort.
Context {A : Type} (comp ties : A -> A -> bool).

Definition goes_before (x y : A) : bool :=
  comp x y || (negb (comp y x) && ties x y).

Fixpoint sort_insert (x : A) (l : list A) : list A :=
  match l with
  | [] => [x]
  | y :: l' => if goes_before x y then x :: l else y :: sort_insert x l'
  end.

Definition sort (l : list A) : list A := fold_right sort_insert [] l.
End Sort.

(** Two choices of the library: equivalent elements keep the order in
    which they were given, or come out in the opposite order. *)
Definition ties_keep (_ _ : string) : bool := true.
Definition ties_swap (_ _ : string) : bool := false.

(** *** strtol *)

Definition digit_val (c : ascii) : option Z :=
  let n := nat_of_ascii c in
  if Nat.leb 48 n && Nat.leb n 57 then Some (Z.of_nat (n - 48))
  else if Nat.leb 97 n && Nat.leb n 122 then Some (Z.of_nat (n - 97 + 10))
  else if Nat.leb 65 n && Nat.leb n 90 then Some (Z.of_nat (n - 65 + 10))
  else None.

Definition is_digit_in (base : Z) (c : ascii) : bool :=
  match digit_val c with
  | Some d => Z.ltb d base
  | None => false
  end.

(** The longest run of digits of the base: its value and its length. *)
Fixpoint digits (base : Z) (s : string) (acc : Z) (n : nat) : Z * nat :=
  match s with
  | EmptyString => (acc, n)
  | String c s' =>
      match digit_val c with
      | Some d => if Z.ltb d base then digits base s' (acc * base + d) (S n)
                  else (acc, n)
      | None => (acc, n)
      end
  end.

Fixpoint count_space (s : string) : nat :=
  match s with
  | EmptyString => 0
  | String c s' => if Str.isspace c then S (count_space s') else 0
  end.

Definition LONG_MAX : Z := 9223372036854775807.
Definition LONG_MIN : Z := -9223372036854775808.

Definition is_x (c : ascii) : bool :=
  Nat.eqb (nat_of_ascii c) 120 || Nat.eqb (nat_of_ascii c) 88.

(** [strtol(nptr, &endptr, base)] for base 0, 8, 10 or 16, on an LP64
    platform: the converted value and [endptr - nptr].  White space and
    an optional sign are skipped; with base 0 a "0x" prefix followed by a
    hexadecimal digit selects base 16, another leading "0" base 8, and
    anything else base 10; when no digit is converted the result is 0
    with [endptr == nptr]; out-of-range values are clamped. *)
Definition strtol (nptr : string) (base : Z) : Z * nat :=
  let ws := count_space nptr in
  let s1 := Str.drop ws nptr in
  let '(neg, sl) :=
    match s1 with
    | String "-" _ => (true, 1)
    | String "+" _ => (false, 1)
    | _ => (false, 0)
    end in
  let s2 := Str.drop sl s1 in
  let '(b, pl) :=
    match s2 with
    | String "0" (String x (String h _)) =>
        if (Z.eqb base 0 || Z.eqb base 16) && is_x x && is_digit_in 16 h
        then (16%Z, 2)
        else if Z.eqb base 0 then (8%Z, 0) else (base, 0)
    | String "0" _ => if Z.eqb base 0 then (8%Z, 0) else (base, 0)
    | _ => if Z.eqb base 0 then (10%Z, 0) else (base, 0)
    end in
  let '(v, n) := digits b (Str.drop pl s2) 0 0 in
  match n with
  | O => (0%Z, 0)
  | S _ =>
      let sv := if neg then Z.opp v else v in
      (Z.max LONG_MIN (Z.min LONG_MAX sv), ws + sl + pl + n)
  end.

(** [static_cast<int>(long)]: the low 32 bits, two's complement. *)
Definition to_int (x : Z) : Z :=
  let m := Z.modulo x 4294967296 in
  if Z.ltb m 2147483648 then m else (m - 4294967296)%Z.

(** [static_cast<mode_t/gid_t/uid_t>(long)]: the low 32 bits, unsigned. *)
Definition to_u32 (x : Z) : Z := Z.modulo x 4294967296.

End Ext.

(** ** The registry *)

Inductive Urgency := Warning | Error.

(** The members of [ArgvMap].  [g_log] is not a member: it is what the
    calls have written to the global logger, kept with the registry so that
    "warns" and "is silent" can be told apart. *)
Record ArgvMap := mkArgvMap {
  d_params : StdMap.t;
  d_unknownParams : StdMap.t;
  helpmap : StdMap.t;
  defaultmap : StdMap.t;
  d_typeMap : StdMap.t;
  d_cmds : list string;
  d_cleared : StdSet.t;
  g_log : list (Urgency * string)
}.

Definition with_params (m : StdMap.t) (st : ArgvMap) : ArgvMap :=
  mkArgvMap m st.(d_unknownParams) st.(helpmap) st.(defaultmap) st.(d_typeMap)
            st.(d_cmds) st.(d_cleared) st.(g_log).
Definition with_unknownParams (m : StdMap.t) (st : ArgvMap) : ArgvMap :=
  mkArgvMap st.(d_params) m st.(helpmap) st.(defaultmap) st.(d_typeMap)
            st.(d_cmds) st.(d_cleared) st.(g_log).
Definition with_helpmap (m : StdMap.t) (st : ArgvMap) : ArgvMap :=
  mkArgvMap st.(d_params) st.(d_unknownParams) m st.(defaultmap) st.(d_typeMap)
            st.(d_cmds) st.(d_cleared) st.(g_log).
Definition with_defaultmap (m : StdMap.t) (st : ArgvMap) : ArgvMap :=
  mkArgvMap st.(d_params) st.(d_unknownParams) st.(helpmap) m st.(d_typeMap)
            st.(d_cmds) st.(d_cleared) st.(g_log).
Definition with_typeMap (m : StdMap.t) (st : ArgvMap) : ArgvMap :=
  mkArgvMap st.(d_params) st.(d_unknownParams) st.(helpmap) st.(defaultmap) m
            st.(d_cmds) st.(d_cleared) st.(g_log).
Definition with_cmds (l : list string) (st : ArgvMap) : ArgvMap :=
  mkArgvMap st.(d_params) st.(d_unknownParams) st.(helpmap) st.(defaultmap)
            st.(d_typeMap) l st.(d_cleared) st.(g_log).
Definition with_cleared (s : StdSet.t) (st : ArgvMap) : ArgvMap :=
  mkArgvMap st.(d_params) st.(d_unknownParams) st.(helpmap) st.(defaultmap)
            st.(d_typeMap) st.(d_cmds) s st.(g_log).
Definition with_log (l : list (Urgency * string)) (st : ArgvMap) : ArgvMap :=
  mkArgvMap st.(d_params) st.(d_unknownParams) st.(helpmap) st.(defaultmap)
            st.(d_typeMap) st.(d_cmds) st.(d_cleared) l.

(** [ArgException] carries only a message; the constructors name the
    throw sites after the conditions of the specification, and [what]
    gives the message. *)
Inductive ArgException :=
| NotFound (arg : string)
| MalformedValue (msg : string)
| IdentityResolutionFailed (arg : string)
| MissingDefault (name : string)
| IncrementalWithoutParent (var : string)
| UnknownSetting (var : string)
| DirectoryInaccessible (msg : string)
| CouldNotBeParsed (filename : string).

Definition what (e : ArgException) : string :=
  match e with
  | NotFound arg => "Undefined but needed argument: '" ++ arg ++ "'"
  | MalformedValue msg => msg
  | IdentityResolutionFailed arg => "'" ++ arg ++ "' contains invalid group"
  | MissingDefault name => "Default for setting '" ++ name ++ "' not set"
  | IncrementalWithoutParent var => "Incremental setting '" ++ var ++ "' without a parent"
  | UnknownSetting var => "Trying to set unknown setting '" ++ var ++ "'"
  | DirectoryInaccessible msg => msg
  | CouldNotBeParsed filename => filename ++ " could not be parsed"
  end.

(** *** The monad of member functions *)

Inductive outcome (A : Type) :=
| Ok (a : A) (st : ArgvMap)
| Throw (e : ArgException) (st : ArgvMap).
Arguments Ok {A} a st.
Arguments Throw {A} e st.

Definition M (A : Type) := ArgvMap -> outcome A.

Definition ret {A} (a : A) : M A := fun st => Ok a st.

Definition bind {A B} (c : M A) (k : A -> M B) : M B :=
  fun st => match c st with
            | Ok a st' => k a st'
            | Throw e st' => Throw e st'
            end.

Definition throw {A} (e : ArgException) : M A := fun st => Throw e st.

Definition gets {A} (f : ArgvMap -> A) : M A := fun st => Ok (f st) st.

Definition modify (f : ArgvMap -> ArgvMap) : M unit := fun st => Ok tt (f st).

Declare Scope arg_scope.
Delimit Scope arg_scope with arg.
Notation "x <- c ;; k" := (bind c (fun x => k))
  (at level 61, c at next level, right associativity) : arg_scope.
Notation "c ;; k" := (bind c (fun _ => k))
  (at level 61, right associativity) : arg_scope.
Open Scope arg_scope.

(** [for (const auto& x : xs) body(x);] *)
Fixpoint for_each {A} (xs : list A) (body : A -> M unit) : M unit :=
  match xs with
  | [] => ret tt
  | x :: xs' => body x ;; for_each xs' body
  end.

(** A range-for loop that also updates a local variable of the caller. *)
Fixpoint for_fold {A B} (xs : list A) (acc : B) (body : A -> B -> M B) : M B :=
  match xs with
  | [] => ret acc
  | x :: xs' => acc' <- body x acc ;; for_fold xs' acc' body
  end.

(** [m[k]] read and [m[k] = v] on each member map. *)
Definition params_index (k : string) : M string :=
  fun st => let '(v, m) := StdMap.index k st.(d_params) in Ok v (with_params m st).
Definition params_assign (k v : string) : M unit :=
  modify (fun st => with_params (StdMap.assign k v st.(d_params)) st).
Definition helpmap_index (k : string) : M string :=
  fun st => let '(v, m) := StdMap.index k st.(helpmap) in Ok v (with_helpmap m st).
Definition helpmap_assign (k v : string) : M unit :=
  modify (fun st => with_helpmap (StdMap.assign k v st.(helpmap)) st).
Definition defaultmap_index (k : string) : M string :=
  fun st => let '(v, m) := StdMap.index k st.(defaultmap) in Ok v (with_defaultmap m st).
Definition typeMap_index (k : string) : M string :=
  fun st => let '(v, m) := StdMap.index k st.(d_typeMap) in Ok v (with_typeMap m st).
Definition typeMap_assign (k v : string) : M unit :=
  modify (fun st => with_typeMap (StdMap.assign k v st.(d_typeMap)) st).
Definition unknownParams_assign (k v : string) : M unit :=
  modify (fun st => with_unknownParams (StdMap.assign k v st.(d_unknownParams)) st).

(** [g_log << urgency << msg << endl] *)
Definition log (u : Urgency) (msg : string) : M unit :=
  modify (fun st => with_log (st.(g_log) ++ [(u, msg)])%list st).

(** ** Member functions, in the order of arguments.cc *)

(** [string& set(var)]: the slot [d_params[var]], created empty when
    missing.  The value returned is what the reference reads; a write through
    the reference is [params_assign]. *)
Definition set (var : string) : M string := params_index var.

Definition setDefault (var value : string) : M unit :=
  modify (fun st =>
    if negb (StdMap.mem var st.(defaultmap))
    then with_defaultmap (StdMap.insert var value st.(defaultmap)) st
    else st).

Definition setDefaults : M unit :=
  params <- gets d_params ;;
  for_each params (fun param =>
    modify (fun st =>
      if negb (StdMap.mem (fst param) st.(defaultmap))
      then with_defaultmap (StdMap.insert (fst param) (snd param) st.(defaultmap)) st
      else st)).

Definition parmIsset (var : string) : M bool :=
  gets (fun st => StdMap.mem var st.(d_params)).

(** [operator[]] *)
Definition operator_index (arg : string) : M string :=
  isset <- parmIsset arg ;;
  if negb isset then throw (NotFound arg)
  else params_index arg.

Definition mustDo (var : string) : M bool :=
  a <- operator_index var ;;
  if negb (String.eqb a "no") then
    b <- operator_index var ;;
    ret (negb (String.eqb b "off"))
  else ret false.

Definition list_names : M (list string) :=
  gets (fun st => map fst st.(d_params)).

(** [set(var, help)] *)
Definition set_help (var help : string) : M string :=
  helpmap_assign var help ;;
  typeMap_assign var "Parameter" ;;
  set var.

Definition setCmd (var help : string) : M unit :=
  helpmap_assign var help ;;
  typeMap_assign var "Command" ;;
  set var ;;
  params_assign var "no".

Definition setSwitch (var help : string) : M string :=
  helpmap_assign var help ;;
  typeMap_assign var "Switch" ;;
  set var.

Definition contains (var val : string) : M bool :=
  gets (fun st =>
    match StdMap.find var st.(d_params) with
    | None => false
    | Some second =>
        if Str.empty second then false
        else existsb (fun str => String.eqb str val)
                     (Ext.stringtok second (", " ++ Str.TAB))
    end).

Definition helpstring (prefix : string) : M string :=
  let prefix := if String.eqb prefix "no" then "" else prefix in
  items <- gets helpmap ;;
  for_fold items "" (fun helpitem help =>
    if negb (Str.empty prefix) && negb (Str.starts_with prefix (fst helpitem))
    then ret help
    else
      let help := help ++ "  --" in
      let help := help ++ fst helpitem in
      type <- typeMap_index (fst helpitem) ;;
      let help :=
        if String.eqb type "Parameter" then help ++ "=..."
        else if String.eqb type "Switch"
             then (help ++ (" | --" ++ fst helpitem ++ "=yes"))
                    ++ (" | --" ++ fst helpitem ++ "=no")
             else help in
      let help := help ++ (Str.NL ++ Str.TAB) in
      let help := help ++ snd helpitem in
      ret (help ++ Str.NL)).

Definition formatOne (running full : bool) (var help theDefault current : string) : string :=
  let rest (out : string) : string :=
    let out :=
      if negb running || String.eqb theDefault current then out ++ "# " else out in
    if running then
      let out := out ++ (var ++ "=" ++ current ++ Str.NL) in
      if full then out ++ Str.NL else out
    else out ++ (var ++ "=" ++ theDefault ++ Str.NL ++ Str.NL) in
  if negb running || full then
    rest ("#################################" ++ Str.NL
            ++ "# " ++ var ++ Str.TAB ++ help ++ Str.NL ++ "#" ++ Str.NL)
  else if String.eqb theDefault current then ""
  else rest "".

Section Introspection.

(** The result of [nowTime()] (misc.cc) at the call. *)
Variable nowTime : string.

Definition configstring (running full : bool) : M string :=
  let help :=
    if running
    then "# Autogenerated configuration file based on running instance ("
           ++ nowTime ++ ")" ++ Str.NL ++ Str.NL
    else "# Autogenerated configuration file template" ++ Str.NL ++ Str.NL in
  (* Affects parsing, should come first. *)
  h <- helpmap_index "ignore-unknown-settings" ;;
  d <- defaultmap_index "ignore-unknown-settings" ;;
  c <- params_index "ignore-unknown-settings" ;;
  let help := help ++ formatOne running full "ignore-unknown-settings" h d c in
  items <- gets helpmap ;;
  help <- for_fold items help (fun helpitem help =>
    type <- typeMap_index (fst helpitem) ;;
    if String.eqb type "Command" then ret help
    else if String.eqb (fst helpitem) "ignore-unknown-settings" then ret help
    else
      hasdef <- gets (fun st => StdMap.mem (fst helpitem) st.(defaultmap)) ;;
      if negb hasdef then throw (MissingDefault (fst helpitem))
      else
        d <- defaultmap_index (fst helpitem) ;;
        c <- params_index (fst helpitem) ;;
        ret (help ++ formatOne running full (fst helpitem) (snd helpitem) d c)) ;;
  if running then
    unknowns <- gets d_unknownParams ;;
    for_fold unknowns help (fun unknown help =>
      ret (help ++ formatOne running full (fst unknown) "unknown setting" "" (snd unknown)))
  else ret help.

End Introspection.

(** *** Typed accessors *)

Definition asMode (arg : string) : M Z :=
  isset <- parmIsset arg ;;
  if negb isset then throw (NotFound arg)
  else
    cptr_orig <- params_index arg ;;
    let '(v, consumed) := Ext.strtol cptr_orig 8 in
    let mode := Ext.to_u32 v in
    if Z.eqb mode 0 && Nat.eqb consumed 0
    then throw (MalformedValue ("'" ++ arg ++ "' contains invalid octal mode"))
    else ret mode.

Section Identity.

(** [getgrnam] and [getpwnam]: the id of a group or user name, if any. *)
Variables getgrnam getpwnam : string -> option Z.

Definition asGid (arg : string) : M Z :=
  isset <- parmIsset arg ;;
  if negb isset then throw (NotFound arg)
  else
    cptr_orig <- params_index arg ;;
    let '(v, consumed) := Ext.strtol cptr_orig 0 in
    let gid := Ext.to_u32 v in
    if Z.eqb gid 0 && Nat.eqb consumed 0 then
      name <- params_index arg ;;
      match getgrnam name with
      | None => throw (IdentityResolutionFailed arg)
      | Some gr_gid => ret gr_gid
      end
    else ret gid.

Definition asUid (arg : string) : M Z :=
  isset <- parmIsset arg ;;
  if negb isset then throw (NotFound arg)
  else
    cptr_orig <- params_index arg ;;
    let '(v, consumed) := Ext.strtol cptr_orig 0 in
    let uid := Ext.to_u32 v in
    if Z.eqb uid 0 && Nat.eqb consumed 0 then
      name <- params_index arg ;;
      match getpwnam name with
      | None => throw (IdentityResolutionFailed arg)
      | Some pw_uid => ret pw_uid
      end
    else ret uid.

End Identity.

Definition asNum (arg : string) (def : Z) : M Z :=
  isset <- parmIsset arg ;;
  if negb isset then throw (NotFound arg)
  else
    (* use default for empty values *)
    cur <- params_index arg ;;
    if Str.empty cur then ret def
    else
      cptr_orig <- params_index arg ;;
      let '(v, consumed) := Ext.strtol cptr_orig 0 in
      let retval := Ext.to_int v in
      if Z.eqb retval 0 && Nat.eqb consumed 0
      then throw (MalformedValue ("'" ++ arg ++ "' value '" ++ cptr_orig
                                    ++ "' is not a valid number"))
      else ret retval.

Definition isEmpty (arg : string) : M bool :=
  isset <- parmIsset arg ;;
  if negb isset then ret true
  else
    cur <- params_index arg ;;
    ret (Str.empty cur).

Section Double.

(** [double] and [strtod] stay abstract: the converted value, whether it
    compares equal to 0, and [endptr - nptr]. *)
Variable double : Type.
Variable double_zero : double.
Variable double_is_zero : double -> bool.
Variable strtod : string -> double * nat.

Definition asDouble (arg : string) : M double :=
  isset <- parmIsset arg ;;
  if negb isset then throw (NotFound arg)
  else
    cur <- params_index arg ;;
    if Str.empty cur then ret double_zero
    else
      cptr_orig <- params_index arg ;;
      let '(retval, consumed) := strtod cptr_orig in
      if double_is_zero retval && Nat.eqb consumed 0
      then throw (MalformedValue ("'" ++ arg ++ "' is not valid double"))
      else ret retval.

End Double.

(** The constructor, run on the empty object. *)
Definition empty_ArgvMap : ArgvMap :=
  mkArgvMap StdMap.empty StdMap.empty StdMap.empty StdMap.empty StdMap.empty
            [] StdSet.empty [].

Definition ArgvMap_ctor : M unit :=
  set_help "ignore-unknown-settings"
           "Configuration settings to ignore if they are unknown" ;;
  params_assign "ignore-unknown-settings" "".

(** *** Deprecated names *)

Definition deprecateList : StdMap.t :=
  [ ("edns-subnet-whitelist", "edns-subnet-allow-list");
    ("new-domain-whitelist", "new-domain-ignore-list");
    ("snmp-master-socket", "snmp-daemon-socket");
    ("stats-api-blacklist", "stats-api-disabled-list");
    ("stats-carbon-blacklist", "stats-carbon-disabled-list");
    ("stats-rec-control-blacklist", "stats-rec-control-disabled-list");
    ("stats-snmp-blacklist", "stats-snmp-disabled-list");
    ("xpf-allow-from", "Proxy Protocol");
    ("xpf-rr-code", "Proxy Protocol") ].

Definition warnIfDeprecated (var : string) : M unit :=
  match StdMap.find var deprecateList with
  | Some second =>
      log Warning ("'" ++ var
                     ++ "' is deprecated and will be removed in a future release, use '"
                     ++ second ++ "' instead")
  | None => ret tt
  end.

Definition isDeprecated (var : string) : string :=
  match StdMap.find var deprecateList with
  | Some second => second
  | None => ""
  end.

(** *** The parser *)

(** The first part of [parseOne]: the argument split into [var], [val]
    and [incremental]; [None] is the fifth form, a command. *)
Definition split_arg (arg : string) : option (string * string * bool) :=
  let dashes := Str.starts_with "--" arg in
  match (if dashes then Str.find_str "+=" arg else None) with
  | Some pos => (* this is a --port+=25 case *)
      Some (Str.substr 2 (pos - 2) arg, Str.substr_from (pos + 2) arg, true)
  | None =>
      match (if dashes then Str.find_char "=" arg else None) with
      | Some pos => (* this is a --port=25 case *)
          Some (Str.substr 2 (pos - 2) arg, Str.substr_from (pos + 1) arg, false)
      | None =>
          if dashes && negb (Str.contains_char "=" arg) (* this is a --daemon case *)
          then Some (Str.substr_from 2 arg, "", false)
          else if Ascii.eqb (Str.front arg) "-" && Nat.ltb 1 (String.length arg)
               then Some (Str.substr_from 1 arg, "", false)
               else None
      end
  end.

(** [val.find_first_not_of(" \t")] and the [substr] that follows it. *)
Definition strip_leading (val : string) : string :=
  match Str.find_first_not_of [" "%char; Str.tab] val with
  | Some (S pos) => Str.substr_from (S pos) val
  | _ => val
  end.

Definition parseOne (arg parseOnly : string) (lax : bool) : M unit :=
  parsed <-
    match split_arg arg with
    | Some p => ret p
    | None => (* command *)
        modify (fun st => with_cmds (st.(d_cmds) ++ [arg])%list st) ;;
        ret ("", "", false)
    end ;;
  let '(var, val, incremental) := parsed in
  let var := Str.trim var in
  if negb (Str.empty var) && (Str.empty parseOnly || String.eqb var parseOnly) then
    (if negb lax then warnIfDeprecated var else ret tt) ;;
    let val := strip_leading val in (* strip leading whitespace *)
    isset <- parmIsset var ;;
    if isset then
      if incremental then
        cur <- params_index var ;;
        if Str.empty cur then
          cleared <- gets (fun st => StdSet.mem var st.(d_cleared)) ;;
          if negb cleared then throw (IncrementalWithoutParent var)
          else params_assign var val
        else
          params_assign var (cur ++ (", " ++ val))
      else
        params_assign var val ;;
        modify (fun st => with_cleared (StdSet.insert var st.(d_cleared)) st)
    else
      (* unknown setting encountered. see if its on the ignore list before throwing. *)
      ign <- params_index "ignore-unknown-settings" ;;
      let parts := Ext.stringtok ign (" ," ++ Str.TAB ++ Str.NL ++ String Str.cr "") in
      if existsb (String.eqb var) parts then
        unknownParams_assign var val ;;
        log Warning ("Ignoring unknown setting '" ++ var ++ "' as requested")
      else if negb lax then throw (UnknownSetting var)
      else ret tt
  else ret tt.

Definition getCommands : M (list string) := gets d_cmds.

(** [argv] is the whole vector, [argv[0]] included; [argc] is its length. *)
Definition parse (argv : list string) (lax : bool) : M unit :=
  modify (with_cmds []) ;;
  modify (with_cleared StdSet.empty) ;;
  for_each (tl argv) (fun a => parseOne a "" lax).

(** Modelled from the spec: the default arguments of [parseOne] are given
    in arguments.hh, which is not among the sources.  The spec has the
    filter optional ("if a filter is supplied") and lax mode on request
    ("unless lax mode is requested"): no filter, not lax. *)
Definition parseOne_default_parseOnly : string := "".
Definition parseOne_default_lax : bool := false.

Definition preParse (argv : list string) (arg : string) : M unit :=
  for_each (tl argv) (fun varval =>
    if Str.starts_with ("--" ++ arg) varval
    then parseOne varval parseOne_default_parseOnly parseOne_default_lax
    else ret tt).

(** *** The file loader *)

(** What arguments.cc asks of the platform: the file system, and the one
    choice that the C++ library makes for it. *)
Record FileSystem := mkFileSystem {
  (** [std::ifstream(fname)]: the content, or [None] when it cannot be opened *)
  fs_ifstream : string -> option string;
  (** [opendir] then [readdir] to the end: the [d_name]s in the order
      they are delivered, or [stringerror(errno)] when [opendir] fails *)
  fs_readdir : string -> string + list string;
  (** [stat(name) == 0 && S_ISREG(st_mode)] *)
  fs_isreg : string -> bool;
  (** how [std::sort] orders two paths that [CIStringComparePOSIX] holds
      equivalent, see [Ext.sort] *)
  sort_ties : string -> string -> bool
}.

(** Comment stripping and trimming of one logical line of [parseFile]. *)
Definition strip_comment (line : string) : string :=
  match Str.find_char "#" line with
  | Some pos =>
      (* make sure it's either first char or has whitespace before *)
      if Nat.eqb pos 0 || Str.isspace (Str.front (Str.drop (pos - 1) line))
      then Str.substr 0 pos line
      else line
  | None => line
  end.

Definition strip_leading_spaces (line : string) : string :=
  match Str.find_first_not_of [" "%char; Str.tab; Str.cr; Str.nl] line with
  | Some pos => Str.substr_from pos line
  | None => line
  end.

Definition option_eqb_backslash (c : option ascii) : bool :=
  match c with Some c => Ascii.eqb c Str.backslash | None => false end.

(** The [while (getline(...))] loop of [parseFile]: [plines] are the lines
    still to be read and [line] is the logical line gathered so far. *)
Fixpoint parseFile_loop (plines : list string) (line arg : string) (lax : bool) : M unit :=
  match plines with
  | [] => ret tt
  | pline :: plines' =>
      let pline := Str.trim_right pline in
      if negb (Str.empty pline) && option_eqb_backslash (Str.last pline)
      then parseFile_loop plines' (line ++ Str.remove_last pline) arg lax
      else
        let line := line ++ pline in
        (* strip everything after a # *)
        let line := strip_comment line in
        (* strip trailing spaces *)
        let line := Str.trim_right line in
        (* strip leading spaces *)
        let line := strip_leading_spaces line in
        parseOne ("--" ++ line) arg lax ;;
        parseFile_loop plines' "" arg lax
  end.

Section Files.

Variable fs : FileSystem.

Definition parseFile (fname arg : string) (lax : bool) : M bool :=
  match fs_ifstream fs fname with
  | None => ret false
  | Some content =>
      parseFile_loop (Str.getlines content) "" arg lax ;;
      ret true
  end.

Definition preParseFile (fname arg theDefault : string) : M bool :=
  params_assign arg theDefault ;;
  parseFile fname arg false.

(** The [readdir] loop of [gatherIncludes]. *)
Definition gatherIncludes_loop (directory suffix : string) (ents : list string) : M (list string) :=
  for_fold ents [] (fun d_name vec =>
    if Ascii.eqb (Str.front d_name) "." then ret vec (* skip any dots *)
    else if Str.ends_with d_name suffix then
      (* build name *)
      let name := directory ++ "/" ++ d_name in
      (* ensure it's readable file *)
      if negb (fs_isreg fs name) then
        let msg := name ++ " is not a regular file" in
        log Error msg ;;
        throw (DirectoryInaccessible msg)
      else ret (vec ++ [name])%list
    else ret vec).

Definition gatherIncludes (directory suffix : string) (extraConfigs : list string)
  : M (list string) :=
  if Str.empty directory then ret extraConfigs (* nothing to do *)
  else
    match fs_readdir fs directory with
    | inl err =>
        let msg := directory ++ " is not accessible: " ++ err in
        log Error msg ;;
        throw (DirectoryInaccessible msg)
    | inr ents =>
        vec <- gatherIncludes_loop directory suffix ents ;;
        ret (extraConfigs
               ++ Ext.sort Ext.CIStringComparePOSIX (sort_ties fs) vec)%list
    end.

(** [file(fname, lax, included)] calls itself once, with [included] set, and
    that call cannot recurse: [file_with] is the body with the inner call
    as a parameter. *)
Definition file_with (inner : string -> bool -> M bool)
           (fname : string) (lax included : bool) : M bool :=
  isset <- parmIsset "include-dir" ;;
  (if negb isset (* inject include-dir *)
   then set_help "include-dir" "Directory to include configuration files from" ;; ret tt
   else ret tt) ;;
  ok <- parseFile fname "" lax ;;
  if negb ok then
    log Warning ("Unable to open " ++ fname) ;;
    ret false
  else
    (* handle include here (avoid re-include) *)
    incdir <- (if negb included then params_index "include-dir" else ret "") ;;
    if negb included && negb (Str.empty incdir) then
      dir <- params_index "include-dir" ;;
      extraConfigs <- gatherIncludes dir ".conf" [] ;;
      for_each extraConfigs (fun filename =>
        ok <- inner filename lax ;;
        if negb ok then
          log Error (filename ++ " could not be parsed") ;;
          throw (CouldNotBeParsed filename)
        else ret tt) ;;
      ret true
    else ret true.

Definition file_included (fname : string) (lax : bool) : M bool :=
  file_with (fun _ _ => ret true) fname lax true.

Definition file3 (fname : string) (lax included : bool) : M bool :=
  file_with file_included fname lax included.

(** [file(fname, lax)] *)
Definition file (fname : string) (lax : bool) : M bool := file3 fname lax false.

End Files.

(** * Vocabulary of the properties *)

(** The registry a call leaves behind, whether it returned or threw. *)
Definition final {A} (o : outcome A) : ArgvMap :=
  match o with Ok _ st => st | Throw _ st => st end.

(** The registry once [parseOne] has passed its deprecation check. *)
Definition warned (lax : bool) (var : string) (st : ArgvMap) : ArgvMap :=
  if lax then st else final (warnIfDeprecated var st).

(** Does the string end in a character with the property? *)
Definition ends_in (p : ascii -> bool) (s : string) : bool :=
  match Str.last s with Some c => p c | None => false end.

(** Every accessor that insists on a declared name throws NotFound. *)
Definition throws_NotFound
  (getgrnam getpwnam : string -> option Z)
  (double : Type) (double_zero : double) (double_is_zero : double -> bool)
  (strtod : string -> double * nat)
  (arg : string) (st : ArgvMap) : Prop :=
  operator_index arg st = Throw (NotFound arg) st
  /\ mustDo arg st = Throw (NotFound arg) st
  /\ asMode arg st = Throw (NotFound arg) st
  /\ asGid getgrnam arg st = Throw (NotFound arg) st
  /\ asUid getpwnam arg st = Throw (NotFound arg) st
  /\ (forall def, asNum arg def st = Throw (NotFound arg) st)
  /\ asDouble double double_zero double_is_zero strtod arg st
     = Throw (NotFound arg) st.

(** A name that a command-line argument can spell: not empty, without '=',
    without white space at either end, and not ending in '+' (which
    would turn "--name=" into an increment). *)
Definition name_ok (x : string) : bool :=
  negb (Str.empty x)
  && negb (Str.contains_char "=" x)
  && negb (Str.isspace (Str.front x))
  && negb (ends_in (fun c => Str.isspace c || Ascii.eqb c "+") x).

(** A small registry for the examples: the constructor, then the
    declarations an application makes at start-up, call after call. *)
Definition declare (var help value : string) (st : ArgvMap) : ArgvMap :=
  final (setDefault var value
           (final ((set_help var help ;; params_assign var value) st))).

Definition demo_registry : ArgvMap :=
  final (setCmd "daemon" "Operate as a daemon"
    (declare "x" "an example list" ""
    (declare "c" "third example setting" ""
    (declare "b" "second example setting" "2"
    (declare "a" "first example setting" "1"
    (final (setDefault "ignore-unknown-settings" ""
    (final (ArgvMap_ctor empty_ArgvMap))))))))).

Definition c1_registry : ArgvMap :=
  final (parse ["pdns"; "--b=5"] false demo_registry).

Definition banner_running (nowTime : string) : string :=
  "# Autogenerated configuration file based on running instance ("
    ++ nowTime ++ ")" ++ Str.NL ++ Str.NL.

Definition block_header (var help : string) : string :=
  "#################################" ++ Str.NL
    ++ "# " ++ var ++ Str.TAB ++ help ++ Str.NL ++ "#" ++ Str.NL.

Definition c3_registry : ArgvMap :=
  declare "include-dirs" "another setting" ""
    (declare "include-dir" "Directory to include configuration files from" ""
       demo_registry).

Definition c3_fs : FileSystem :=
  mkFileSystem
    (fun fname => if String.eqb fname "pdns.conf"
                  then Some ("include-dirs=x" ++ Str.NL ++ "include-dir=/etc/pdns.d" ++ Str.NL)
                  else None)
    (fun _ => inl "No such file or directory")
    (fun _ => false)
    Ext.ties_keep.

(** The four lines of the file-format example. *)
Definition c6_content : string :=
  "a=1" ++ String Str.backslash "" ++ Str.NL
    ++ "2" ++ Str.NL
    ++ "b=3 # comment" ++ Str.NL
    ++ "c=3#notacomment" ++ Str.NL.

Definition c6_fs : FileSystem :=
  mkFileSystem
    (fun fname => if String.eqb fname "pdns.conf" then Some c6_content else None)
    (fun _ => inl "No such file or directory")
    (fun _ => false)
    Ext.ties_keep.




(** The entries [gatherIncludes] keeps: not beginning with a dot, and
    ending (case-sensitively) in the suffix. *)
Definition conf_entry (suffix d_name : string) : bool :=
  negb (Ascii.eqb (Str.front d_name) ".") && Str.ends_with d_name suffix.

Definition included_names (directory suffix : string) (ents : list string) : list string :=
  map (fun d_name => directory ++ "/" ++ d_name) (filter (conf_entry suffix) ents).

(** The same file system with the dot entries of every directory hidden. *)
Definition hide_dot_entries (fs : FileSystem) : FileSystem :=
  mkFileSystem
    (fs_ifstream fs)
    (fun directory =>
       match fs_readdir fs directory with
       | inl err => inl err
       | inr ents => inr (filter (fun d => negb (Ascii.eqb (Str.front d) ".")) ents)
       end)
    (fs_isreg fs)
    (sort_ties fs).

(** "Not after" in the comparator's order: what [std::sort] establishes
    between an element and every later one. *)
Definition ci_le (a b : string) : Prop := Ext.CIStringComparePOSIX b a = false.

(** An include directory with a hidden directory and a hidden file that
    both end in ".conf", next to two regular files. *)
Definition c10_fs : FileSystem :=
  mkFileSystem
    (fun _ => None)
    (fun directory =>
       if String.eqb directory "/etc/pdns.d"
       then inr [".git.conf"; "b.conf"; ".hidden.conf"; "a.conf"; "README"]
       else inl "No such file or directory")
    (fun name => negb (String.eqb name "/etc/pdns.d/.git.conf"))
    Ext.ties_keep.

(** The same directory with a sub-directory "old.conf". *)
Definition c10_fs_subdir : FileSystem :=
  mkFileSystem
    (fun _ => None)
    (fun directory =>
       if String.eqb directory "/etc/pdns.d"
       then inr ["b.conf"; "old.conf"; "a.conf"]
       else inl "No such file or directory")
    (fun name => negb (String.eqb name "/etc/pdns.d/old.conf"))
    Ext.ties_keep.

(** One turn of the loop over the gathered files in [file]. *)
Definition parse_included (fs : FileSystem) (lax : bool) (filename : string) : M unit :=
  ok <- file_included fs filename lax ;;
  if negb ok then
    log Error (filename ++ " could not be parsed") ;;
    throw (CouldNotBeParsed filename)
  else ret tt.

(** The reading of the specification: a case-insensitive ends-with, and
    the regular files of the directory that pass it. *)
Definition fold_case (s : string) : string :=
  string_of_list_ascii (map (fun c => ascii_of_nat (Ext.tolower c)) (list_ascii_of_string s)).

Definition iends_with (s suffix : string) : bool :=
  Str.ends_with (fold_case s) (fold_case suffix).

Definition spec_included_names (fs : FileSystem) (directory : string) (ents : list string)
  : list string :=
  map (fun d_name => directory ++ "/" ++ d_name)
      (filter (fun d_name => iends_with d_name ".conf"
                             && fs_isreg fs (directory ++ "/" ++ d_name)) ents).

(** The place of the first [x] in [l], counted from 0; the length of [l]
    when there is none. *)
Fixpoint position (x : string) (l : list string) : nat :=
  match l with
  | [] => 0
  | y :: l' => if String.eqb x y then 0 else S (position x l')
  end.

(** The choice among equivalent paths that follows the order of [sorted]. *)
Definition position_ties (sorted : list string) (x y : string) : bool :=
  Nat.ltb (position x sorted) (position y sorted).

(** A configuration directory with two names that differ only in case;
    [ties] is the library's choice between them. *)
Definition c2_case_fs (ties : string -> string -> bool) : FileSystem :=
  mkFileSystem
    (fun fname =>
       if String.eqb fname "pdns.conf" then Some ("include-dir=/etc/pdns.d" ++ Str.NL)
       else if String.eqb fname "/etc/pdns.d/A.conf" then Some ("b=upper" ++ Str.NL)
       else if String.eqb fname "/etc/pdns.d/a.conf" then Some ("b=lower" ++ Str.NL)
       else None)
    (fun directory =>
       if String.eqb directory "/etc/pdns.d" then inr ["A.conf"; "a.conf"]
       else inl "No such file or directory")
    (fun _ => true)
    ties.

(** A configuration directory with three regular files. *)
Definition c2_fs : FileSystem :=
  mkFileSystem
    (fun fname =>
       if String.eqb fname "pdns.conf" then Some ("include-dir=/etc/pdns.d" ++ Str.NL)
       else if String.eqb fname "/etc/pdns.d/A.CONF" then Some ("a=upper" ++ Str.NL)
       else if String.eqb fname "/etc/pdns.d/2-b.conf" then Some ("b=two" ++ Str.NL)
       else if String.eqb fname "/etc/pdns.d/10-a.conf"
            then Some ("b=ten" ++ Str.NL ++ "c=ten" ++ Str.NL)
       else None)
    (fun directory =>
       if String.eqb directory "/etc/pdns.d"
       then inr ["A.CONF"; "2-b.conf"; "10-a.conf"]
       else inl "No such file or directory")
    (fun _ => true)
    Ext.ties_keep.

(** *** The round trip through a dumped configuration *)

(** [m[k]] as a value: the empty string when the key is missing. *)
Definition value_or_empty (k : string) (m : StdMap.t) : string :=
  match StdMap.find k m with Some v => v | None => "" end.

(** The line [formatOne] writes in the running, not full mode: none when
    the current value is the default. *)
Definition changed_line (var theDefault current : string) : list (string * string) :=
  if String.eqb theDefault current then [] else [(var, current)].

(** The name and value of every line of [configstring(true, false)], in
    order: ignore-unknown-settings, the declared settings, the unknown ones. *)
Definition dump_lines (st : ArgvMap) : list (string * string) :=
  (changed_line "ignore-unknown-settings"
                (value_or_empty "ignore-unknown-settings" st.(defaultmap))
                (value_or_empty "ignore-unknown-settings" st.(d_params))
   ++ flat_map (fun helpitem : string * string =>
        if String.eqb (value_or_empty (fst helpitem) st.(d_typeMap)) "Command" then []
        else if String.eqb (fst helpitem) "ignore-unknown-settings" then []
        else changed_line (fst helpitem)
                          (value_or_empty (fst helpitem) st.(defaultmap))
                          (value_or_empty (fst helpitem) st.(d_params)))
        st.(helpmap)
   ++ flat_map (fun unknown : string * string =>
        changed_line (fst unknown) "" (snd unknown))
        st.(d_unknownParams))%list.

Fixpoint render_lines (ls : list (string * string)) : string :=
  match ls with
  | [] => ""
  | kv :: ls' => (fst kv ++ "=" ++ snd kv ++ Str.NL) ++ render_lines ls'
  end.

(** No '#' of the string starts a comment: the first one, if any, follows
    a character that is not white space.  [prev_space] says whether the
    string starts a line or follows white space. *)
Fixpoint hash_ok (prev_space : bool) (s : string) : bool :=
  match s with
  | EmptyString => true
  | String c s' =>
      if Ascii.eqb c "#" then negb prev_space else hash_ok (Str.isspace c) s'
  end.

(** A line "var=current" that the file loader hands to the parser as it
    is, and that the parser splits back into var and current. *)
Definition line_safe (var current : string) : bool :=
  let line := var ++ "=" ++ current in
  negb (Str.empty var)
  && negb (Str.contains_char "=" var)
  && negb (Str.isspace (Str.front var))
  && negb (ends_in Str.isspace var)
  && negb (Str.contains_char Str.nl line)
  && match Str.find_str "+=" line with None => true | Some _ => false end
  && hash_ok true line
  && negb (ends_in (fun c => Str.isspace c || Ascii.eqb c Str.backslash) line)
  && negb (existsb (Ascii.eqb (Str.front current)) [" "%char; Str.tab]).

(** What holds of every registry built through the member functions: the
    constructor's setting has its help text, and every name with a help
    text has a value and a type. *)
Definition registry_wf (st : ArgvMap) : bool :=
  StdMap.mem "ignore-unknown-settings" st.(helpmap)
  && forallb (fun helpitem : string * string =>
                StdMap.mem (fst helpitem) st.(d_params)
                && StdMap.mem (fst helpitem) st.(d_typeMap))
             st.(helpmap).

(** Every declared non-Command parameter has a registered default, the
    constructor's among them. *)
Definition defaults_set (st : ArgvMap) : bool :=
  StdMap.mem "ignore-unknown-settings" st.(defaultmap)
  && forallb (fun helpitem : string * string =>
                String.eqb (value_or_empty (fst helpitem) st.(d_typeMap)) "Command"
                || StdMap.mem (fst helpitem) st.(defaultmap))
             st.(helpmap).

(** Every unknown setting that the dump shows is still undeclared and
    still on the ignore list. *)
Definition unknowns_tolerated (st : ArgvMap) : bool :=
  forallb (fun unknown : string * string =>
             Str.empty (snd unknown)
             || (negb (StdMap.mem (fst unknown) st.(d_params))
                 && existsb (String.eqb (fst unknown))
                            (Ext.stringtok
                               (value_or_empty "ignore-unknown-settings" st.(d_params))
                               (" ," ++ Str.TAB ++ Str.NL ++ String Str.cr ""))))
          st.(d_unknownParams).

Definition dump_safe (st : ArgvMap) : bool :=
  forallb (fun kv : string * string => line_safe (fst kv) (snd kv)) (dump_lines st).

(** The two registries give every name the same value. *)
Definition same_values (st st' : ArgvMap) : Prop :=
  forall k, StdMap.find k st'.(d_params) = StdMap.find k st.(d_params).

(** Where a dumped line comes from: a declared setting and its value, or
    an undeclared name that is on the ignore list. *)
Definition line_source (st : ArgvMap) (kv : string * string) : Prop :=
  StdMap.find (fst kv) st.(d_params) = Some (snd kv)
  \/ (StdMap.find (fst kv) st.(d_params) = None
      /\ existsb (String.eqb (fst kv))
                 (Ext.stringtok (value_or_empty "ignore-unknown-settings" st.(d_params))
                                (" ," ++ Str.TAB ++ Str.NL ++ String Str.cr "")) = true).

(** The names that have a line in [configstring(true, false)]. *)
Definition dumped_names (st : ArgvMap) : list string := map fst (dump_lines st).

(** The second registry declares the names the first declares, and gives
    every name outside [names] the value the first gives it. *)
Definition agrees_off (names : list string) (st st1 : ArgvMap) : Prop :=
  (forall k, StdMap.mem k st1.(d_params) = StdMap.mem k st.(d_params))
  /\ (forall k, ~ In k names ->
                StdMap.find k st1.(d_params) = StdMap.find k st.(d_params)).

(** A registry into which the dump of [st] can be read back: it declares
    the same names and holds the value of [st] wherever the dump is silent
    (a setting at its default, a Command); on the names that have a line its
    values are arbitrary.  [st] itself is one, and so is the registry of a
    program that has declared the same parameters with the same defaults
    and has not parsed anything yet. *)
Definition reads_into (st st0 : ArgvMap) : Prop :=
  agrees_off (dumped_names st) st st0.

(** A registry with a value that begins a comment when written to a file:
    x is set to "a #b" on the command line. *)
Definition c8_registry : ArgvMap :=
  final (parse ["pdns"; "--x=a #b"] false demo_registry).

Definition c8_fs (content : string) : FileSystem :=
  mkFileSystem
    (fun fname => if String.eqb fname "dump.conf" then Some content else None)
    (fun _ => inl "No such file or directory")
    (fun _ => false)
    Ext.ties_keep.

(** The dump of a call, when it returned. *)
Definition dumped (o : outcome string) : string :=
  match o with Ok s _ => s | Throw _ _ => "" end.

(** *** Reachable registries *)

(** The invariant behind [registry_wf], as a proposition on names. *)
Definition registry_inv (st : ArgvMap) : Prop :=
  StdMap.mem "ignore-unknown-settings" st.(helpmap) = true
  /\ forall k, StdMap.mem k st.(helpmap) = true ->
               StdMap.mem k st.(d_params) = true /\ StdMap.mem k st.(d_typeMap) = true.

(** The second registry has the help texts of the first and at least its
    values and types. *)
Definition extends (st st' : ArgvMap) : Prop :=
  st'.(helpmap) = st.(helpmap)
  /\ (forall k, StdMap.mem k st.(d_params) = true -> StdMap.mem k st'.(d_params) = true)
  /\ (forall k, StdMap.mem k st.(d_typeMap) = true -> StdMap.mem k st'.(d_typeMap) = true).

Definition preserves {A} (c : M A) : Prop :=
  forall st, registry_inv st -> registry_inv (final (c st)).

(** The member functions, as an application may call them; a write through
    the reference that [set] returns is the call [set] followed by the
    assignment. *)
Inductive member_call : forall A : Type, M A -> Prop :=
| call_set var : member_call string (set var)
| call_set_write var value : member_call unit (set var ;; params_assign var value)
| call_setDefault var value : member_call unit (setDefault var value)
| call_setDefaults : member_call unit setDefaults
| call_mustDo var : member_call bool (mustDo var)
| call_list : member_call (list string) list_names
| call_set_help var help : member_call string (set_help var help)
| call_set_help_write var help value :
    member_call unit (set_help var help ;; params_assign var value)
| call_setCmd var help : member_call unit (setCmd var help)
| call_setSwitch var help : member_call string (setSwitch var help)
| call_setSwitch_write var help value :
    member_call unit (setSwitch var help ;; params_assign var value)
| call_contains var val : member_call bool (contains var val)
| call_helpstring prefix : member_call string (helpstring prefix)
| call_configstring nowTime running full :
    member_call string (configstring nowTime running full)
| call_operator_index arg : member_call string (operator_index arg)
| call_asMode arg : member_call Z (asMode arg)
| call_asGid getgrnam arg : member_call Z (asGid getgrnam arg)
| call_asUid getpwnam arg : member_call Z (asUid getpwnam arg)
| call_asNum arg def : member_call Z (asNum arg def)
| call_isEmpty arg : member_call bool (isEmpty arg)
| call_parmIsset var : member_call bool (parmIsset var)
| call_parseOne arg parseOnly lax : member_call unit (parseOne arg parseOnly lax)
| call_getCommands : member_call (list string) getCommands
| call_parse argv lax : member_call unit (parse argv lax)
| call_preParse argv arg : member_call unit (preParse argv arg)
| call_parseFile fs fname arg lax : member_call bool (parseFile fs fname arg lax)
| call_preParseFile fs fname arg theDefault :
    member_call bool (preParseFile fs fname arg theDefault)
| call_file fs fname lax : member_call bool (file fs fname lax)
| call_file3 fs fname lax included : member_call bool (file3 fs fname lax included)
| call_gatherIncludes fs directory suffix extraConfigs :
    member_call (list string) (gatherIncludes fs directory suffix extraConfigs).

(** The registries an application can arrive at: the constructed one, and
    what any call leaves behind, whether it returns or throws. *)
Inductive reachable : ArgvMap -> Prop :=
| reachable_ctor : reachable (final (ArgvMap_ctor empty_ArgvMap))
| reachable_call A (c : M A) st :
    reachable st -> member_call A c -> reachable (final (c st)).

(** *** Properties that every member function keeps *)

(** A property of registries that no elementary update breaks: an
    assignment in the value, help, type or unknown-setting map, a new key in
    the default map, and any change of the command list, the cleared set and
    the log. *)
Record stable (P : ArgvMap -> Prop) : Prop := mkStable {
  stable_params : forall st k v,
    P st -> P (with_params (StdMap.assign k v st.(d_params)) st);
  stable_helpmap : forall st k v,
    P st -> P (with_helpmap (StdMap.assign k v st.(helpmap)) st);
  stable_typeMap : forall st k v,
    P st -> P (with_typeMap (StdMap.assign k v st.(d_typeMap)) st);
  stable_unknownParams : forall st k v,
    P st -> P (with_unknownParams (StdMap.assign k v st.(d_unknownParams)) st);
  stable_defaultmap : forall st k v,
    StdMap.mem k st.(defaultmap) = false ->
    P st -> P (with_defaultmap (StdMap.assign k v st.(defaultmap)) st);
  stable_cmds : forall st l, P st -> P (with_cmds l st);
  stable_cleared : forall st s, P st -> P (with_cleared s st);
  stable_log : forall st l, P st -> P (with_log l st)
}.

Definition invariant (P : ArgvMap -> Prop) {A} (c : M A) : Prop :=
  forall st, P st -> P (final (c st)).

(** *** The dump as a function of the maps *)

Fixpoint concat_map {A} (f : A -> string) (l : list A) : string :=
  match l with
  | [] => ""
  | x :: l' => f x ++ concat_map f l'
  end.

(** The block of one declared setting: empty for a Command and for
    ignore-unknown-settings, which is written first. *)
Definition item_text (running full : bool) (st : ArgvMap) (helpitem : string * string)
  : string :=
  if String.eqb (value_or_empty (fst helpitem) st.(d_typeMap)) "Command" then ""
  else if String.eqb (fst helpitem) "ignore-unknown-settings" then ""
  else formatOne running full (fst helpitem) (snd helpitem)
                 (value_or_empty (fst helpitem) st.(defaultmap))
                 (value_or_empty (fst helpitem) st.(d_params)).

Definition dump_text (running full : bool) (st : ArgvMap) : string :=
  formatOne running full "ignore-unknown-settings"
            (value_or_empty "ignore-unknown-settings" st.(helpmap))
            (value_or_empty "ignore-unknown-settings" st.(defaultmap))
            (value_or_empty "ignore-unknown-settings" st.(d_params))
  ++ concat_map (item_text running full st) st.(helpmap)
  ++ (if running
      then concat_map (fun unknown : string * string =>
                         formatOne running full (fst unknown) "unknown setting" ""
                                   (snd unknown))
                      st.(d_unknownParams)
      else "").

Definition banner (running : bool) (nowTime : string) : string :=
  if running
  then "# Autogenerated configuration file based on running instance ("
         ++ nowTime ++ ")" ++ Str.NL ++ Str.NL
  else "# Autogenerated configuration file template" ++ Str.NL ++ Str.NL.

(** The setting is declared, is not a Command, is not the constructor's
    setting, and has no default. *)
Definition lacks_default (st : ArgvMap) (k : string) : bool :=
  negb (String.eqb (value_or_empty k st.(d_typeMap)) "Command")
  && negb (String.eqb k "ignore-unknown-settings")
  && negb (StdMap.mem k st.(defaultmap)).

(** The registry once [configstring] has read the default of the
    constructor's setting with [operator[]]: a missing default is there,
    empty. *)
Definition with_ignore_default (st : ArgvMap) : ArgvMap :=
  final (defaultmap_index "ignore-unknown-settings" st).

(** A registry without any default: the constructor's, with one more
    setting declared. *)
Definition bare_registry : ArgvMap :=
  final (set_help "z" "a setting without a default" (final (ArgvMap_ctor empty_ArgvMap))).

(** A registry with a setting that was declared and never given a default. *)
Definition no_default_registry : ArgvMap :=
  final (set_help "z" "a setting without a default" demo_registry).

(** A bare word: an argument that is neither "--..." nor "-x...". *)
Definition is_command (arg : string) : bool :=
  negb (Str.starts_with "--" arg)
  && negb (Ascii.eqb (Str.front arg) "-" && Nat.ltb 1 (String.length arg)).

(** A file that sets several things, one of them unknown. *)
Definition preparse_fs : FileSystem :=
  mkFileSystem
    (fun fname =>
       if String.eqb fname "pdns.conf"
       then Some ("a=7" ++ Str.NL ++ "no-such-setting=1" ++ Str.NL
                    ++ "b=8" ++ Str.NL ++ "b+=9" ++ Str.NL)
       else None)
    (fun _ => inl "No such file or directory")
    (fun _ => false)
    Ext.ties_keep.

(** An include directory whose only file cannot be opened. *)
Definition unreadable_fs : FileSystem :=
  mkFileSystem
    (fun fname =>
       if String.eqb fname "pdns.conf" then Some ("include-dir=/etc/pdns.d" ++ Str.NL)
       else None)
    (fun directory =>
       if String.eqb directory "/etc/pdns.d" then inr ["secret.conf"]
       else inl "No such file or directory")
    (fun _ => true)
    Ext.ties_keep.

(** A value that [contains] reads as one token: not empty, and without
    comma, space or tab. *)
Definition is_token (s : string) : bool :=
  negb (Str.empty s)
  && forallb (fun c => negb (existsb (Ascii.eqb c) [","%char; " "%char; Str.tab]))
             (list_ascii_of_string s).

(** The lines [helpstring] writes for one entry of the help map. *)
Definition help_block (st : ArgvMap) (helpitem : string * string) : string :=
  let type := value_or_empty (fst helpitem) st.(d_typeMap) in
  "  --" ++ fst helpitem
    ++ (if String.eqb type "Parameter" then "=..."
        else if String.eqb type "Switch"
             then " | --" ++ fst helpitem ++ "=yes" ++ " | --" ++ fst helpitem ++ "=no"
             else "")
    ++ Str.NL ++ Str.TAB ++ snd helpitem ++ Str.NL.

(** What [warnIfDeprecated] writes to the log. *)
Definition deprecation_warning (var : string) : list (Urgency * string) :=
  match StdMap.find var deprecateList with
  | Some second =>
      [(Warning, "'" ++ var
                   ++ "' is deprecated and will be removed in a future release, use '"
                   ++ second ++ "' instead")]
  | None => []
  end.

(** The example registry with one deprecated name declared. *)
Definition deprecated_registry : ArgvMap :=
  declare "snmp-master-socket" "Socket of the SNMP daemon" "" demo_registry.

(** * Properties *)

(** ** Maps *)

Lemma string_compare_refl (s : string) : String.compare s s = Eq.
Proof.
  pose proof (String.compare_antisym s s) as H.
  destruct (String.compare s s); simpl in H; congruence.
Qed.

Lemma find_assign_same (k v : string) (m : StdMap.t) :
  StdMap.find k (StdMap.assign k v m) = Some v.
Proof.
  induction m as [|[k' v'] m IH]; simpl.
  - now rewrite String.eqb_refl.
  - destruct (String.compare k k') eqn:E; simpl.
    + now rewrite String.eqb_refl.
    + now rewrite String.eqb_refl.
    + destruct (String.eqb_spec k k') as [->|_]; [|exact IH].
      rewrite string_compare_refl in E; discriminate.
Qed.

Lemma find_assign_other (k k' v : string) (m : StdMap.t) :
  k <> k' -> StdMap.find k' (StdMap.assign k v m) = StdMap.find k' m.
Proof.
  intros Hne. induction m as [|[k0 v0] m IH]; simpl.
  - destruct (String.eqb_spec k' k); congruence.
  - destruct (String.compare k k0) eqn:E; simpl.
    + apply String.compare_eq_iff in E; subst k0.
      destruct (String.eqb_spec k' k); congruence.
    + destruct (String.eqb_spec k' k); congruence.
    + destruct (String.eqb_spec k' k0); [reflexivity | exact IH].
Qed.

Lemma index_present (k v : string) (m : StdMap.t) :
  StdMap.find k m = Some v -> StdMap.index k m = (v, m).
Proof. unfold StdMap.index; now intros ->. Qed.

Lemma find_index_same (k : string) (m : StdMap.t) :
  StdMap.find k (snd (StdMap.index k m)) = Some (fst (StdMap.index k m)).
Proof.
  unfold StdMap.index. destruct (StdMap.find k m) eqn:E; cbn [fst snd].
  - exact E.
  - apply find_assign_same.
Qed.

Lemma find_index_other (k k' : string) (m : StdMap.t) :
  k <> k' -> StdMap.find k' (snd (StdMap.index k m)) = StdMap.find k' m.
Proof.
  intros Hne. unfold StdMap.index. destruct (StdMap.find k m); cbn [snd].
  - reflexivity.
  - now apply find_assign_other.
Qed.

Lemma mem_find (k : string) (m : StdMap.t) :
  StdMap.mem k m = true <-> exists v, StdMap.find k m = Some v.
Proof.
  unfold StdMap.mem; destruct (StdMap.find k m) as [v|]; split;
    try discriminate; eauto.
  intros [v Hv]; discriminate.
Qed.

Lemma mem_false_find (k : string) (m : StdMap.t) :
  StdMap.mem k m = false <-> StdMap.find k m = None.
Proof.
  unfold StdMap.mem; destruct (StdMap.find k m); split; congruence.
Qed.

(** Reading a declared parameter leaves the registry as it is. *)
Lemma params_index_present (k v : string) (st : ArgvMap) :
  StdMap.find k st.(d_params) = Some v -> params_index k st = Ok v st.
Proof.
  intros H. unfold params_index. rewrite (index_present _ _ _ H).
  now destruct st.
Qed.

Lemma parmIsset_find (k : string) (st : ArgvMap) :
  parmIsset k st = Ok (StdMap.mem k st.(d_params)) st.
Proof. reflexivity. Qed.

Ltac monad_simpl :=
  unfold bind, ret, throw, gets, modify in *; simpl in *.

(** ** Typed accessors *)

Section AccessorFacts.

Variables getgrnam getpwnam : string -> option Z.
Variable double : Type.
Variable double_zero : double.
Variable double_is_zero : double -> bool.
Variable strtod : string -> double * nat.

Lemma undeclared_throws (arg : string) (st : ArgvMap) :
  StdMap.find arg st.(d_params) = None ->
  throws_NotFound getgrnam getpwnam double double_zero double_is_zero strtod arg st.
Proof.
  intros H. apply mem_false_find in H.
  unfold throws_NotFound, mustDo, operator_index, asMode, asGid, asUid, asNum,
    asDouble, parmIsset.
  monad_simpl. rewrite H. simpl. repeat split; reflexivity.
Qed.

End AccessorFacts.

Lemma asNum_declared (arg cur : string) (def : Z) (st : ArgvMap) :
  StdMap.find arg st.(d_params) = Some cur ->
  asNum arg def st =
    if Str.empty cur then Ok def st
    else
      let '(v, consumed) := Ext.strtol cur 0 in
      if Z.eqb (Ext.to_int v) 0 && Nat.eqb consumed 0
      then Throw (MalformedValue ("'" ++ arg ++ "' value '" ++ cur
                                    ++ "' is not a valid number")) st
      else Ok (Ext.to_int v) st.
Proof.
  intros H. unfold asNum, parmIsset. monad_simpl.
  unfold StdMap.mem. rewrite H. simpl.
  rewrite (params_index_present _ _ _ H).
  destruct (Str.empty cur); [reflexivity|].
  rewrite (params_index_present _ _ _ H).
  destruct (Ext.strtol cur 0) as [v consumed].
  destruct (Z.eqb (Ext.to_int v) 0 && Nat.eqb consumed 0); reflexivity.
Qed.

(** C7: [asNum] gives 0 on the stored value "0", fails with MalformedValue
    on "abc" (zero, nothing consumed), gives the caller's default on the
    empty string, and fails with NotFound on an undeclared name, whatever
    the default. *)
Theorem C7_asNum (arg : string) (def : Z) (st : ArgvMap) :
  (StdMap.find arg st.(d_params) = Some "0" -> asNum arg def st = Ok 0%Z st)
  /\ (StdMap.find arg st.(d_params) = Some "abc" ->
      Ext.strtol "abc" 0 = (0%Z, 0)
      /\ asNum arg def st
         = Throw (MalformedValue ("'" ++ arg ++ "' value 'abc' is not a valid number")) st)
  /\ (StdMap.find arg st.(d_params) = Some "" -> asNum arg def st = Ok def st)
  /\ (StdMap.find arg st.(d_params) = None -> asNum arg def st = Throw (NotFound arg) st).
Proof.
  split; [|split; [|split]]; intros H.
  - now rewrite (asNum_declared _ _ _ _ H).
  - split; [reflexivity|]. now rewrite (asNum_declared _ _ _ _ H).
  - now rewrite (asNum_declared _ _ _ _ H).
  - unfold asNum, parmIsset. monad_simpl.
    apply mem_false_find in H. now rewrite H.
Qed.

(** C9: on a name that is not in the registry [isEmpty] answers true and
    leaves the registry alone, where [operator[]], [mustDo] and the typed
    accessors throw NotFound. *)
Theorem C9_isEmpty_undeclared
  (getgrnam getpwnam : string -> option Z)
  (double : Type) (double_zero : double) (double_is_zero : double -> bool)
  (strtod : string -> double * nat)
  (name : string) (st : ArgvMap) :
  StdMap.find name st.(d_params) = None ->
  isEmpty name st = Ok true st
  /\ throws_NotFound getgrnam getpwnam double double_zero double_is_zero strtod name st.
Proof.
  intros H. split.
  - unfold isEmpty, parmIsset. monad_simpl.
    apply mem_false_find in H. now rewrite H.
  - now apply undeclared_throws.
Qed.

Lemma C7_asNum_witness :
  asNum "a" 7%Z (with_params [("a", "0")] demo_registry)
  = Ok 0%Z (with_params [("a", "0")] demo_registry)
  /\ asNum "a" 7%Z (with_params [("a", "abc")] demo_registry)
     = Throw (MalformedValue "'a' value 'abc' is not a valid number")
             (with_params [("a", "abc")] demo_registry)
  /\ asNum "c" 7%Z demo_registry = Ok 7%Z demo_registry
  /\ asNum "no-such-setting" 7%Z demo_registry
     = Throw (NotFound "no-such-setting") demo_registry.
Proof.
  split; [|split; [|split]].
  - exact (proj1 (C7_asNum "a" 7%Z (with_params [("a", "0")] demo_registry)) eq_refl).
  - exact (proj2 (proj1 (proj2 (C7_asNum "a" 7%Z (with_params [("a", "abc")] demo_registry)))
                        eq_refl)).
  - exact (proj1 (proj2 (proj2 (C7_asNum "c" 7%Z demo_registry))) eq_refl).
  - exact (proj2 (proj2 (proj2 (C7_asNum "no-such-setting" 7%Z demo_registry))) eq_refl).
Defined.

Lemma C9_isEmpty_undeclared_witness :
  isEmpty "no-such-setting" demo_registry = Ok true demo_registry.
Proof.
  exact (proj1 (C9_isEmpty_undeclared (fun _ => None) (fun _ => None)
                  unit tt (fun _ => true) (fun _ => (tt, 0))
                  "no-such-setting" demo_registry eq_refl)).
Defined.

(** ** Strings *)

Lemma append_assoc (a b c : string) : (a ++ b) ++ c = a ++ (b ++ c).
Proof. induction a as [|x a IH]; simpl; [reflexivity | now rewrite IH]. Qed.

Lemma append_nil_r (a : string) : a ++ "" = a.
Proof. induction a as [|x a IH]; simpl; [reflexivity | now rewrite IH]. Qed.

Lemma drop_append (a b : string) (n : nat) :
  Str.drop (String.length a + n) (a ++ b) = Str.drop n b.
Proof. induction a as [|x a IH]; simpl; [reflexivity | exact IH]. Qed.

Lemma drop_append_0 (a b : string) : Str.drop (String.length a) (a ++ b) = b.
Proof. rewrite <- (Nat.add_0_r (String.length a)). now rewrite drop_append. Qed.

Lemma take_append (a b : string) : Str.take (String.length a) (a ++ b) = a.
Proof. induction a as [|x a IH]; simpl; [now destruct b | now rewrite IH]. Qed.

Lemma contains_char_cons (c d : ascii) (s : string) :
  Str.contains_char c (String d s) = Ascii.eqb d c || Str.contains_char c s.
Proof.
  unfold Str.contains_char; simpl.
  destruct (Ascii.eqb d c); [reflexivity|].
  now destruct (Str.find_char c s).
Qed.

Lemma contains_char_append (c : ascii) (a b : string) :
  Str.contains_char c (a ++ b) = Str.contains_char c a || Str.contains_char c b.
Proof.
  induction a as [|x a IH]; [reflexivity|].
  simpl. rewrite !contains_char_cons, IH. now rewrite orb_assoc.
Qed.

Lemma contains_char_false (c : ascii) (s : string) :
  Str.contains_char c s = false -> Str.find_char c s = None.
Proof. unfold Str.contains_char. now destruct (Str.find_char c s). Qed.

Lemma find_char_append (c : ascii) (a b : string) :
  Str.contains_char c a = false ->
  Str.find_char c (a ++ String c b) = Some (String.length a).
Proof.
  induction a as [|x a IH]; simpl; intros H.
  - now rewrite Ascii.eqb_refl.
  - rewrite contains_char_cons in H. apply orb_false_elim in H as [Hx Ha].
    rewrite Hx, (IH Ha). reflexivity.
Qed.

Lemma starts_with_cons (a b : ascii) (p s : string) :
  Str.starts_with (String a p) (String b s) = Ascii.eqb a b && Str.starts_with p s.
Proof. reflexivity. Qed.

(** The first "+=" of [x ++ "+=" ++ v] is the one written, when [x] has
    no '='. *)
Lemma find_str_incr (x v : string) :
  Str.contains_char "=" x = false ->
  Str.find_str "+=" (x ++ "+=" ++ v) = Some (String.length x).
Proof.
  induction x as [|c x IH]; intros H; [reflexivity|].
  rewrite contains_char_cons in H. apply orb_false_elim in H as [Hc Hx].
  change (Str.find_str "+=" (String c x ++ "+=" ++ v))
    with (if Str.starts_with "+=" (String c (x ++ "+=" ++ v)) then Some 0
          else option_map S (Str.find_str "+=" (x ++ "+=" ++ v))).
  rewrite (IH Hx).
  replace (Str.starts_with "+=" (String c (x ++ "+=" ++ v))) with false;
    [reflexivity|].
  rewrite starts_with_cons.
  destruct (Ascii.eqb "+" c); [|reflexivity].
  destruct x as [|d x]; [reflexivity|].
  rewrite contains_char_cons in Hx. apply orb_false_elim in Hx as [Hd _].
  change (String d x ++ "+=" ++ v) with (String d (x ++ "+=" ++ v)).
  rewrite starts_with_cons, Ascii.eqb_sym, Hd. reflexivity.
Qed.

Lemma trim_right_id (s : string) :
  ends_in Str.isspace s = false -> Str.trim_right s = s.
Proof.
  unfold ends_in. induction s as [|c s IH]; [reflexivity|].
  destruct s as [|d s].
  - simpl. now intros ->.
  - intros H. change (Str.last (String c (String d s))) with (Str.last (String d s)) in H.
    specialize (IH H).
    change (Str.trim_right (String c (String d s)))
      with (if Str.empty (Str.trim_right (String d s)) && Str.isspace c
            then "" else String c (Str.trim_right (String d s))).
    now rewrite IH.
Qed.

Lemma trim_left_id (s : string) :
  Str.isspace (Str.front s) = false -> Str.trim_left s = s.
Proof. destruct s as [|c s]; simpl; [reflexivity | now intros ->]. Qed.

Lemma ends_in_weaken (p q : ascii -> bool) (s : string) :
  (forall c, q c = true -> p c = true) ->
  ends_in p s = false -> ends_in q s = false.
Proof.
  unfold ends_in. intros Hpq. destruct (Str.last s) as [c|]; [|reflexivity].
  intros Hp. destruct (q c) eqn:Hq; [|reflexivity].
  now rewrite (Hpq _ Hq) in Hp.
Qed.

Lemma name_ok_inv (x : string) :
  name_ok x = true ->
  Str.empty x = false
  /\ Str.contains_char "=" x = false
  /\ Str.trim x = x
  /\ ends_in (fun c => Ascii.eqb c "+") x = false.
Proof.
  unfold name_ok. rewrite !andb_true_iff, !negb_true_iff.
  intros [[[He Hc] Hf] Hl]. repeat split; try assumption.
  - unfold Str.trim. rewrite trim_right_id, trim_left_id; trivial.
    apply (ends_in_weaken _ _ _ (fun c H => orb_true_intro _ _ (or_introl H)) Hl).
  - apply (ends_in_weaken _ _ _ (fun c H => orb_true_intro _ _ (or_intror H)) Hl).
Qed.

(** ** The parser, case by case *)

Lemma find_str_dashes (s : string) :
  Str.find_str "+=" ("--" ++ s) = option_map S (option_map S (Str.find_str "+=" s)).
Proof. reflexivity. Qed.

Lemma find_char_dashes (s : string) :
  Str.find_char "=" ("--" ++ s) = option_map S (option_map S (Str.find_char "=" s)).
Proof. reflexivity. Qed.

Lemma split_arg_incr (x v : string) :
  Str.contains_char "=" x = false ->
  split_arg ("--" ++ x ++ "+=" ++ v) = Some (x, v, true).
Proof.
  intros Hx. unfold split_arg.
  change (Str.starts_with "--" ("--" ++ x ++ "+=" ++ v)) with true. cbv iota.
  rewrite find_str_dashes, (find_str_incr _ _ Hx). cbn [option_map].
  unfold Str.substr, Str.substr_from.
  replace (S (S (String.length x)) - 2) with (String.length x) by lia.
  change (Str.drop 2 ("--" ++ x ++ "+=" ++ v)) with (x ++ "+=" ++ v).
  rewrite take_append.
  change (Str.drop (S (S (String.length x)) + 2) ("--" ++ x ++ "+=" ++ v))
    with (Str.drop (String.length x + 2) (x ++ "+=" ++ v)).
  now rewrite drop_append.
Qed.

Lemma split_arg_assign (x v : string) :
  Str.contains_char "=" x = false ->
  Str.find_str "+=" (x ++ "=" ++ v) = None ->
  split_arg ("--" ++ x ++ "=" ++ v) = Some (x, v, false).
Proof.
  intros Hx Hnone. unfold split_arg.
  change (Str.starts_with "--" ("--" ++ x ++ "=" ++ v)) with true. cbv iota.
  rewrite find_str_dashes, Hnone. cbn [option_map].
  rewrite find_char_dashes.
  change (x ++ "=" ++ v) with (x ++ String "=" v).
  rewrite (find_char_append _ _ _ Hx). cbn [option_map].
  unfold Str.substr, Str.substr_from.
  replace (S (S (String.length x)) - 2) with (String.length x) by lia.
  change (Str.drop 2 ("--" ++ x ++ String "=" v)) with (x ++ String "=" v).
  rewrite take_append.
  change (Str.drop (S (S (String.length x)) + 1) ("--" ++ x ++ String "=" v))
    with (Str.drop (String.length x + 1) (x ++ String "=" v)).
  now rewrite drop_append.
Qed.

Lemma warned_log (lax : bool) (var : string) (st : ArgvMap) :
  exists l, warned lax var st = with_log l st.
Proof.
  unfold warned, warnIfDeprecated.
  destruct lax; [exists st.(g_log); now destruct st|].
  destruct (StdMap.find var deprecateList); simpl; eauto.
  exists st.(g_log); now destruct st.
Qed.

Lemma warned_lax (var : string) (st : ArgvMap) : warned true var st = st.
Proof. reflexivity. Qed.

Lemma bind_ok {A B} (c : M A) (k : A -> M B) (st st' : ArgvMap) (a : A) :
  c st = Ok a st' -> bind c k st = k a st'.
Proof. unfold bind. now intros ->. Qed.

Lemma bind_throw {A B} (c : M A) (k : A -> M B) (st st' : ArgvMap) (e : ArgException) :
  c st = Throw e st' -> bind c k st = Throw e st'.
Proof. unfold bind. now intros ->. Qed.

(** What [parseOne] does with an argument that names a declared parameter. *)
Lemma parseOne_declared (arg parseOnly var0 val0 cur : string) (incr lax : bool)
      (st : ArgvMap) :
  split_arg arg = Some (var0, val0, incr) ->
  Str.empty (Str.trim var0) = false ->
  Str.empty parseOnly || String.eqb (Str.trim var0) parseOnly = true ->
  StdMap.find (Str.trim var0) st.(d_params) = Some cur ->
  parseOne arg parseOnly lax st =
    let var := Str.trim var0 in
    let val := strip_leading val0 in
    let st1 := warned lax var st in
    if incr then
      if Str.empty cur then
        if StdSet.mem var st.(d_cleared)
        then Ok tt (with_params (StdMap.assign var val st.(d_params)) st1)
        else Throw (IncrementalWithoutParent var) st1
      else Ok tt (with_params (StdMap.assign var (cur ++ ", " ++ val) st.(d_params)) st1)
    else Ok tt (with_cleared (StdSet.insert var st.(d_cleared))
                  (with_params (StdMap.assign var val st.(d_params)) st1)).
Proof.
  intros Hsplit Hne Hfilter Hfind.
  unfold parseOne. rewrite Hsplit.
  rewrite (bind_ok _ _ _ _ _ (eq_refl : ret (var0, val0, incr) st = Ok _ st)).
  cbv beta iota zeta.
  rewrite Hne, Hfilter. cbn [negb andb].
  destruct (warned_log lax (Str.trim var0) st) as [l Hl].
  assert (Hw : (if negb lax then warnIfDeprecated (Str.trim var0) else ret tt) st
               = Ok tt (warned lax (Str.trim var0) st)).
  { unfold warned, warnIfDeprecated. destruct lax; [reflexivity|].
    now destruct (StdMap.find (Str.trim var0) deprecateList). }
  rewrite (bind_ok _ _ _ _ _ Hw). rewrite Hl.
  assert (Hset : parmIsset (Str.trim var0) (with_log l st) = Ok true (with_log l st)).
  { unfold parmIsset, gets, StdMap.mem.
    change (d_params (with_log l st)) with (d_params st). now rewrite Hfind. }
  rewrite (bind_ok _ _ _ _ _ Hset).
  assert (Hidx : params_index (Str.trim var0) (with_log l st) = Ok cur (with_log l st)).
  { apply params_index_present. exact Hfind. }
  destruct incr.
  - rewrite (bind_ok _ _ _ _ _ Hidx).
    destruct (Str.empty cur); [|reflexivity].
    unfold bind, gets. cbv beta iota.
    change (d_cleared (with_log l st)) with (d_cleared st).
    now destruct (StdSet.mem (Str.trim var0) (d_cleared st)).
  - reflexivity.
Qed.

Lemma warn_step (lax : bool) (var : string) (st : ArgvMap) :
  (if negb lax then warnIfDeprecated var else ret tt) st = Ok tt (warned lax var st).
Proof.
  unfold warned, warnIfDeprecated. destruct lax; [reflexivity|].
  now destruct (StdMap.find var deprecateList).
Qed.

(** The delimiters of the ignore list: space, comma, tab, newline, carriage return. *)
Lemma ignore_delimiters :
  list_ascii_of_string (" ," ++ Str.TAB ++ Str.NL ++ String Str.cr "")
  = [" "%char; ","%char; Str.tab; Str.nl; Str.cr].
Proof. reflexivity. Qed.

(** What [parseOne] does with an argument that names no declared parameter. *)
Lemma parseOne_undeclared (arg parseOnly var0 val0 ign : string) (incr lax : bool)
      (st : ArgvMap) :
  split_arg arg = Some (var0, val0, incr) ->
  Str.empty (Str.trim var0) = false ->
  Str.empty parseOnly || String.eqb (Str.trim var0) parseOnly = true ->
  StdMap.find (Str.trim var0) st.(d_params) = None ->
  StdMap.find "ignore-unknown-settings" st.(d_params) = Some ign ->
  parseOne arg parseOnly lax st =
    let var := Str.trim var0 in
    let val := strip_leading val0 in
    let st1 := warned lax var st in
    let msg := "Ignoring unknown setting '" ++ var ++ "' as requested" in
    if existsb (String.eqb var)
               (Ext.stringtok ign (" ," ++ Str.TAB ++ Str.NL ++ String Str.cr ""))
    then Ok tt (with_log (st1.(g_log) ++ [(Warning, msg)])%list
                  (with_unknownParams (StdMap.assign var val st.(d_unknownParams)) st1))
    else if lax then Ok tt st
         else Throw (UnknownSetting var) st1.
Proof.
  intros Hsplit Hne Hfilter Hfind Hign.
  unfold parseOne. rewrite Hsplit.
  rewrite (bind_ok _ _ _ _ _ (eq_refl : ret (var0, val0, incr) st = Ok _ st)).
  cbv beta iota zeta.
  rewrite Hne, Hfilter. cbn [negb andb].
  rewrite (bind_ok _ _ _ _ _ (warn_step lax (Str.trim var0) st)).
  destruct (warned_log lax (Str.trim var0) st) as [l Hl].
  assert (Hlax : lax = true -> warned lax (Str.trim var0) st = st)
    by (intros ->; reflexivity).
  rewrite Hl in *.
  assert (Hset : parmIsset (Str.trim var0) (with_log l st) = Ok false (with_log l st)).
  { unfold parmIsset, gets, StdMap.mem.
    change (d_params (with_log l st)) with (d_params st). now rewrite Hfind. }
  rewrite (bind_ok _ _ _ _ _ Hset). cbv iota.
  assert (Hidx : params_index "ignore-unknown-settings" (with_log l st)
                 = Ok ign (with_log l st)).
  { apply params_index_present. exact Hign. }
  rewrite (bind_ok _ _ _ _ _ Hidx). cbv beta zeta.
  destruct (existsb _ _); [reflexivity|].
  destruct lax; [|reflexivity].
  cbn [negb]. unfold ret. now rewrite <- (Hlax eq_refl).
Qed.

(** An argument whose name is empty, or is not the one asked for, only
    adds to the command list when it is a bare word. *)
Lemma parseOne_skip (arg parseOnly var0 val0 : string) (incr lax : bool) (st : ArgvMap) :
  split_arg arg = Some (var0, val0, incr) ->
  negb (Str.empty (Str.trim var0))
    && (Str.empty parseOnly || String.eqb (Str.trim var0) parseOnly) = false ->
  parseOne arg parseOnly lax st = Ok tt st.
Proof.
  intros Hsplit Hskip. unfold parseOne. rewrite Hsplit.
  rewrite (bind_ok _ _ _ _ _ (eq_refl : ret (var0, val0, incr) st = Ok _ st)).
  cbv beta iota zeta. now rewrite Hskip.
Qed.

Lemma parseOne_command (arg parseOnly : string) (lax : bool) (st : ArgvMap) :
  split_arg arg = None ->
  parseOne arg parseOnly lax st = Ok tt (with_cmds (st.(d_cmds) ++ [arg])%list st).
Proof.
  intros Hsplit. unfold parseOne. rewrite Hsplit. reflexivity.
Qed.

(** The empty logical line of a file. *)
Lemma parseOne_empty_line (parseOnly : string) (lax : bool) (st : ArgvMap) :
  parseOne "--" parseOnly lax st = Ok tt st.
Proof. now apply (parseOne_skip _ _ "" "" false). Qed.

Lemma existsb_eqb_In (x : string) (l : list string) :
  existsb (String.eqb x) l = true <-> In x l.
Proof.
  rewrite existsb_exists. split.
  - intros [y [Hy He]]. apply String.eqb_eq in He. now subst.
  - intros H. exists x. split; [exact H | apply String.eqb_refl].
Qed.

(** C5: an assignment to an undeclared name.  With the name among the
    tokens of ignore-unknown-settings (split on space, comma, tab, newline
    and carriage return) the pair goes to the unknown-parameter map and the
    call returns; otherwise the call throws UnknownSetting when not lax, and
    returns with the registry untouched when lax. *)
Theorem C5_unknown_setting
        (arg parseOnly var0 val0 ign : string) (incr lax : bool) (st : ArgvMap) :
  split_arg arg = Some (var0, val0, incr) ->
  Str.empty (Str.trim var0) = false ->
  Str.empty parseOnly || String.eqb (Str.trim var0) parseOnly = true ->
  StdMap.find (Str.trim var0) st.(d_params) = None ->
  StdMap.find "ignore-unknown-settings" st.(d_params) = Some ign ->
  let var := Str.trim var0 in
  let parts := Ext.stringtok_from [" "%char; ","%char; Str.tab; Str.nl; Str.cr] ign "" in
  (In var parts ->
   exists st',
     parseOne arg parseOnly lax st = Ok tt st'
     /\ StdMap.find var st'.(d_unknownParams) = Some (strip_leading val0)
     /\ (forall k, k <> var ->
                   StdMap.find k st'.(d_unknownParams) = StdMap.find k st.(d_unknownParams))
     /\ st'.(d_params) = st.(d_params))
  /\ (~ In var parts -> lax = false ->
      exists st',
        parseOne arg parseOnly lax st = Throw (UnknownSetting var) st'
        /\ st'.(d_params) = st.(d_params)
        /\ st'.(d_unknownParams) = st.(d_unknownParams))
  /\ (~ In var parts -> lax = true ->
      parseOne arg parseOnly lax st = Ok tt st).
Proof.
  intros Hsplit Hne Hfilter Hfind Hign var parts.
  pose proof (parseOne_undeclared _ _ _ _ _ _ lax _ Hsplit Hne Hfilter Hfind Hign) as H.
  cbv zeta in H. unfold Ext.stringtok in H. rewrite ignore_delimiters in H.
  fold var in H. fold parts in H.
  destruct (warned_log lax var st) as [l Hl]. rewrite Hl in H.
  split; [|split].
  - intros Hin. apply existsb_eqb_In in Hin. rewrite Hin in H.
    eexists. split; [exact H|]. cbn. split; [apply find_assign_same|].
    split; [|reflexivity].
    intros k Hk. apply find_assign_other. congruence.
  - intros Hnin ->. destruct (existsb (String.eqb var) parts) eqn:E.
    + now apply existsb_eqb_In in E.
    + eexists. split; [exact H|]. split; reflexivity.
  - intros Hnin ->. destruct (existsb (String.eqb var) parts) eqn:E.
    + now apply existsb_eqb_In in E.
    + exact H.
Qed.

Lemma C5_unknown_setting_witness :
  let st := with_params [("ignore-unknown-settings", "foo,bar")] demo_registry in
  (exists st', parseOne "--foo=1" "" false st = Ok tt st'
               /\ StdMap.find "foo" st'.(d_unknownParams) = Some "1")
  /\ (exists st', parseOne "--baz=1" "" false st = Throw (UnknownSetting "baz") st')
  /\ parseOne "--baz=1" "" true st = Ok tt st.
Proof.
  intros st.
  pose proof (C5_unknown_setting "--foo=1" "" "foo" "1" "foo,bar" false false st
                eq_refl eq_refl eq_refl eq_refl eq_refl) as Hfoo.
  pose proof (fun lax => C5_unknown_setting "--baz=1" "" "baz" "1" "foo,bar" false lax st
                eq_refl eq_refl eq_refl eq_refl eq_refl) as Hbaz.
  cbv zeta in Hfoo, Hbaz.
  assert (Hnin : ~ In "baz" (Ext.stringtok_from [" "%char; ","%char; Str.tab; Str.nl; Str.cr]
                               "foo,bar" "")).
  { simpl. intros [H|[H|[]]]; discriminate. }
  split; [|split].
  - destruct (proj1 Hfoo) as [st' [H1 [H2 _]]]; [simpl; auto|].
    exists st'. split; assumption.
  - destruct (proj1 (proj2 (Hbaz false)) Hnin eq_refl) as [st' [H1 _]].
    exists st'. exact H1.
  - exact (proj2 (proj2 (Hbaz true)) Hnin eq_refl).
Defined.

Lemma find_str_clear (x : string) :
  Str.contains_char "=" x = false ->
  ends_in (fun c => Ascii.eqb c "+") x = false ->
  Str.find_str "+=" (x ++ "=") = None.
Proof.
  induction x as [|c x IH]; intros Hc Hl; [reflexivity|].
  rewrite contains_char_cons in Hc. apply orb_false_elim in Hc as [Hc Hx].
  change (Str.find_str "+=" (String c x ++ "="))
    with (if Str.starts_with "+=" (String c (x ++ "=")) then Some 0
          else option_map S (Str.find_str "+=" (x ++ "="))).
  rewrite starts_with_cons.
  destruct x as [|d x].
  - unfold ends_in in Hl. simpl in Hl. rewrite Ascii.eqb_sym, Hl. reflexivity.
  - rewrite (IH Hx Hl).
    rewrite contains_char_cons in Hx. apply orb_false_elim in Hx as [Hd _].
    change (String d x ++ "=") with (String d (x ++ "=")).
    rewrite starts_with_cons, (Ascii.eqb_sym "="%char d), Hd.
    now rewrite andb_false_r.
Qed.

Lemma parse_unfold (prog : string) (args : list string) (lax : bool) (st : ArgvMap) :
  parse (prog :: args) lax st
  = for_each args (fun a => parseOne a "" lax)
             (with_cleared StdSet.empty (with_cmds [] st)).
Proof. reflexivity. Qed.

Lemma mem_insert_same (k : string) (s : StdSet.t) :
  StdSet.mem k (StdSet.insert k s) = true.
Proof.
  induction s as [|k' s IH]; simpl.
  - now rewrite String.eqb_refl.
  - destruct (String.compare k k') eqn:E; simpl.
    + apply String.compare_eq_iff in E. subst. now rewrite String.eqb_refl.
    + now rewrite String.eqb_refl.
    + now rewrite IH, orb_true_r.
Qed.

(** C4: the arguments are written "--x+=a" and "--x=", so x is a name
    that an argument spells (not empty, no '=', no white space at its ends,
    no final '+').  For such a declared name, whose value is empty and which
    has not been cleared, "--x+=a" fails at once with
    IncrementalWithoutParent and leaves the values alone; preceded by "--x="
    the two increments succeed and leave "a, b". *)
Theorem C4_incremental (x prog : string) (lax : bool) (st : ArgvMap) :
  name_ok x = true ->
  StdMap.find x st.(d_params) = Some "" ->
  (StdSet.mem x st.(d_cleared) = false ->
   exists st',
     parseOne ("--" ++ x ++ "+=" ++ "a") "" lax st = Throw (IncrementalWithoutParent x) st'
     /\ st'.(d_params) = st.(d_params))
  /\ (exists st',
        parse [prog; "--" ++ x ++ "+=" ++ "a"; "--" ++ x ++ "+=" ++ "b"] lax st
        = Throw (IncrementalWithoutParent x) st'
        /\ st'.(d_params) = st.(d_params))
  /\ (exists st',
        parse [prog; "--" ++ x ++ "=" ++ ""; "--" ++ x ++ "+=" ++ "a";
               "--" ++ x ++ "+=" ++ "b"] lax st = Ok tt st'
        /\ StdMap.find x st'.(d_params) = Some "a, b"
        /\ (forall k, k <> x -> StdMap.find k st'.(d_params) = StdMap.find k st.(d_params))).
Proof.
  intros Hok Hfind.
  destruct (name_ok_inv _ Hok) as (Hne & Hc & Htrim & Hplus).
  assert (Hincr : forall v st0 cur,
             StdMap.find x st0.(d_params) = Some cur ->
             parseOne ("--" ++ x ++ "+=" ++ v) "" lax st0 =
               if Str.empty cur then
                 if StdSet.mem x st0.(d_cleared)
                 then Ok tt (with_params (StdMap.assign x (strip_leading v) st0.(d_params))
                               (warned lax x st0))
                 else Throw (IncrementalWithoutParent x) (warned lax x st0)
               else Ok tt (with_params
                             (StdMap.assign x (cur ++ ", " ++ strip_leading v) st0.(d_params))
                             (warned lax x st0))).
  { intros v st0 cur Hcur.
    rewrite (parseOne_declared _ "" x v cur true lax st0 (split_arg_incr x v Hc));
      rewrite ?Htrim; auto. }
  assert (Hfirst : forall st0,
             StdMap.find x st0.(d_params) = Some "" ->
             StdSet.mem x st0.(d_cleared) = false ->
             exists st',
               parseOne ("--" ++ x ++ "+=" ++ "a") "" lax st0
               = Throw (IncrementalWithoutParent x) st'
               /\ st'.(d_params) = st0.(d_params)).
  { intros st0 Hcur Hcl. rewrite (Hincr _ _ _ Hcur), Hcl. cbn [Str.empty].
    destruct (warned_log lax x st0) as [l ->]. eexists; split; reflexivity. }
  split; [|split].
  - intros Hcl. now apply Hfirst.
  - rewrite parse_unfold. cbn [for_each].
    destruct (Hfirst (with_cleared StdSet.empty (with_cmds [] st)) Hfind eq_refl)
      as [st' [H1 H2]].
    exists st'. split; [|exact H2]. now rewrite (bind_throw _ _ _ _ _ H1).
  - rewrite parse_unfold. cbn [for_each].
    set (st0 := with_cleared StdSet.empty (with_cmds [] st)).
    assert (Hclear : Str.find_str "+=" (x ++ "=" ++ "") = None)
      by (apply find_str_clear; assumption).
    pose proof (parseOne_declared _ "" x "" "" false lax st0
                  (split_arg_assign x "" Hc Hclear)) as H1.
    rewrite Htrim in H1. specialize (H1 Hne eq_refl Hfind). cbv zeta in H1.
    destruct (warned_log lax x st0) as [l1 Hl1]. rewrite Hl1 in H1.
    rewrite (bind_ok _ _ _ _ _ H1). clear H1.
    match goal with |- context [bind _ _ ?s] => set (st1 := s) end.
    assert (Hf1 : StdMap.find x st1.(d_params) = Some "") by apply find_assign_same.
    pose proof (Hincr "a" st1 "" Hf1) as H2. cbn [Str.empty] in H2.
    replace (StdSet.mem x (d_cleared st1)) with true in H2
      by (symmetry; apply mem_insert_same).
    destruct (warned_log lax x st1) as [l2 Hl2]. rewrite Hl2 in H2.
    rewrite (bind_ok _ _ _ _ _ H2). clear H2.
    match goal with |- context [bind _ _ ?s] => set (st2 := s) end.
    assert (Hf2 : StdMap.find x st2.(d_params) = Some "a") by apply find_assign_same.
    pose proof (Hincr "b" st2 "a" Hf2) as H3. cbn [Str.empty] in H3.
    destruct (warned_log lax x st2) as [l3 Hl3]. rewrite Hl3 in H3.
    rewrite (bind_ok _ _ _ _ _ H3). clear H3.
    eexists. split; [reflexivity|]. split.
    + cbn. apply find_assign_same.
    + intros k Hk. cbn.
      rewrite !find_assign_other by congruence. reflexivity.
Qed.

Lemma C4_incremental_witness :
  exists st',
    parse ["pdns"; "--x="; "--x+=a"; "--x+=b"] false demo_registry = Ok tt st'
    /\ StdMap.find "x" st'.(d_params) = Some "a, b".
Proof.
  destruct (C4_incremental "x" "pdns" false demo_registry eq_refl eq_refl)
    as [_ [_ [st' [H1 [H2 _]]]]].
  exists st'. split; assumption.
Defined.

(** No argument spells the name "": in "--+=a" the name is empty, and
    [parseOne] passes over the argument, so nothing is incremented and
    nothing fails, also when "" has been declared with [set]. *)
Lemma empty_name_is_passed_over :
  let st := final (set "" demo_registry) in
  StdMap.find "" st.(d_params) = Some ""
  /\ StdSet.mem "" st.(d_cleared) = false
  /\ parse ["pdns"; "--" ++ "" ++ "+=a"; "--" ++ "" ++ "+=b"] false st = Ok tt st.
Proof. repeat split. Qed.

(** ** The configuration dump *)

Lemma formatOne_running_diff (var help theDefault current : string) :
  formatOne true false var help theDefault current
  = if String.eqb theDefault current then ""
    else var ++ "=" ++ current ++ Str.NL.
Proof.
  unfold formatOne. cbn [negb orb].
  now destruct (String.eqb theDefault current).
Qed.

Lemma formatOne_running_full (var help theDefault current : string) :
  formatOne true true var help theDefault current
  = (block_header var help
       ++ (if String.eqb theDefault current then "# " else ""))
      ++ (var ++ "=" ++ current ++ Str.NL) ++ Str.NL.
Proof.
  unfold formatOne. cbn [negb orb].
  unfold block_header.
  destruct (String.eqb theDefault current);
    rewrite ?append_nil_r, !append_assoc; reflexivity.
Qed.

(** C1, on a registry where only b differs from its default: with
    [full] the dump shows every setting, a block each, those at their
    default commented out; without [full] it is the diff, one line for b. *)
Theorem C1_configstring_full_and_diff :
  (StdMap.find "a" c1_registry.(d_params) = Some "1"
   /\ StdMap.find "a" c1_registry.(defaultmap) = Some "1"
   /\ StdMap.find "b" c1_registry.(d_params) = Some "5"
   /\ StdMap.find "b" c1_registry.(defaultmap) = Some "2")
  /\ configstring "T" true false c1_registry
     = Ok (banner_running "T" ++ "b=5" ++ Str.NL) c1_registry
  /\ configstring "T" true true c1_registry
     = Ok (banner_running "T"
             ++ block_header "ignore-unknown-settings"
                             "Configuration settings to ignore if they are unknown"
             ++ "# ignore-unknown-settings=" ++ Str.NL ++ Str.NL
             ++ block_header "a" "first example setting"
             ++ "# a=1" ++ Str.NL ++ Str.NL
             ++ block_header "b" "second example setting"
             ++ "b=5" ++ Str.NL ++ Str.NL
             ++ block_header "c" "third example setting"
             ++ "# c=" ++ Str.NL ++ Str.NL
             ++ block_header "x" "an example list"
             ++ "# x=" ++ Str.NL ++ Str.NL)
          c1_registry.
Proof. repeat split. Qed.

(** ** Pre-parsing *)

(** An argument that does not begin with "--" and the flag is passed over. *)
Lemma preParse_skips (prog arg : string) (args : list string) (st : ArgvMap) :
  Forall (fun a => Str.starts_with ("--" ++ arg) a = false) args ->
  preParse (prog :: args) arg st = Ok tt st.
Proof.
  unfold preParse. cbn [tl]. induction 1 as [|a args Ha _ IH]; [reflexivity|].
  cbn [for_each]. rewrite Ha. exact IH.
Qed.

(** C3, at a failing input: pre-parsing for "include-dir" assigns the
    declared setting "include-dirs", and throws when that name is not
    declared; the file variant, given the same line, leaves it alone. *)
Theorem C3_preParse_prefix_match :
  StdMap.find "include-dirs" c3_registry.(d_params) = Some ""
  /\ (exists st',
        preParse ["pdns"; "--include-dirs=x"] "include-dir" c3_registry = Ok tt st'
        /\ StdMap.find "include-dirs" st'.(d_params) = Some "x")
  /\ preParse ["pdns"; "--include-dirs=x"] "include-dir" demo_registry
     = Throw (UnknownSetting "include-dirs") demo_registry
  /\ (exists st',
        preParseFile c3_fs "pdns.conf" "include-dir" "" c3_registry = Ok true st'
        /\ StdMap.find "include-dirs" st'.(d_params) = Some ""
        /\ StdMap.find "include-dir" st'.(d_params) = Some "/etc/pdns.d").
Proof.
  split; [reflexivity|]. split; [|split].
  - eexists. split; reflexivity.
  - reflexivity.
  - eexists. split; [reflexivity|]. split; reflexivity.
Qed.

(** ** The file loader, line by line *)



(** A line ending in a backslash (after right-trimming) is held back,
    without the backslash, and glued in front of the next one. *)
Lemma parseFile_loop_continue (pline line arg : string) (plines : list string) (lax : bool) :
  ends_in (fun c => Ascii.eqb c Str.backslash) (Str.trim_right pline) = true ->
  parseFile_loop (pline :: plines) line arg lax
  = parseFile_loop plines (line ++ Str.remove_last (Str.trim_right pline)) arg lax.
Proof.
  intros H. cbn [parseFile_loop]. unfold ends_in in H. unfold option_eqb_backslash.
  destruct (Str.trim_right pline) as [|c s] eqn:E; [discriminate|].
  cbn [Str.empty negb andb]. destruct (Str.last (String c s)); [|discriminate].
  now rewrite H.
Qed.



Lemma strip_comment_none (line : string) :
  Str.contains_char "#" line = false -> strip_comment line = line.
Proof.
  intros H. unfold strip_comment. now rewrite (contains_char_false _ _ H).
Qed.




(** ** Sorting with the case-folding comparator *)

Lemma CI_asym (a b : string) :
  Ext.CIStringComparePOSIX a b = true -> Ext.CIStringComparePOSIX b a = false.
Proof.
  revert b. induction a as [|x a IH]; intros [|y b]; simpl; try congruence.
  destruct (Nat.ltb_spec (Ext.tolower y) (Ext.tolower x));
    destruct (Nat.ltb_spec (Ext.tolower x) (Ext.tolower y));
    try congruence; try lia.
  apply IH.
Qed.

Lemma ci_le_trans (a b c : string) : ci_le a b -> ci_le b c -> ci_le a c.
Proof.
  unfold ci_le. revert b c.
  induction a as [|x a IH]; intros [|y b] [|z c]; simpl; try congruence.
  destruct (Nat.ltb_spec (Ext.tolower x) (Ext.tolower y));
    destruct (Nat.ltb_spec (Ext.tolower y) (Ext.tolower x));
    destruct (Nat.ltb_spec (Ext.tolower y) (Ext.tolower z));
    destruct (Nat.ltb_spec (Ext.tolower z) (Ext.tolower y));
    destruct (Nat.ltb_spec (Ext.tolower x) (Ext.tolower z));
    destruct (Nat.ltb_spec (Ext.tolower z) (Ext.tolower x));
    try congruence; try lia.
  apply IH.
Qed.

Lemma CI_common_prefix (p a b : string) :
  Ext.CIStringComparePOSIX (p ++ a) (p ++ b) = Ext.CIStringComparePOSIX a b.
Proof.
  induction p as [|x p IH]; [reflexivity|].
  simpl. now rewrite Nat.ltb_irrefl.
Qed.

Lemma CI_irrefl (a : string) : Ext.CIStringComparePOSIX a a = false.
Proof.
  destruct (Ext.CIStringComparePOSIX a a) eqn:E; [|reflexivity].
  now rewrite (CI_asym _ _ E) in E.
Qed.

Section SortFacts.

Variable ties : string -> string -> bool.

Let before := Ext.goes_before Ext.CIStringComparePOSIX ties.

Lemma goes_before_le (x y : string) : before x y = true -> ci_le x y.
Proof.
  unfold before, Ext.goes_before, ci_le. intros H.
  apply orb_true_iff in H as [H|H]; [now apply CI_asym|].
  apply andb_true_iff in H as [H _]. now apply negb_true_iff in H.
Qed.

Lemma not_goes_before_le (x y : string) : before x y = false -> ci_le y x.
Proof.
  unfold before, Ext.goes_before, ci_le. intros H.
  now apply orb_false_elim in H as [H _].
Qed.

Lemma sort_insert_perm (x : string) (l : list string) :
  Permutation (Ext.sort_insert Ext.CIStringComparePOSIX ties x l) (x :: l).
Proof.
  induction l as [|y l IH]; simpl; [reflexivity|].
  destruct (Ext.goes_before Ext.CIStringComparePOSIX ties x y); [reflexivity|].
  rewrite IH. apply perm_swap.
Qed.

Lemma sort_perm (l : list string) :
  Permutation (Ext.sort Ext.CIStringComparePOSIX ties l) l.
Proof.
  induction l as [|x l IH]; simpl; [reflexivity|].
  rewrite sort_insert_perm. now constructor.
Qed.

Lemma sort_insert_sorted (x : string) (l : list string) :
  Sorted ci_le l -> Sorted ci_le (Ext.sort_insert Ext.CIStringComparePOSIX ties x l).
Proof.
  induction 1 as [|y l Hs IH Hhd]; simpl.
  - repeat constructor.
  - destruct (Ext.goes_before Ext.CIStringComparePOSIX ties x y) eqn:E.
    + constructor; [now constructor|]. constructor. now apply goes_before_le.
    + constructor; [exact IH|].
      destruct l as [|z l]; simpl.
      * constructor. now apply not_goes_before_le.
      * destruct (Ext.goes_before Ext.CIStringComparePOSIX ties x z); constructor;
          [now apply not_goes_before_le|].
        now inversion Hhd.
Qed.

Lemma sort_sorted (l : list string) :
  Sorted ci_le (Ext.sort Ext.CIStringComparePOSIX ties l).
Proof.
  induction l as [|x l IH]; simpl; [constructor | now apply sort_insert_sorted].
Qed.

Lemma sort_strongly_sorted (l : list string) :
  StronglySorted ci_le (Ext.sort Ext.CIStringComparePOSIX ties l).
Proof.
  apply Sorted_StronglySorted; [|apply sort_sorted].
  intros a b c. apply ci_le_trans.
Qed.

End SortFacts.

(** *** Every sorted permutation is an outcome of the sort *)

Lemma strongly_sorted_impl_in {A} (R R' : A -> A -> Prop) (l : list A) :
  (forall a b, In a l -> In b l -> R a b -> R' a b) ->
  StronglySorted R l -> StronglySorted R' l.
Proof.
  induction l as [|x l IH]; intros Himp Hs; [constructor|].
  apply StronglySorted_inv in Hs as [Hs Hall]. constructor.
  - apply IH; [|exact Hs]. intros a b Ha Hb. apply Himp; now right.
  - rewrite Forall_forall in *. intros b Hb.
    apply Himp; [now left | now right | now apply Hall].
Qed.

Lemma strongly_sorted_remove {A} (R : A -> A -> Prop) (a b : list A) (x : A) :
  StronglySorted R (a ++ x :: b) ->
  StronglySorted R (a ++ b) /\ Forall (fun z => R z x) a /\ Forall (R x) b.
Proof.
  induction a as [|y a IH]; cbn [app]; intros Hs.
  - apply StronglySorted_inv in Hs as [Hs Hall]. repeat split; trivial.
  - apply StronglySorted_inv in Hs as [Hs Hall].
    destruct (IH Hs) as (Hab & Ha & Hb).
    apply Forall_app in Hall as [Hya Hyxb].
    apply Forall_cons_iff in Hyxb as [Hyx Hyb].
    repeat split; trivial.
    + constructor; [exact Hab|]. apply Forall_app. now split.
    + now constructor.
Qed.

Lemma position_sorted (l : list string) :
  NoDup l -> StronglySorted (fun a b => position a l < position b l) l.
Proof.
  induction l as [|y l IH]; intros Hnd; [constructor|].
  apply NoDup_cons_iff in Hnd as [Hy Hnd]. constructor.
  - apply (strongly_sorted_impl_in (fun a b => position a l < position b l));
      [|now apply IH].
    intros a b Ha Hb Hlt. cbn [position].
    destruct (String.eqb_spec a y) as [->|_]; [contradiction|].
    destruct (String.eqb_spec b y) as [->|_]; [contradiction|]. lia.
  - apply Forall_forall. intros b Hb. cbn [position]. rewrite String.eqb_refl.
    destruct (String.eqb_spec b y) as [->|_]; [contradiction | lia].
Qed.

Lemma position_order {R : string -> string -> Prop} (l : list string) (x y : string) :
  StronglySorted R l -> In x l -> In y l -> position x l < position y l -> R x y.
Proof.
  induction l as [|z l IH]; intros Hs Hx Hy; [destruct Hx|].
  apply StronglySorted_inv in Hs as [Hs Hall]. cbn [position].
  destruct (String.eqb_spec x z) as [->|Hxz].
  - destruct (String.eqb_spec y z) as [->|Hyz]; [lia|]. intros _.
    destruct Hy as [Hy|Hy]; [congruence|].
    rewrite Forall_forall in Hall. now apply Hall.
  - destruct (String.eqb_spec y z) as [->|Hyz]; [lia|]. intros Hlt.
    destruct Hx as [Hx|Hx]; [congruence|]. destruct Hy as [Hy|Hy]; [congruence|].
    apply IH; trivial. lia.
Qed.

Lemma sort_insert_at (ties : string -> string -> bool) (x : string) (a b : list string) :
  Forall (fun z => Ext.goes_before Ext.CIStringComparePOSIX ties x z = false) a ->
  Forall (fun z => Ext.goes_before Ext.CIStringComparePOSIX ties x z = true) b ->
  Ext.sort_insert Ext.CIStringComparePOSIX ties x (a ++ b) = (a ++ x :: b)%list.
Proof.
  intros Ha Hb. induction a as [|z a IH]; cbn [app].
  - destruct b as [|y b]; [reflexivity|]. cbn [Ext.sort_insert].
    apply Forall_cons_iff in Hb as [Hy _]. now rewrite Hy.
  - apply Forall_cons_iff in Ha as [Hz Ha]. cbn [Ext.sort_insert].
    now rewrite Hz, (IH Ha).
Qed.

(** The model of [std::sort] leaves open what the standard leaves open:
    whichever sorted permutation of distinct paths a library returns, some
    choice of [ties] returns it. *)
Lemma sort_reaches_every_order (l sorted : list string) :
  NoDup l ->
  Permutation l sorted ->
  StronglySorted ci_le sorted ->
  exists ties, Ext.sort Ext.CIStringComparePOSIX ties l = sorted.
Proof.
  intros Hnd Hperm Hsorted.
  assert (Hnd' : NoDup sorted) by (now apply (Permutation_NoDup Hperm)).
  exists (position_ties sorted).
  pose proof (position_sorted _ Hnd') as Hpos.
  assert (Hlt : forall x y, In x sorted -> In y sorted ->
                  position x sorted < position y sorted ->
                  Ext.goes_before Ext.CIStringComparePOSIX (position_ties sorted) x y = true
                  /\ Ext.goes_before Ext.CIStringComparePOSIX (position_ties sorted) y x
                     = false).
  { intros x y Hx Hy Hxy.
    pose proof (position_order sorted x y Hsorted Hx Hy Hxy) as Hle. unfold ci_le in Hle.
    unfold Ext.goes_before, position_ties. rewrite Hle. cbn [negb andb].
    destruct (Nat.ltb_spec (position x sorted) (position y sorted)); [|lia].
    destruct (Nat.ltb_spec (position y sorted) (position x sorted)); [lia|].
    split; [apply orb_true_r | now rewrite andb_false_r]. }
  cut (forall target,
          StronglySorted (fun a b => position a sorted < position b sorted) target ->
          Permutation l target ->
          (forall x, In x target -> In x sorted) ->
          Ext.sort Ext.CIStringComparePOSIX (position_ties sorted) l = target).
  { intros Hgen. now apply Hgen. }
  clear Hsorted Hnd Hnd' Hpos Hperm.
  induction l as [|x l IH]; intros target Hpos Hperm Hin.
  - apply Permutation_nil in Hperm. now subst target.
  - assert (Hx : In x target) by (apply (Permutation_in _ Hperm); now left).
    apply in_split in Hx as [a [b ->]].
    apply Permutation_cons_app_inv in Hperm.
    destruct (strongly_sorted_remove _ _ _ _ Hpos) as (Hab & Ha & Hb).
    cbn [Ext.sort fold_right].
    change (fold_right (Ext.sort_insert Ext.CIStringComparePOSIX (position_ties sorted)) [] l)
      with (Ext.sort Ext.CIStringComparePOSIX (position_ties sorted) l).
    rewrite (IH (a ++ b)%list Hab Hperm).
    2:{ intros z Hz. apply Hin. apply in_app_or in Hz as [Hz|Hz];
          apply in_or_app; [now left | right; now right]. }
    assert (Hxin : In x sorted) by (apply Hin, in_or_app; right; now left).
    apply sort_insert_at.
    + rewrite Forall_forall in *. intros z Hz.
      apply (Hlt z x); [apply Hin, in_or_app; now left | exact Hxin | now apply Ha].
    + rewrite Forall_forall in *. intros z Hz.
      apply (Hlt x z); [exact Hxin | apply Hin, in_or_app; right; now right | now apply Hb].
Qed.

(** Two paths that differ only in case are equivalent for the comparator:
    the order in which the two files are parsed, and so the value that
    stays, is the library's. *)
Example sort_leaves_ties_open :
  Ext.sort Ext.CIStringComparePOSIX Ext.ties_keep ["d/A.conf"; "d/a.conf"]
  = ["d/A.conf"; "d/a.conf"]
  /\ Ext.sort Ext.CIStringComparePOSIX Ext.ties_swap ["d/A.conf"; "d/a.conf"]
     = ["d/a.conf"; "d/A.conf"]
  /\ StdMap.find "b" (final (file (c2_case_fs Ext.ties_keep) "pdns.conf" false
                                  demo_registry)).(d_params) = Some "lower"
  /\ StdMap.find "b" (final (file (c2_case_fs Ext.ties_swap) "pdns.conf" false
                                  demo_registry)).(d_params) = Some "upper".
Proof. vm_compute. repeat split. Qed.

(** ** Gathering the include files *)

Section Gather.

Variable fs : FileSystem.
Variables directory suffix : string.

Let body := fun (d_name : string) (vec : list string) =>
    if Ascii.eqb (Str.front d_name) "." then ret vec
    else if Str.ends_with d_name suffix then
      let name := directory ++ "/" ++ d_name in
      if negb (fs_isreg fs name) then
        let msg := name ++ " is not a regular file" in
        log Error msg ;;
        throw (DirectoryInaccessible msg)
      else ret (vec ++ [name])%list
    else ret vec.

(** Entries that begin with a dot have no part in the loop. *)
Lemma gather_fold_hide_dots (ents vec : list string) (st : ArgvMap) :
  for_fold ents vec body st
  = for_fold (filter (fun d => negb (Ascii.eqb (Str.front d) ".")) ents) vec body st.
Proof.
  revert vec st. induction ents as [|d ents IH]; intros vec st; [reflexivity|].
  cbn [filter for_fold].
  destruct (Ascii.eqb (Str.front d) ".") eqn:E; cbn [negb].
  - unfold body at 1. rewrite E.
    rewrite (bind_ok _ _ _ _ _ (eq_refl : ret vec st = Ok vec st)). apply IH.
  - cbn [for_fold]. unfold bind.
    destruct (body d vec st) as [vec' st'|e st']; [apply IH | reflexivity].
Qed.

(** A successful loop has added exactly the kept entries, in the order
    read, and has not touched the registry. *)
Lemma gather_fold_ok (ents vec vec' : list string) (st st' : ArgvMap) :
  for_fold ents vec body st = Ok vec' st' ->
  vec' = (vec ++ included_names directory suffix ents)%list /\ st' = st.
Proof.
  unfold included_names, conf_entry.
  revert vec st. induction ents as [|d ents IH]; intros vec st.
  - cbn. intros H. injection H as <- <-. now rewrite app_nil_r.
  - cbn [for_fold filter]. unfold body at 1.
    destruct (Ascii.eqb (Str.front d) "."); cbn [negb andb].
    + rewrite (bind_ok _ _ _ _ _ (eq_refl : ret vec st = Ok vec st)). apply IH.
    + destruct (Str.ends_with d suffix).
      * destruct (fs_isreg fs (directory ++ "/" ++ d)); cbn [negb].
        -- rewrite (bind_ok _ _ _ _ _ (eq_refl : ret _ st = Ok _ st)).
           intros H. apply IH in H as [-> ->]. split; [|reflexivity].
           cbn [map]. now rewrite <- app_assoc.
        -- discriminate.
      * rewrite (bind_ok _ _ _ _ _ (eq_refl : ret vec st = Ok vec st)). apply IH.
Qed.

(** When every kept entry is a regular file the loop succeeds. *)
Lemma gather_fold_regular (ents vec : list string) (st : ArgvMap) :
  (forall d, In d ents -> conf_entry suffix d = true ->
             fs_isreg fs (directory ++ "/" ++ d) = true) ->
  for_fold ents vec body st
  = Ok (vec ++ included_names directory suffix ents)%list st.
Proof.
  unfold included_names, conf_entry.
  revert vec. induction ents as [|d ents IH]; intros vec Hreg.
  - cbn. now rewrite app_nil_r.
  - cbn [for_fold filter]. unfold body at 1.
    assert (Hreg' : forall d0, In d0 ents ->
               negb (Ascii.eqb (Str.front d0) ".") && Str.ends_with d0 suffix = true ->
               fs_isreg fs (directory ++ "/" ++ d0) = true)
      by (intros d0 Hin; apply Hreg; now right).
    specialize (Hreg d (or_introl eq_refl)).
    destruct (Ascii.eqb (Str.front d) "."); cbn [negb andb] in *.
    + rewrite (bind_ok _ _ _ _ _ (eq_refl : ret vec st = Ok vec st)). now apply IH.
    + destruct (Str.ends_with d suffix).
      * rewrite (Hreg eq_refl). cbn [negb].
        rewrite (bind_ok _ _ _ _ _ (eq_refl : ret _ st = Ok _ st)).
        rewrite (IH _ Hreg'). cbn [map]. now rewrite <- app_assoc.
      * rewrite (bind_ok _ _ _ _ _ (eq_refl : ret vec st = Ok vec st)). now apply IH.
Qed.

(** A kept entry that is not a regular file is fatal. *)
Lemma gather_fold_not_regular (ents vec : list string) (st : ArgvMap) (d : string) :
  In d ents -> conf_entry suffix d = true ->
  fs_isreg fs (directory ++ "/" ++ d) = false ->
  exists name st',
    for_fold ents vec body st
    = Throw (DirectoryInaccessible (name ++ " is not a regular file")) st'.
Proof.
  unfold conf_entry. intros Hin Hkeep Hreg. revert vec.
  induction ents as [|d0 ents IH]; intros vec; [destruct Hin|].
  cbn [for_fold]. unfold body at 1.
  destruct (Ascii.eqb (Str.front d0) ".") eqn:Edot.
  - rewrite (bind_ok _ _ _ _ _ (eq_refl : ret vec st = Ok vec st)).
    destruct Hin as [->|Hin]; [|now apply IH].
    now rewrite Edot in Hkeep.
  - destruct (Str.ends_with d0 suffix) eqn:Esuf.
    + destruct (fs_isreg fs (directory ++ "/" ++ d0)) eqn:Er; cbn [negb].
      * rewrite (bind_ok _ _ _ _ _ (eq_refl : ret _ st = Ok _ st)).
        destruct Hin as [->|Hin]; [congruence | now apply IH].
      * eexists _, _. reflexivity.
    + rewrite (bind_ok _ _ _ _ _ (eq_refl : ret vec st = Ok vec st)).
      destruct Hin as [->|Hin]; [|now apply IH].
      rewrite Edot, Esuf in Hkeep. discriminate.
Qed.

End Gather.

Lemma bind_run_eq {A B} (c c' : M A) (k : A -> M B) (st : ArgvMap) :
  c st = c' st -> bind c k st = bind c' k st.
Proof. unfold bind. now intros ->. Qed.

Lemma append_inj_l (a b c : string) : a ++ b = a ++ c -> b = c.
Proof.
  induction a as [|x a IH]; cbn [append]; [trivial|].
  intros H. injection H as H. now apply IH.
Qed.

Lemma gatherIncludes_hide_dots (fs : FileSystem) (directory suffix : string)
      (extraConfigs : list string) (st : ArgvMap) :
  gatherIncludes fs directory suffix extraConfigs st
  = gatherIncludes (hide_dot_entries fs) directory suffix extraConfigs st.
Proof.
  unfold gatherIncludes, gatherIncludes_loop, hide_dot_entries.
  cbn [fs_readdir fs_isreg].
  destruct (Str.empty directory); [reflexivity|].
  destruct (fs_readdir fs directory) as [err|ents]; [reflexivity|].
  apply bind_run_eq, gather_fold_hide_dots.
Qed.

(** C10: an entry whose name begins with '.' is never gathered and never
    checked.  The call behaves, result, exception and log alike, as if the
    dot entries were not in the directory; every name gathered comes from an
    entry that does not begin with a dot, so the path of a dot entry is
    never among them; and among the other entries one that ends in the
    suffix and is not a regular file makes the call throw. *)
Theorem C10_gatherIncludes_skips_dot_entries
        (fs : FileSystem) (directory suffix : string)
        (extraConfigs : list string) (st : ArgvMap) :
  gatherIncludes fs directory suffix extraConfigs st
  = gatherIncludes (hide_dot_entries fs) directory suffix extraConfigs st
  /\ (forall ents vec st',
        fs_readdir fs directory = inr ents ->
        gatherIncludes fs directory suffix extraConfigs st = Ok vec st' ->
        forall name, In name vec ->
          In name extraConfigs
          \/ exists d_name, In d_name ents
                            /\ Ascii.eqb (Str.front d_name) "." = false
                            /\ name = directory ++ "/" ++ d_name)
  /\ (forall vec st' d_name,
        gatherIncludes fs directory suffix [] st = Ok vec st' ->
        Ascii.eqb (Str.front d_name) "." = true ->
        ~ In (directory ++ "/" ++ d_name) vec)
  /\ (forall ents d_name,
        Str.empty directory = false ->
        fs_readdir fs directory = inr ents ->
        In d_name ents ->
        Ascii.eqb (Str.front d_name) "." = false ->
        Str.ends_with d_name suffix = true ->
        fs_isreg fs (directory ++ "/" ++ d_name) = false ->
        exists msg st',
          gatherIncludes fs directory suffix extraConfigs st
          = Throw (DirectoryInaccessible msg) st').
Proof.
  split; [apply gatherIncludes_hide_dots|]. split; [|split].
  2:{ intros vec st' d Hg Hdot Hin. unfold gatherIncludes in Hg.
      destruct (Str.empty directory); [injection Hg as <- _; destruct Hin|].
      destruct (fs_readdir fs directory) as [err|ents]; [discriminate|].
      unfold gatherIncludes_loop, bind in Hg.
      destruct (for_fold ents [] _ st) as [v s|e s] eqn:E; [|discriminate].
      apply gather_fold_ok in E as [-> ->]. cbn [app] in Hg. injection Hg as <- _.
      apply (Permutation_in _ (sort_perm _ _)) in Hin.
      unfold included_names in Hin. apply in_map_iff in Hin as [d0 [Heq Hd0]].
      apply append_inj_l in Heq. injection Heq as ->.
      apply filter_In in Hd0 as [_ Hkeep]. unfold conf_entry in Hkeep.
      now rewrite Hdot in Hkeep. }
  - intros ents vec st' Hdir. unfold gatherIncludes.
    destruct (Str.empty directory).
    { intros H. injection H as <- <-. now left. }
    rewrite Hdir. unfold gatherIncludes_loop, bind.
    destruct (for_fold ents [] _ st) as [v s|e s] eqn:E; [|discriminate].
    apply gather_fold_ok in E as [-> ->]. cbn [app].
    intros H. injection H as <- <-. intros name Hin.
    apply in_app_or in Hin as [Hin|Hin]; [now left | right].
    apply (Permutation_in _ (sort_perm _ _)) in Hin.
    unfold included_names in Hin. apply in_map_iff in Hin as [d [<- Hd]].
    apply filter_In in Hd as [Hd Hkeep]. unfold conf_entry in Hkeep.
    apply andb_true_iff in Hkeep as [Hdot _]. apply negb_true_iff in Hdot.
    exists d. auto.
  - intros ents d Hne Hdir Hin Hdot Hsuf Hreg. unfold gatherIncludes.
    rewrite Hne, Hdir. unfold gatherIncludes_loop.
    destruct (gather_fold_not_regular fs directory suffix ents [] st d Hin) as [name [st' H]];
      [unfold conf_entry; now rewrite Hdot, Hsuf | exact Hreg |].
    exists (name ++ " is not a regular file"), st'.
    now rewrite (bind_throw _ _ _ _ _ H).
Qed.

Lemma C10_gatherIncludes_skips_dot_entries_witness :
  gatherIncludes c10_fs "/etc/pdns.d" ".conf" [] demo_registry
  = Ok ["/etc/pdns.d/a.conf"; "/etc/pdns.d/b.conf"] demo_registry
  /\ exists msg st',
       gatherIncludes c10_fs_subdir "/etc/pdns.d" ".conf" [] demo_registry
       = Throw (DirectoryInaccessible msg) st'.
Proof.
  split; [reflexivity|].
  exact (proj2 (proj2 (proj2 (C10_gatherIncludes_skips_dot_entries
                                c10_fs_subdir "/etc/pdns.d" ".conf" [] demo_registry)))
               ["b.conf"; "old.conf"; "a.conf"] "old.conf"
               eq_refl eq_refl (or_intror (or_introl eq_refl)) eq_refl eq_refl eq_refl).
Defined.

Lemma gatherIncludes_regular (fs : FileSystem) (directory suffix : string)
      (ents extraConfigs : list string) (st : ArgvMap) :
  Str.empty directory = false ->
  fs_readdir fs directory = inr ents ->
  (forall d, In d ents -> conf_entry suffix d = true ->
             fs_isreg fs (directory ++ "/" ++ d) = true) ->
  gatherIncludes fs directory suffix extraConfigs st
  = Ok (extraConfigs
          ++ Ext.sort Ext.CIStringComparePOSIX (sort_ties fs)
               (included_names directory suffix ents))%list st.
Proof.
  intros Hne Hdir Hreg. unfold gatherIncludes, gatherIncludes_loop.
  rewrite Hne, Hdir.
  now rewrite (bind_ok _ _ _ _ _ (gather_fold_regular fs directory suffix ents [] st Hreg)).
Qed.

Lemma bind_Ok_inv {A B} (c : M A) (k : A -> M B) (st st2 : ArgvMap) (b : B) :
  bind c k st = Ok b st2 -> exists a st1, c st = Ok a st1 /\ k a st1 = Ok b st2.
Proof.
  unfold bind. destruct (c st) as [a st1|e st1]; [eauto | discriminate].
Qed.

(** With [included] set, [file] is [file_included]: the inner call is
    never reached. *)
Lemma file3_included (fs : FileSystem) (fname : string) (lax : bool) (st : ArgvMap) :
  file3 fs fname lax true st = file_included fs fname lax st.
Proof. reflexivity. Qed.

(** C2, as the code has it.  [file_included] is what [file] does before
    it turns to the include directory.  Once the top-level file is read and
    include-dir names an accessible directory in which every entry that does
    not begin with a dot and ends (case-sensitively) in ".conf" is a regular
    file, [file] goes on to parse exactly those entries, as
    directory/name, in an order that the case-folding comparator accepts:
    the list is a permutation of them in which no path comes after one it
    is less than, so 10-a.conf comes before 2-b.conf.  Between paths that
    differ only in case the order is the one the library's [std::sort]
    leaves, whichever it is ([sort_ties], any function). *)
Theorem C2_include_dir (fs : FileSystem) (fname dir : string) (lax : bool)
        (st st1 : ArgvMap) (ents : list string) :
  file_included fs fname lax st = Ok true st1 ->
  StdMap.find "include-dir" st1.(d_params) = Some dir ->
  Str.empty dir = false ->
  fs_readdir fs dir = inr ents ->
  (forall d, In d ents -> conf_entry ".conf" d = true ->
             fs_isreg fs (dir ++ "/" ++ d) = true) ->
  let extraConfigs :=
    Ext.sort Ext.CIStringComparePOSIX (sort_ties fs) (included_names dir ".conf" ents) in
  gatherIncludes fs dir ".conf" [] st1 = Ok extraConfigs st1
  /\ file fs fname lax st = (for_each extraConfigs (parse_included fs lax) ;; ret true) st1
  /\ Permutation extraConfigs (included_names dir ".conf" ents)
  /\ StronglySorted ci_le extraConfigs
  /\ Ext.sort Ext.CIStringComparePOSIX (sort_ties fs)
       (included_names dir ".conf" ["2-b.conf"; "10-a.conf"])
     = [dir ++ "/10-a.conf"; dir ++ "/2-b.conf"].
Proof.
  intros Hinc Hfind Hne Hdir Hreg extraConfigs.
  assert (Hg : gatherIncludes fs dir ".conf" [] st1 = Ok extraConfigs st1)
    by (exact (gatherIncludes_regular fs dir ".conf" ents [] st1 Hne Hdir Hreg)).
  split; [exact Hg|].
  split; [|split; [apply sort_perm | split; [apply sort_strongly_sorted|]]].
  - unfold file_included, file_with in Hinc.
    apply bind_Ok_inv in Hinc as (isset & s1 & H1 & Hinc).
    apply bind_Ok_inv in Hinc as (u & s2 & H2 & Hinc).
    apply bind_Ok_inv in Hinc as (ok & s3 & H3 & Hinc).
    unfold file, file3, file_with.
    rewrite (bind_ok _ _ _ _ _ H1), (bind_ok _ _ _ _ _ H2), (bind_ok _ _ _ _ _ H3).
    destruct ok; cbn [negb andb] in *; [|discriminate].
    injection Hinc as ->.
    rewrite (bind_ok _ _ _ _ _ (params_index_present _ _ _ Hfind)).
    rewrite Hne. cbn [negb].
    rewrite (bind_ok _ _ _ _ _ (params_index_present _ _ _ Hfind)).
    rewrite (bind_ok _ _ _ _ _ Hg). reflexivity.
  - change (included_names dir ".conf" ["2-b.conf"; "10-a.conf"])
      with [dir ++ "/" ++ "2-b.conf"; dir ++ "/" ++ "10-a.conf"].
    cbn [Ext.sort fold_right Ext.sort_insert]. unfold Ext.goes_before.
    rewrite !CI_common_prefix.
    change (Ext.CIStringComparePOSIX ("/" ++ "2-b.conf") ("/" ++ "10-a.conf")) with false.
    change (Ext.CIStringComparePOSIX ("/" ++ "10-a.conf") ("/" ++ "2-b.conf")) with true.
    reflexivity.
Qed.

Lemma C2_include_dir_witness :
  file c2_fs "pdns.conf" false demo_registry
  = (for_each ["/etc/pdns.d/10-a.conf"; "/etc/pdns.d/2-b.conf"] (parse_included c2_fs false) ;;
     ret true)
      (final (file_included c2_fs "pdns.conf" false demo_registry)).
Proof.
  refine (proj1 (proj2 (C2_include_dir c2_fs "pdns.conf" "/etc/pdns.d" false demo_registry
                  (final (file_included c2_fs "pdns.conf" false demo_registry))
                  ["A.CONF"; "2-b.conf"; "10-a.conf"] _ _ _ _ _))).
  - vm_compute. reflexivity.
  - vm_compute. reflexivity.
  - reflexivity.
  - reflexivity.
  - intros d _ _. reflexivity.
Defined.

(** C2 as stated fails on a regular file "A.CONF": the suffix test is
    case-sensitive, so the file is neither gathered nor parsed (a keeps its
    value), although it ends in ".conf" when case is ignored. *)
Lemma C2_counterexample :
  spec_included_names c2_fs "/etc/pdns.d" ["A.CONF"; "2-b.conf"; "10-a.conf"]
  = ["/etc/pdns.d/A.CONF"; "/etc/pdns.d/2-b.conf"; "/etc/pdns.d/10-a.conf"]
  /\ gatherIncludes c2_fs "/etc/pdns.d" ".conf" [] demo_registry
     = Ok ["/etc/pdns.d/10-a.conf"; "/etc/pdns.d/2-b.conf"] demo_registry
  /\ StdMap.find "a" (final (file c2_fs "pdns.conf" false demo_registry)).(d_params)
     = Some "1"
  /\ StdMap.find "b" (final (file c2_fs "pdns.conf" false demo_registry)).(d_params)
     = Some "two"
  /\ StdMap.find "c" (final (file c2_fs "pdns.conf" false demo_registry)).(d_params)
     = Some "ten".
Proof. vm_compute. repeat split. Qed.

(** ** The round trip: what the dump writes *)

Lemma render_lines_app (a b : list (string * string)) :
  render_lines (a ++ b) = render_lines a ++ render_lines b.
Proof.
  induction a as [|kv a IH]; [reflexivity|].
  cbn [app render_lines]. now rewrite IH, !append_assoc.
Qed.

Lemma formatOne_changed (var help theDefault current : string) :
  formatOne true false var help theDefault current
  = render_lines (changed_line var theDefault current).
Proof.
  rewrite formatOne_running_diff. unfold changed_line.
  destruct (String.eqb theDefault current); [reflexivity|].
  cbn [render_lines fst snd]. now rewrite append_nil_r.
Qed.

Lemma value_or_empty_find (k v : string) (m : StdMap.t) :
  StdMap.find k m = Some v -> value_or_empty k m = v.
Proof. unfold value_or_empty. now intros ->. Qed.

Lemma helpmap_index_present (k v : string) (st : ArgvMap) :
  StdMap.find k st.(helpmap) = Some v -> helpmap_index k st = Ok v st.
Proof.
  intros H. unfold helpmap_index. rewrite (index_present _ _ _ H). now destruct st.
Qed.

Lemma defaultmap_index_present (k v : string) (st : ArgvMap) :
  StdMap.find k st.(defaultmap) = Some v -> defaultmap_index k st = Ok v st.
Proof.
  intros H. unfold defaultmap_index. rewrite (index_present _ _ _ H). now destruct st.
Qed.

Lemma typeMap_index_present (k v : string) (st : ArgvMap) :
  StdMap.find k st.(d_typeMap) = Some v -> typeMap_index k st = Ok v st.
Proof.
  intros H. unfold typeMap_index. rewrite (index_present _ _ _ H). now destruct st.
Qed.

Section Dump.

Variable st : ArgvMap.

Let item_lines := fun helpitem : string * string =>
  if String.eqb (value_or_empty (fst helpitem) st.(d_typeMap)) "Command" then []
  else if String.eqb (fst helpitem) "ignore-unknown-settings" then []
  else changed_line (fst helpitem)
                    (value_or_empty (fst helpitem) st.(defaultmap))
                    (value_or_empty (fst helpitem) st.(d_params)).

(** The loop over the help map, on settings that have a value, a type
    and, unless they are commands, a default. *)
Lemma dump_declared_loop (items : list (string * string)) (help : string) :
  forallb (fun helpitem : string * string =>
             StdMap.mem (fst helpitem) st.(d_params)
             && StdMap.mem (fst helpitem) st.(d_typeMap)) items = true ->
  forallb (fun helpitem : string * string =>
             String.eqb (value_or_empty (fst helpitem) st.(d_typeMap)) "Command"
             || StdMap.mem (fst helpitem) st.(defaultmap)) items = true ->
  for_fold items help (fun helpitem help =>
    type <- typeMap_index (fst helpitem) ;;
    if String.eqb type "Command" then ret help
    else if String.eqb (fst helpitem) "ignore-unknown-settings" then ret help
    else
      hasdef <- gets (fun st => StdMap.mem (fst helpitem) st.(defaultmap)) ;;
      if negb hasdef then throw (MissingDefault (fst helpitem))
      else
        d <- defaultmap_index (fst helpitem) ;;
        c <- params_index (fst helpitem) ;;
        ret (help ++ formatOne true false (fst helpitem) (snd helpitem) d c)) st
  = Ok (help ++ render_lines (flat_map item_lines items)) st.
Proof.
  revert help. induction items as [|[k h] items IH]; intros help Hwf Hdef.
  - cbn. now rewrite append_nil_r.
  - cbn [forallb fst snd] in Hwf, Hdef.
    apply andb_true_iff in Hwf as [Hk Hwf]. apply andb_true_iff in Hk as [Hp Ht].
    apply andb_true_iff in Hdef as [Hd Hdef].
    apply mem_find in Hp as [c Hp]. apply mem_find in Ht as [ty Ht].
    cbn [for_fold flat_map].
    match goal with |- bind ?c _ st = _ =>
      assert (Hbody : c st = Ok (help ++ render_lines (item_lines (k, h))) st)
    end.
    { unfold item_lines. cbn [fst snd].
      rewrite (value_or_empty_find _ _ _ Ht) in Hd |- *.
      rewrite (bind_ok _ _ _ _ _ (typeMap_index_present _ _ _ Ht)).
      destruct (String.eqb ty "Command"); [cbn; now rewrite append_nil_r|].
      destruct (String.eqb k "ignore-unknown-settings");
        [cbn; now rewrite append_nil_r|].
      cbn [orb] in Hd. unfold bind at 1, gets. rewrite Hd. cbn [negb].
      apply mem_find in Hd as [d Hd].
      rewrite (bind_ok _ _ _ _ _ (defaultmap_index_present _ _ _ Hd)).
      rewrite (bind_ok _ _ _ _ _ (params_index_present _ _ _ Hp)).
      rewrite (value_or_empty_find _ _ _ Hd), (value_or_empty_find _ _ _ Hp).
      now rewrite formatOne_changed. }
    rewrite (bind_ok _ _ _ _ _ Hbody), (IH _ Hwf Hdef).
    now rewrite render_lines_app, append_assoc.
Qed.

(** The loop over the unknown settings. *)
Lemma dump_unknown_loop (unknowns : list (string * string)) (help : string) :
  for_fold unknowns help (fun unknown help =>
    ret (help ++ formatOne true false (fst unknown) "unknown setting" "" (snd unknown))) st
  = Ok (help ++ render_lines
                  (flat_map (fun unknown : string * string =>
                               changed_line (fst unknown) "" (snd unknown)) unknowns)) st.
Proof.
  revert help. induction unknowns as [|u unknowns IH]; intros help.
  - cbn. now rewrite append_nil_r.
  - cbn [for_fold flat_map].
    rewrite (bind_ok _ _ _ _ _ (eq_refl : ret _ st = Ok _ st)), IH.
    now rewrite formatOne_changed, render_lines_app, append_assoc.
Qed.

(** [configstring(true, false)] writes the banner and the lines of
    [dump_lines], and leaves a well-formed registry as it is. *)
Lemma configstring_diff (nowTime : string) :
  registry_wf st = true ->
  defaults_set st = true ->
  configstring nowTime true false st
  = Ok (banner_running nowTime ++ render_lines (dump_lines st)) st.
Proof.
  unfold registry_wf, defaults_set. rewrite !andb_true_iff.
  intros [Hh Hwf] [Hd Hdef].
  assert (Hp : StdMap.mem "ignore-unknown-settings" st.(d_params) = true).
  { apply mem_find in Hh as [h Hh]. clear -Hh Hwf.
    induction (helpmap st) as [|[k v] m IH]; [discriminate|].
    cbn [forallb fst] in Hwf. apply andb_true_iff in Hwf as [Hk Hwf].
    cbn [StdMap.find] in Hh.
    destruct (String.eqb_spec "ignore-unknown-settings" k) as [<-|_].
    - now apply andb_true_iff in Hk as [Hk _].
    - now apply IH. }
  apply mem_find in Hh as [h Hh]. apply mem_find in Hd as [d Hd].
  apply mem_find in Hp as [c Hp].
  unfold configstring.
  rewrite (bind_ok _ _ _ _ _ (helpmap_index_present _ _ _ Hh)).
  rewrite (bind_ok _ _ _ _ _ (defaultmap_index_present _ _ _ Hd)).
  rewrite (bind_ok _ _ _ _ _ (params_index_present _ _ _ Hp)).
  rewrite (bind_ok _ _ _ _ _ (eq_refl : gets helpmap st = Ok _ st)).
  rewrite (bind_ok _ _ _ _ _ (dump_declared_loop _ _ Hwf Hdef)).
  rewrite (bind_ok _ _ _ _ _ (eq_refl : gets d_unknownParams st = Ok _ st)).
  rewrite dump_unknown_loop. unfold dump_lines.
  rewrite (value_or_empty_find _ _ _ Hd), (value_or_empty_find _ _ _ Hp).
  rewrite formatOne_changed, !render_lines_app.
  unfold banner_running, item_lines. now rewrite !append_assoc.
Qed.

End Dump.

(** ** The round trip: reading the lines back *)

Lemma getlines_line (l rest : string) :
  Str.contains_char Str.nl l = false ->
  Str.getlines (l ++ Str.NL ++ rest) = l :: Str.getlines rest.
Proof.
  induction l as [|c l IH]; intros H.
  - cbn. reflexivity.
  - rewrite contains_char_cons in H. apply orb_false_elim in H as [Hc Hl].
    change (Str.getlines (String c l ++ Str.NL ++ rest))
      with (if Ascii.eqb c Str.nl then EmptyString :: Str.getlines (l ++ Str.NL ++ rest)
            else match Str.getlines (l ++ Str.NL ++ rest) with
                 | [] => [String c EmptyString]
                 | x :: xs => String c x :: xs
                 end).
    now rewrite Hc, (IH Hl).
Qed.

Lemma last_append_char (a : string) (c : ascii) :
  Str.last (a ++ String c "") = Some c.
Proof.
  induction a as [|d a IH]; [reflexivity|].
  change (String d a ++ String c "") with (String d (a ++ String c "")).
  destruct (a ++ String c "") eqn:E; [now destruct a | exact IH].
Qed.

Lemma hash_ok_strip (p : bool) (s : string) :
  hash_ok p s = true ->
  match Str.find_char "#" s with
  | None => True
  | Some 0 => p = false
  | Some (S n) => Str.isspace (Str.front (Str.drop n s)) = false
  end.
Proof.
  revert p. induction s as [|c s IH]; intros p H; [exact I|].
  cbn [hash_ok] in H. cbn [Str.find_char].
  destruct (Ascii.eqb c "#") eqn:E.
  - now apply negb_true_iff in H.
  - specialize (IH _ H). destruct (Str.find_char "#" s) as [[|n]|]; cbn [option_map].
    + exact IH.
    + exact IH.
    + exact I.
Qed.

Lemma strip_comment_safe (line : string) :
  hash_ok true line = true -> strip_comment line = line.
Proof.
  intros H. apply hash_ok_strip in H. unfold strip_comment.
  destruct (Str.find_char "#" line) as [[|n]|]; [discriminate| |reflexivity].
  cbn [Nat.eqb orb]. replace (S n - 1) with n by lia. now rewrite H.
Qed.

Lemma strip_leading_spaces_id (line : string) :
  Str.isspace (Str.front line) = false -> strip_leading_spaces line = line.
Proof.
  destruct line as [|c line]; [reflexivity|]. cbn [Str.front]. intros H.
  unfold strip_leading_spaces. cbn [Str.find_first_not_of].
  replace (existsb (Ascii.eqb c) [" "%char; Str.tab; Str.cr; Str.nl]) with false;
    [reflexivity|].
  symmetry. apply not_true_is_false. intros Hex.
  apply existsb_exists in Hex as [d [Hd He]]. apply Ascii.eqb_eq in He. subst d.
  destruct Hd as [<-|[<-|[<-|[<-|[]]]]]; discriminate.
Qed.

Lemma strip_leading_id (val : string) :
  existsb (Ascii.eqb (Str.front val)) [" "%char; Str.tab] = false ->
  strip_leading val = val.
Proof.
  destruct val as [|c val]; [reflexivity|]. cbn [Str.front]. intros H.
  unfold strip_leading. cbn [Str.find_first_not_of]. now rewrite H.
Qed.

Lemma front_append (a b : string) :
  Str.empty a = false -> Str.front (a ++ b) = Str.front a.
Proof. now destruct a. Qed.

(** What [line_safe] gives, one fact at a time. *)
Lemma line_safe_inv (var current : string) :
  line_safe var current = true ->
  let line := var ++ "=" ++ current in
  Str.empty var = false
  /\ Str.contains_char "=" var = false
  /\ Str.trim var = var
  /\ Str.contains_char Str.nl line = false
  /\ Str.find_str "+=" line = None
  /\ strip_comment line = line
  /\ Str.trim_right line = line
  /\ option_eqb_backslash (Str.last line) = false
  /\ strip_leading_spaces line = line
  /\ strip_leading current = current.
Proof.
  unfold line_safe. rewrite !andb_true_iff, !negb_true_iff.
  intros [[[[[[[[He Hc] Hf] Hl] Hnl] Hpe] Hh] Hend] Hcur]. cbv zeta.
  repeat split; try assumption.
  - unfold Str.trim. now rewrite trim_right_id, trim_left_id.
  - now destruct (Str.find_str "+=" (var ++ "=" ++ current)).
  - now apply strip_comment_safe.
  - apply trim_right_id.
    apply (ends_in_weaken _ _ _ (fun c H => orb_true_intro _ _ (or_introl H)) Hend).
  - pose proof (ends_in_weaken _ (fun c => Ascii.eqb c Str.backslash) _
                  (fun c H => orb_true_intro _ _ (or_intror H)) Hend) as Hb.
    unfold ends_in in Hb. unfold option_eqb_backslash.
    now destruct (Str.last (var ++ "=" ++ current)).
  - apply strip_leading_spaces_id. now rewrite front_append.
  - now apply strip_leading_id.
Qed.

(** A safe line reaches the parser unchanged. *)
Lemma parseFile_loop_safe (var current arg : string) (rest : list string) (lax : bool) :
  line_safe var current = true ->
  parseFile_loop ((var ++ "=" ++ current) :: rest) "" arg lax
  = (parseOne ("--" ++ var ++ "=" ++ current) arg lax ;;
     parseFile_loop rest "" arg lax).
Proof.
  intros H. destruct (line_safe_inv _ _ H) as (_ & _ & _ & _ & _ & Hc & Htr & Hb & Hls & _).
  cbn [parseFile_loop]. rewrite Htr, Hb, andb_false_r.
  change ("" ++ (var ++ "=" ++ current)) with (var ++ "=" ++ current).
  now rewrite Hc, Htr, Hls.
Qed.

(** A line that is all comment, or empty, changes nothing. *)
Lemma parseFile_loop_comment (text arg : string) (rest : list string) (lax : bool)
      (st : ArgvMap) :
  parseFile_loop (("#" ++ text ++ ")") :: rest) "" arg lax st
  = parseFile_loop rest "" arg lax st.
Proof.
  assert (Hl : Str.last ("#" ++ text ++ ")") = Some ")"%char).
  { change ("#" ++ text ++ ")") with (("#" ++ text) ++ String ")" "").
    apply last_append_char. }
  assert (Htr : Str.trim_right ("#" ++ text ++ ")") = "#" ++ text ++ ")").
  { apply trim_right_id. unfold ends_in. now rewrite Hl. }
  cbn [parseFile_loop]. rewrite Htr. unfold option_eqb_backslash. rewrite Hl.
  change (negb (Str.empty ("#" ++ text ++ ")")) && Ascii.eqb ")" Str.backslash) with false.
  cbv iota.
  change (strip_comment ("" ++ "#" ++ text ++ ")")) with "".
  change (strip_leading_spaces (Str.trim_right "")) with "".
  now rewrite (bind_ok _ _ _ _ _ (parseOne_empty_line arg lax st)).
Qed.

Lemma parseFile_loop_blank (arg : string) (rest : list string) (lax : bool) (st : ArgvMap) :
  parseFile_loop ("" :: rest) "" arg lax st = parseFile_loop rest "" arg lax st.
Proof.
  cbn [parseFile_loop]. 
  change (Str.trim_right "") with "". cbn [Str.empty negb andb append].
  change (strip_leading_spaces (Str.trim_right (strip_comment ""))) with "".
  now rewrite (bind_ok _ _ _ _ _ (parseOne_empty_line arg lax st)).
Qed.

Lemma in_changed_line (kv : string * string) (var theDefault current : string) :
  In kv (changed_line var theDefault current) ->
  kv = (var, current) /\ String.eqb theDefault current = false.
Proof.
  unfold changed_line. destruct (String.eqb theDefault current); [intros []|].
  intros [<-|[]]. now split.
Qed.

Lemma wf_ignore_declared (st : ArgvMap) :
  registry_wf st = true ->
  exists ign, StdMap.find "ignore-unknown-settings" st.(d_params) = Some ign.
Proof.
  unfold registry_wf. rewrite andb_true_iff. intros [Hh Hwf].
  apply mem_find. apply mem_find in Hh as [h Hh].
  induction (helpmap st) as [|[k v] m IH]; [discriminate|].
  cbn [forallb fst] in Hwf. apply andb_true_iff in Hwf as [Hk Hwf].
  cbn [StdMap.find] in Hh.
  destruct (String.eqb_spec "ignore-unknown-settings" k) as [<-|_].
  - now apply andb_true_iff in Hk as [Hk _].
  - now apply IH.
Qed.

Lemma dump_lines_source (st : ArgvMap) :
  registry_wf st = true ->
  unknowns_tolerated st = true ->
  Forall (line_source st) (dump_lines st).
Proof.
  intros Hwf Hun. destruct (wf_ignore_declared _ Hwf) as [ign Hign].
  unfold registry_wf in Hwf. apply andb_true_iff in Hwf as [_ Hwf].
  rewrite forallb_forall in Hwf. unfold unknowns_tolerated in Hun.
  rewrite forallb_forall in Hun.
  apply Forall_forall. intros kv Hin. unfold dump_lines in Hin.
  apply in_app_or in Hin as [Hin|Hin]; [|apply in_app_or in Hin as [Hin|Hin]].
  - apply in_changed_line in Hin as [-> _]. left. cbn [fst snd].
    now rewrite (value_or_empty_find _ _ _ Hign).
  - apply in_flat_map in Hin as [item [Hitem Hin]].
    destruct (String.eqb _ "Command"); [destruct Hin|].
    destruct (String.eqb (fst item) _); [destruct Hin|].
    apply in_changed_line in Hin as [-> _]. left. cbn [fst snd].
    specialize (Hwf _ Hitem). apply andb_true_iff in Hwf as [Hp _].
    apply mem_find in Hp as [c Hp]. now rewrite (value_or_empty_find _ _ _ Hp).
  - apply in_flat_map in Hin as [u [Hu Hin]].
    apply in_changed_line in Hin as [-> Hne]. right. cbn [fst snd].
    specialize (Hun _ Hu). apply orb_true_iff in Hun as [He|Hun].
    + destruct (snd u); [discriminate Hne | discriminate He].
    + apply andb_true_iff in Hun as [Hm Hex]. apply negb_true_iff in Hm.
      apply mem_false_find in Hm. now split.
Qed.

(** ** Reachable registries are well formed *)

Lemma mem_assign_same (k v : string) (m : StdMap.t) :
  StdMap.mem k (StdMap.assign k v m) = true.
Proof. unfold StdMap.mem. now rewrite find_assign_same. Qed.

Lemma mem_assign_mono (k k' v : string) (m : StdMap.t) :
  StdMap.mem k m = true -> StdMap.mem k (StdMap.assign k' v m) = true.
Proof.
  destruct (String.eqb_spec k' k) as [->|Hne]; intros H.
  - apply mem_assign_same.
  - unfold StdMap.mem in *. now rewrite find_assign_other.
Qed.

Lemma mem_index_mono (k k' : string) (m : StdMap.t) :
  StdMap.mem k m = true -> StdMap.mem k (snd (StdMap.index k' m)) = true.
Proof.
  unfold StdMap.index. destruct (StdMap.find k' m); cbn [snd]; [trivial|].
  apply mem_assign_mono.
Qed.

Lemma mem_index_same (k : string) (m : StdMap.t) :
  StdMap.mem k (snd (StdMap.index k m)) = true.
Proof.
  unfold StdMap.index. destruct (StdMap.find k m) eqn:E; cbn [snd].
  - unfold StdMap.mem. now rewrite E.
  - apply mem_assign_same.
Qed.

Lemma mem_assign_inv (k k' v : string) (m : StdMap.t) :
  StdMap.mem k (StdMap.assign k' v m) = true -> k = k' \/ StdMap.mem k m = true.
Proof.
  destruct (String.eqb_spec k' k) as [->|Hne]; [now left|].
  unfold StdMap.mem. rewrite find_assign_other by assumption. now right.
Qed.

Lemma extends_refl (st : ArgvMap) : extends st st.
Proof. repeat split; trivial. Qed.

Lemma extends_trans (a b c : ArgvMap) : extends a b -> extends b c -> extends a c.
Proof.
  intros (H1 & H2 & H3) (H4 & H5 & H6). repeat split; [congruence | auto | auto].
Qed.

Lemma inv_extends (st st' : ArgvMap) :
  registry_inv st -> extends st st' -> registry_inv st'.
Proof.
  intros [Hi Hk] (Hh & Hp & Ht). split; rewrite Hh; [exact Hi|].
  intros k Hm. destruct (Hk k Hm). split; auto.
Qed.

Lemma preserves_ret {A} (a : A) : preserves (ret a).
Proof. intros st H. exact H. Qed.

Lemma preserves_throw {A} (e : ArgException) : preserves (@throw A e).
Proof. intros st H. exact H. Qed.

Lemma preserves_gets {A} (f : ArgvMap -> A) : preserves (gets f).
Proof. intros st H. exact H. Qed.

Lemma preserves_bind {A B} (c : M A) (k : A -> M B) :
  preserves c -> (forall a, preserves (k a)) -> preserves (bind c k).
Proof.
  intros Hc Hk st H. specialize (Hc st H). unfold bind.
  destruct (c st) as [a st'|e st']; [apply Hk|]; exact Hc.
Qed.

Lemma preserves_modify (f : ArgvMap -> ArgvMap) :
  (forall st, extends st (f st)) -> preserves (modify f).
Proof. intros Hf st H. exact (inv_extends _ _ H (Hf st)). Qed.

Lemma preserves_for_each {A} (xs : list A) (body : A -> M unit) :
  (forall x, preserves (body x)) -> preserves (for_each xs body).
Proof.
  intros Hb. induction xs as [|x xs IH]; [apply preserves_ret|].
  cbn [for_each]. apply preserves_bind; [apply Hb | intros _; exact IH].
Qed.

Lemma preserves_for_fold {A B} (xs : list A) (acc : B) (body : A -> B -> M B) :
  (forall x b, preserves (body x b)) -> preserves (for_fold xs acc body).
Proof.
  intros Hb. revert acc. induction xs as [|x xs IH]; intros acc; [apply preserves_ret|].
  cbn [for_fold]. apply preserves_bind; [apply Hb | intros b; apply IH].
Qed.

Lemma preserves_if {A} (b : bool) (c1 c2 : M A) :
  preserves c1 -> preserves c2 -> preserves (if b then c1 else c2).
Proof. now destruct b. Qed.

Lemma preserves_params_index (k : string) : preserves (params_index k).
Proof.
  intros st H. unfold params_index.
  destruct (StdMap.index k (d_params st)) as [v m] eqn:E. cbn [final].
  apply (inv_extends _ _ H). repeat split; trivial. cbn. intros k' Hk'.
  change m with (snd (v, m)). rewrite <- E. now apply mem_index_mono.
Qed.

Lemma preserves_typeMap_index (k : string) : preserves (typeMap_index k).
Proof.
  intros st H. unfold typeMap_index.
  destruct (StdMap.index k (d_typeMap st)) as [v m] eqn:E. cbn [final].
  apply (inv_extends _ _ H). repeat split; trivial. cbn. intros k' Hk'.
  change m with (snd (v, m)). rewrite <- E. now apply mem_index_mono.
Qed.

Lemma preserves_defaultmap_index (k : string) : preserves (defaultmap_index k).
Proof.
  intros st H. unfold defaultmap_index.
  destruct (StdMap.index k (defaultmap st)) as [v m]. cbn [final].
  apply (inv_extends _ _ H). repeat split; trivial.
Qed.

Lemma preserves_params_assign (k v : string) : preserves (params_assign k v).
Proof.
  apply preserves_modify. intros st. repeat split; trivial. cbn.
  intros k'. apply mem_assign_mono.
Qed.

Lemma preserves_unknownParams_assign (k v : string) : preserves (unknownParams_assign k v).
Proof. apply preserves_modify. intros st. repeat split; trivial. Qed.

Lemma preserves_log (u : Urgency) (msg : string) : preserves (log u msg).
Proof. apply preserves_modify. intros st. repeat split; trivial. Qed.

(** A read of [helpmap["ignore-unknown-settings"]] finds the key. *)
Lemma preserves_helpmap_index_ignore : preserves (helpmap_index "ignore-unknown-settings").
Proof.
  intros st H. destruct H as [Hi Hk]. pose proof Hi as Hi'.
  apply mem_find in Hi' as [h Hh]. rewrite (helpmap_index_present _ _ _ Hh).
  now split.
Qed.

(** Declaring a name gives it a help text, a type and a value at once. *)
Lemma preserves_declare (var help type : string) :
  preserves (helpmap_assign var help ;; typeMap_assign var type ;; set var).
Proof.
  intros st [Hi Hk]. unfold set, params_index, bind, helpmap_assign, typeMap_assign, modify.
  cbn [d_params with_typeMap with_helpmap].
  destruct (StdMap.index var (d_params st)) as [v m] eqn:E. cbn [final].
  assert (Hm : forall k, StdMap.mem k (d_params st) = true -> StdMap.mem k m = true).
  { intros k Hk'. change m with (snd (v, m)). rewrite <- E. now apply mem_index_mono. }
  assert (Hv : StdMap.mem var m = true).
  { change m with (snd (v, m)). rewrite <- E. apply mem_index_same. }
  split; cbn.
  - now apply mem_assign_mono.
  - intros k Hin. apply mem_assign_inv in Hin as [->|Hin].
    + split; [exact Hv | apply mem_assign_same].
    + destruct (Hk k Hin). split; [auto | now apply mem_assign_mono].
Qed.

Create HintDb preserves.
#[local] Hint Resolve preserves_ret preserves_throw preserves_gets preserves_params_index
  preserves_typeMap_index preserves_defaultmap_index preserves_params_assign
  preserves_unknownParams_assign preserves_log preserves_helpmap_index_ignore
  preserves_declare : preserves.

Ltac preserves_step :=
  match goal with
  | |- preserves (bind _ _) => apply preserves_bind; [|intros]
  | |- preserves (if _ then _ else _) => apply preserves_if
  | |- preserves (for_each _ _) => apply preserves_for_each; intros
  | |- preserves (for_fold _ _ _) => apply preserves_for_fold; intros
  | |- preserves (modify _) => apply preserves_modify; intros; repeat split; trivial
  | |- preserves (match ?x with Some _ => _ | None => _ end) => destruct x
  | |- preserves (match ?x with inl _ => _ | inr _ => _ end) => destruct x
  | |- preserves (let '(_, _) := ?x in _) => destruct x
  | |- preserves _ => solve [auto with preserves]
  end.

Ltac preserves_auto := repeat preserves_step.

Lemma preserves_parmIsset (var : string) : preserves (parmIsset var).
Proof. unfold parmIsset. preserves_auto. Qed.

Lemma preserves_set_help (var help : string) : preserves (set_help var help).
Proof. apply preserves_declare. Qed.

Lemma preserves_setSwitch (var help : string) : preserves (setSwitch var help).
Proof. apply preserves_declare. Qed.

Lemma preserves_setCmd (var help : string) : preserves (setCmd var help).
Proof.
  unfold setCmd. intros st H.
  pose proof (preserves_declare var help "Command" st H) as H1.
  unfold bind in *.
  destruct (helpmap_assign var help st) as [u1 s1|e1 s1]; [|exact H1].
  destruct (typeMap_assign var "Command" s1) as [u2 s2|e2 s2]; [|exact H1].
  destruct (set var s2) as [v s3|e3 s3]; [|exact H1].
  exact (preserves_params_assign var "no" s3 H1).
Qed.

Lemma preserves_warnIfDeprecated (var : string) : preserves (warnIfDeprecated var).
Proof. unfold warnIfDeprecated. preserves_auto. Qed.

#[local] Hint Resolve preserves_parmIsset preserves_set_help preserves_setSwitch
  preserves_setCmd preserves_warnIfDeprecated : preserves.

Lemma preserves_parseOne (arg parseOnly : string) (lax : bool) :
  preserves (parseOne arg parseOnly lax).
Proof.
  unfold parseOne. apply preserves_bind.
  - destruct (split_arg arg); preserves_auto.
  - intros [[var val] incremental]. preserves_auto.
Qed.

#[local] Hint Resolve preserves_parseOne : preserves.

Lemma preserves_parseFile_loop (plines : list string) (line arg : string) (lax : bool) :
  preserves (parseFile_loop plines line arg lax).
Proof.
  revert line. induction plines as [|pline plines IH]; intros line; cbn [parseFile_loop].
  - preserves_auto.
  - preserves_auto; apply IH.
Qed.

#[local] Hint Resolve preserves_parseFile_loop : preserves.

Lemma preserves_parseFile (fs : FileSystem) (fname arg : string) (lax : bool) :
  preserves (parseFile fs fname arg lax).
Proof. unfold parseFile. preserves_auto. Qed.

Lemma preserves_gatherIncludes (fs : FileSystem) (directory suffix : string)
      (extraConfigs : list string) :
  preserves (gatherIncludes fs directory suffix extraConfigs).
Proof. unfold gatherIncludes, gatherIncludes_loop. preserves_auto. Qed.

#[local] Hint Resolve preserves_parseFile preserves_gatherIncludes : preserves.

Lemma preserves_file_with (fs : FileSystem) (inner : string -> bool -> M bool)
      (fname : string) (lax included : bool) :
  (forall f l, preserves (inner f l)) ->
  preserves (file_with fs inner fname lax included).
Proof. intros Hinner. unfold file_with. preserves_auto. Qed.

Lemma preserves_file3 (fs : FileSystem) (fname : string) (lax included : bool) :
  preserves (file3 fs fname lax included).
Proof.
  apply preserves_file_with. intros f l. apply preserves_file_with.
  intros; apply preserves_ret.
Qed.

Lemma preserves_configstring (nowTime : string) (running full : bool) :
  preserves (configstring nowTime running full).
Proof. unfold configstring. preserves_auto. Qed.

Lemma preserves_setDefault (var value : string) : preserves (setDefault var value).
Proof.
  unfold setDefault. apply preserves_modify. intros st.
  destruct (negb (StdMap.mem var (defaultmap st))); repeat split; trivial.
Qed.

Lemma preserves_setDefaults : preserves setDefaults.
Proof.
  unfold setDefaults. preserves_auto.
  all: destruct (negb (StdMap.mem (fst x) (defaultmap st))); trivial.
Qed.

Lemma preserves_member_call (A : Type) (c : M A) : member_call A c -> preserves c.
Proof.
  destruct 1;
    try solve [ auto with preserves
              | apply preserves_setDefault
              | apply preserves_setDefaults
              | apply preserves_file3
              | apply preserves_configstring
              | apply preserves_bind; [auto with preserves | intros; auto with preserves] ];
    unfold mustDo, operator_index, list_names, contains, helpstring, asMode, asGid, asUid,
      asNum, isEmpty, getCommands, parse, preParse, preParseFile, file;
    preserves_auto.
Qed.

Lemma registry_inv_ctor : registry_inv (final (ArgvMap_ctor empty_ArgvMap)).
Proof.
  split; [reflexivity|]. intros k Hk. cbn in Hk |- *.
  unfold StdMap.mem in *. cbn in Hk |- *.
  destruct (String.eqb k "ignore-unknown-settings"); [now split | discriminate].
Qed.

Lemma In_mem (k v : string) (m : StdMap.t) : In (k, v) m -> StdMap.mem k m = true.
Proof.
  unfold StdMap.mem. induction m as [|[k' v'] m IH]; [intros []|].
  intros [H|H]; cbn [StdMap.find].
  - injection H as -> ->. now rewrite String.eqb_refl.
  - destruct (String.eqb k k'); [reflexivity | now apply IH].
Qed.

Lemma registry_inv_wf (st : ArgvMap) : registry_inv st -> registry_wf st = true.
Proof.
  intros [Hi Hk]. unfold registry_wf. rewrite Hi. cbn [andb].
  apply forallb_forall. intros [k v] Hin. cbn [fst].
  destruct (Hk k (In_mem _ _ _ Hin)) as [-> ->]. reflexivity.
Qed.

(** Every registry an application can arrive at is well formed, and
    ignore-unknown-settings is declared in it. *)
Lemma reachable_wf (st : ArgvMap) : reachable st -> registry_wf st = true.
Proof.
  intros H. apply registry_inv_wf. induction H as [|A c st _ IH Hc].
  - apply registry_inv_ctor.
  - exact (preserves_member_call A c Hc st IH).
Qed.

Lemma reachable_ignore_declared (st : ArgvMap) :
  reachable st ->
  exists ign, StdMap.find "ignore-unknown-settings" st.(d_params) = Some ign.
Proof. intros H. apply wf_ignore_declared. now apply reachable_wf. Qed.

(** ** The round trip on reachable registries *)

Lemma reachable_declare (var help value : string) (st : ArgvMap) :
  reachable st -> reachable (declare var help value st).
Proof.
  intros H. unfold declare.
  apply reachable_call; [|constructor]. apply reachable_call; [exact H | constructor].
Qed.

Lemma reachable_demo : reachable demo_registry.
Proof.
  unfold demo_registry.
  apply reachable_call; [|constructor].
  do 4 apply reachable_declare.
  apply reachable_call; [|constructor]. apply reachable_ctor.
Qed.

(** ** The round trip: reading the lines back into a registry *)

Lemma read_back_line (st st1 : ArgvMap) (kv : string * string)
      (ls : list (string * string)) (lax : bool) :
  (exists v, StdMap.find "ignore-unknown-settings" st.(d_params) = Some v) ->
  line_safe (fst kv) (snd kv) = true ->
  line_source st kv ->
  ~ In "ignore-unknown-settings" (map fst ls) ->
  agrees_off (map fst (kv :: ls)) st st1 ->
  exists st2,
    parseOne ("--" ++ fst kv ++ "=" ++ snd kv) "" lax st1 = Ok tt st2
    /\ agrees_off (map fst ls) st st2.
Proof.
  destruct kv as [k v]. cbn [fst snd map].
  intros [ignv Hign] Hsafe Hsrc Hfirst [Hmem Hagree].
  destruct (line_safe_inv _ _ Hsafe)
    as (Hne & Hc & Htrim & _ & Hpe & _ & _ & _ & _ & Hval).
  pose proof (split_arg_assign k v Hc Hpe) as Hsplit.
  destruct Hsrc as [Hdecl|[Hundecl Hex]]; cbn [fst snd] in *.
  - assert (Hcur : exists cur, StdMap.find k st1.(d_params) = Some cur).
    { apply mem_find. rewrite Hmem. apply mem_find. eauto. }
    destruct Hcur as [cur Hcur].
    pose proof (parseOne_declared _ "" k v cur false lax st1 Hsplit) as H.
    rewrite Htrim, Hval in H. specialize (H Hne eq_refl Hcur). cbv zeta in H.
    destruct (warned_log lax k st1) as [l Hl]. rewrite Hl in H.
    eexists. split; [exact H|]. split; intros k'; cbn.
    + destruct (String.eqb_spec k k') as [<-|Hk].
      * rewrite mem_assign_same. symmetry. apply mem_find. eauto.
      * unfold StdMap.mem. rewrite find_assign_other by assumption. apply Hmem.
    + intros Hk'. destruct (String.eqb_spec k k') as [<-|Hk].
      * rewrite find_assign_same. now symmetry.
      * rewrite find_assign_other by assumption. apply Hagree.
        intros [E|E]; [congruence | contradiction].
  - rewrite (value_or_empty_find _ _ _ Hign) in Hex.
    assert (Hk1 : StdMap.find k st1.(d_params) = None).
    { apply mem_false_find. rewrite Hmem. now apply mem_false_find. }
    assert (Hi1 : StdMap.find "ignore-unknown-settings" st1.(d_params) = Some ignv).
    { rewrite Hagree; [exact Hign|]. intros [E|E]; [|contradiction].
      subst k. congruence. }
    pose proof (parseOne_undeclared _ "" k v ignv false lax st1 Hsplit) as H.
    rewrite Htrim, Hval in H. specialize (H Hne eq_refl Hk1 Hi1). cbv zeta in H.
    rewrite Hex in H.
    destruct (warned_log lax k st1) as [l Hl]. rewrite Hl in H.
    eexists. split; [exact H|]. split; intros k'; cbn; [apply Hmem|].
    intros Hk'. destruct (String.eqb_spec k k') as [<-|Hk].
    + now rewrite Hk1.
    + apply Hagree. intros [E|E]; [congruence | contradiction].
Qed.

Lemma in_tl {A} (x : A) (l : list A) : In x (tl l) -> In x l.
Proof. destruct l; [trivial | now right]. Qed.

Lemma read_back_lines (st : ArgvMap) (ls : list (string * string)) (lax : bool) :
  (exists v, StdMap.find "ignore-unknown-settings" st.(d_params) = Some v) ->
  forallb (fun kv : string * string => line_safe (fst kv) (snd kv)) ls = true ->
  Forall (line_source st) ls ->
  ~ In "ignore-unknown-settings" (map fst (tl ls)) ->
  forall st1, agrees_off (map fst ls) st st1 ->
  exists st2,
    parseFile_loop (Str.getlines (render_lines ls)) "" "" lax st1 = Ok tt st2
    /\ same_values st st2.
Proof.
  intros Hign. induction ls as [|kv ls IH]; intros Hsafe Hsrc Hfirst st1 Hagree.
  - exists st1. split; [reflexivity|]. intros k. apply Hagree. intros [].
  - cbn [forallb] in Hsafe. apply andb_true_iff in Hsafe as [Hkv Hsafe].
    inversion Hsrc as [|? ? Hkvsrc Hsrc']; subst. cbn [tl] in Hfirst.
    destruct (line_safe_inv _ _ Hkv) as (_ & _ & _ & Hnl & _).
    cbn [render_lines].
    replace ((fst kv ++ "=" ++ snd kv ++ Str.NL) ++ render_lines ls)
      with ((fst kv ++ "=" ++ snd kv) ++ Str.NL ++ render_lines ls)
      by (now rewrite !append_assoc).
    rewrite (getlines_line _ _ Hnl), (parseFile_loop_safe _ _ _ _ _ Hkv).
    destruct (read_back_line st st1 kv ls lax Hign Hkv Hkvsrc Hfirst Hagree)
      as [st2 [H2 Hagree2]].
    rewrite (bind_ok _ _ _ _ _ H2). apply IH; trivial.
    intros Hin. apply Hfirst. apply in_map_iff in Hin as [x [Hx Hin]].
    apply in_map_iff. exists x. split; [exact Hx | now apply in_tl].
Qed.

(** In a dump the line of ignore-unknown-settings, if there is one, is the
    first: the parser has the ignore list before it meets an unknown name. *)
Lemma dump_lines_ignore_first (st : ArgvMap) :
  registry_wf st = true ->
  unknowns_tolerated st = true ->
  ~ In "ignore-unknown-settings" (map fst (tl (dump_lines st))).
Proof.
  intros Hwf Hun. destruct (wf_ignore_declared _ Hwf) as [ignv Hign].
  unfold unknowns_tolerated in Hun. rewrite forallb_forall in Hun.
  unfold dump_lines.
  set (A := flat_map _ (helpmap st)). set (B := flat_map _ (d_unknownParams st)).
  assert (Hrest : ~ In "ignore-unknown-settings" (map fst (A ++ B))).
  { intros Hin. apply in_map_iff in Hin as [kv [Hk Hin]].
    apply in_app_or in Hin as [Hin|Hin].
    - apply in_flat_map in Hin as [item [_ Hin]].
      destruct (String.eqb _ "Command"); [destruct Hin|].
      destruct (String.eqb_spec (fst item) "ignore-unknown-settings") as [_|Hne];
        [destruct Hin|].
      apply in_changed_line in Hin as [-> _]. now cbn [fst] in Hk.
    - apply in_flat_map in Hin as [u [Hu Hin]].
      apply in_changed_line in Hin as [-> Hne]. cbn [fst] in Hk.
      specialize (Hun _ Hu). apply orb_true_iff in Hun as [He|Hun].
      + destruct (snd u); [discriminate Hne | discriminate He].
      + apply andb_true_iff in Hun as [Hm _]. apply negb_true_iff in Hm.
        apply mem_false_find in Hm. rewrite Hk in Hm. congruence. }
  unfold changed_line.
  destruct (String.eqb _ _); cbn [app tl]; [|exact Hrest].
  intros Hin. apply Hrest. apply in_map_iff in Hin as [x [Hx Hin]].
  apply in_map_iff. exists x. split; [exact Hx | now apply in_tl].
Qed.

(** The round trip for a well-formed registry. *)
Lemma round_trip_into (fs : FileSystem) (nowTime fname : string) (lax : bool)
      (st st0 : ArgvMap) :
  registry_wf st = true ->
  defaults_set st = true ->
  unknowns_tolerated st = true ->
  dump_safe st = true ->
  Str.contains_char Str.nl nowTime = false ->
  reads_into st st0 ->
  exists out,
    configstring nowTime true false st = Ok out st
    /\ (fs_ifstream fs fname = Some out ->
        exists st',
          parseFile fs fname "" lax st0 = Ok true st'
          /\ same_values st st').
Proof.
  intros Hwf Hdef Hun Hsafe Hnow Hinto.
  exists (banner_running nowTime ++ render_lines (dump_lines st)).
  split; [now apply configstring_diff|].
  intros Hfile. unfold parseFile. rewrite Hfile.
  set (text := " Autogenerated configuration file based on running instance (" ++ nowTime).
  replace (banner_running nowTime ++ render_lines (dump_lines st))
    with (("#" ++ text ++ ")") ++ Str.NL ++ ("" ++ Str.NL ++ render_lines (dump_lines st))).
  2:{ unfold banner_running, text. now rewrite !append_assoc. }
  assert (Hb : Str.contains_char Str.nl ("#" ++ text ++ ")") = false).
  { unfold text.
    change ("#" ++ (" Autogenerated configuration file based on running instance ("
                      ++ nowTime) ++ ")")
      with ("# Autogenerated configuration file based on running instance ("
              ++ nowTime ++ ")").
    now rewrite !contains_char_append, Hnow. }
  rewrite (getlines_line _ _ Hb), (getlines_line "" _ eq_refl).
  destruct (read_back_lines st (dump_lines st) lax (wf_ignore_declared _ Hwf) Hsafe
              (dump_lines_source _ Hwf Hun) (dump_lines_ignore_first _ Hwf Hun) st0 Hinto)
    as [st' [Hloop Hsame]].
  exists st'. split; [|exact Hsame].
  rewrite (bind_ok _ _ st0 st' tt); [reflexivity|].
  now rewrite parseFile_loop_comment, parseFile_loop_blank.
Qed.

Lemma reads_into_refl (st : ArgvMap) : reads_into st st.
Proof. split; reflexivity. Qed.

(** The example: b was changed to 5 on the command line; the dump is read
    by a program that has only made its declarations. *)
Lemma reads_into_c1 : reads_into c1_registry demo_registry.
Proof.
  assert (Hp : d_params c1_registry = StdMap.assign "b" "5" (d_params demo_registry))
    by reflexivity.
  split; intros k.
  - rewrite Hp. destruct (String.eqb_spec "b" k) as [E|Hk].
    + subst k. now rewrite mem_assign_same.
    + unfold StdMap.mem. now rewrite find_assign_other.
  - change (dumped_names c1_registry) with ["b"]. intros Hk. rewrite Hp.
    rewrite find_assign_other; [reflexivity|]. intros E. apply Hk. now left.
Qed.

(** C8, as the code has it.  Take a reachable registry where every
    declared non-Command parameter has a default, every unknown setting
    shown is still undeclared and on the ignore list, and every line of the
    dump is one the file format can carry (see [line_safe]).  Then
    [configstring(true, false)] returns and leaves the registry alone, and
    its output carries the values: loaded as a file, lax or not, into any
    registry that declares the same names and agrees with the dumped one
    where the dump is silent (see [reads_into]), whatever it holds for the
    names that have a line, it succeeds and leaves every parameter with the
    value of the dumped registry. *)
Theorem C8_round_trip (fs : FileSystem) (nowTime fname : string) (lax : bool)
        (st st0 : ArgvMap) :
  reachable st ->
  defaults_set st = true ->
  unknowns_tolerated st = true ->
  dump_safe st = true ->
  Str.contains_char Str.nl nowTime = false ->
  reads_into st st0 ->
  exists out,
    configstring nowTime true false st = Ok out st
    /\ (fs_ifstream fs fname = Some out ->
        exists st',
          parseFile fs fname "" lax st0 = Ok true st'
          /\ same_values st st').
Proof.
  intros Hreach. apply round_trip_into. now apply reachable_wf.
Qed.

Lemma C8_round_trip_witness :
  exists st',
    parseFile (c8_fs (dumped (configstring "T" true false c1_registry)))
              "dump.conf" "" false demo_registry = Ok true st'
    /\ same_values c1_registry st'
    /\ StdMap.find "b" demo_registry.(d_params) = Some "2"
    /\ StdMap.find "b" st'.(d_params) = Some "5".
Proof.
  destruct (C8_round_trip (c8_fs (dumped (configstring "T" true false c1_registry)))
              "T" "dump.conf" false c1_registry demo_registry) as [out [Hout Hback]].
  - unfold c1_registry. apply reachable_call; [apply reachable_demo | constructor].
  - vm_compute. reflexivity.
  - vm_compute. reflexivity.
  - vm_compute. reflexivity.
  - vm_compute. reflexivity.
  - exact reads_into_c1.
  - destruct Hback as [st' [Hrun Hsame]]; [rewrite Hout; vm_compute; reflexivity|].
    exists st'. split; [exact Hrun|]. split; [exact Hsame|]. split; [reflexivity|].
    rewrite (Hsame "b"). reflexivity.
Defined.

(** C8 as stated fails when a value holds " #": x is set to "a #b" on
    the command line, the dump has the line "x=a #b", and the file loader
    cuts it at the '#', so x comes back as "a". *)
Lemma C8_counterexample :
  reachable c8_registry
  /\ defaults_set c8_registry = true
  /\ StdMap.find "x" c8_registry.(d_params) = Some "a #b"
  /\ configstring "T" true false c8_registry
     = Ok (banner_running "T" ++ "x=a #b" ++ Str.NL) c8_registry
  /\ StdMap.find "x"
       (final (parseFile (c8_fs (banner_running "T" ++ "x=a #b" ++ Str.NL))
                         "dump.conf" "" false c8_registry)).(d_params)
     = Some "a".
Proof.
  split.
  - unfold c8_registry. apply reachable_call; [apply reachable_demo | constructor].
  - vm_compute. repeat split.
Qed.

(** ** The collaborator models on small inputs *)

Example strtol_zero : Ext.strtol "0" 0 = (0%Z, 1).
Proof. reflexivity. Qed.

Example strtol_no_digits : Ext.strtol "abc" 0 = (0%Z, 0).
Proof. reflexivity. Qed.

Example strtol_signed_hex : Ext.strtol "  -0x1fz" 0 = ((-31)%Z, 7).
Proof. reflexivity. Qed.

Example strtol_lone_0x : Ext.strtol "0xg" 0 = (0%Z, 1).
Proof. reflexivity. Qed.

Example strtol_octal_mode : Ext.strtol "0644" 8 = (420%Z, 4).
Proof. reflexivity. Qed.

Example strtol_clamps :
  Ext.strtol "99999999999999999999" 0 = (Ext.LONG_MAX, 20).
Proof. reflexivity. Qed.

Example asMode_0644 :
  asMode "a" (with_params [("a", "0644")] demo_registry)
  = Ok 420%Z (with_params [("a", "0644")] demo_registry).
Proof. reflexivity. Qed.

Example stringtok_skips_empty_tokens :
  Ext.stringtok "foo, bar,,baz " ", " = ["foo"; "bar"; "baz"].
Proof. reflexivity. Qed.

Example getlines_last_line :
  Str.getlines ("a" ++ Str.NL ++ Str.NL ++ "b") = ["a"; ""; "b"]
  /\ Str.getlines ("a" ++ Str.NL) = ["a"].
Proof. split; reflexivity. Qed.

Example sort_folds_case :
  Ext.sort Ext.CIStringComparePOSIX Ext.ties_keep
           ["d/2-b.conf"; "d/B.conf"; "d/10-a.conf"; "d/a.conf"]
  = ["d/10-a.conf"; "d/2-b.conf"; "d/a.conf"; "d/B.conf"].
Proof. reflexivity. Qed.

Example isDeprecated_table :
  isDeprecated "xpf-rr-code" = "Proxy Protocol"
  /\ isDeprecated "snmp-master-socket" = "snmp-daemon-socket"
  /\ isDeprecated "include-dir" = "".
Proof. repeat split. Qed.

(** ** What every member function keeps *)

Section Invariants.

Variable P : ArgvMap -> Prop.
Hypothesis HP : stable P.

Lemma inv_ret {A} (a : A) : invariant P (ret a).
Proof. intros st H. exact H. Qed.

Lemma inv_throw {A} (e : ArgException) : invariant P (@throw A e).
Proof. intros st H. exact H. Qed.

Lemma inv_gets {A} (f : ArgvMap -> A) : invariant P (gets f).
Proof. intros st H. exact H. Qed.

Lemma inv_bind {A B} (c : M A) (k : A -> M B) :
  invariant P c -> (forall a, invariant P (k a)) -> invariant P (bind c k).
Proof.
  intros Hc Hk st H. specialize (Hc st H). unfold bind.
  destruct (c st) as [a st'|e st']; [apply Hk|]; exact Hc.
Qed.

Lemma inv_for_each {A} (xs : list A) (body : A -> M unit) :
  (forall x, invariant P (body x)) -> invariant P (for_each xs body).
Proof.
  intros Hb. induction xs as [|x xs IH]; [apply inv_ret|].
  cbn [for_each]. apply inv_bind; [apply Hb | intros _; exact IH].
Qed.

Lemma inv_for_fold {A B} (xs : list A) (acc : B) (body : A -> B -> M B) :
  (forall x b, invariant P (body x b)) -> invariant P (for_fold xs acc body).
Proof.
  intros Hb. revert acc. induction xs as [|x xs IH]; intros acc; [apply inv_ret|].
  cbn [for_fold]. apply inv_bind; [apply Hb | intros b; apply IH].
Qed.

Lemma inv_if {A} (b : bool) (c1 c2 : M A) :
  invariant P c1 -> invariant P c2 -> invariant P (if b then c1 else c2).
Proof. now destruct b. Qed.

Lemma inv_params_assign (k v : string) : invariant P (params_assign k v).
Proof. intros st H. exact (stable_params P HP st k v H). Qed.

Lemma inv_helpmap_assign (k v : string) : invariant P (helpmap_assign k v).
Proof. intros st H. exact (stable_helpmap P HP st k v H). Qed.

Lemma inv_typeMap_assign (k v : string) : invariant P (typeMap_assign k v).
Proof. intros st H. exact (stable_typeMap P HP st k v H). Qed.

Lemma inv_unknownParams_assign (k v : string) : invariant P (unknownParams_assign k v).
Proof. intros st H. exact (stable_unknownParams P HP st k v H). Qed.

Lemma inv_log (u : Urgency) (msg : string) : invariant P (log u msg).
Proof. intros st H. exact (stable_log P HP st _ H). Qed.

Lemma inv_params_index (k : string) : invariant P (params_index k).
Proof.
  intros st H. unfold params_index, StdMap.index.
  destruct (StdMap.find k (d_params st)); cbn [final].
  - now destruct st.
  - exact (stable_params P HP st k _ H).
Qed.

Lemma inv_helpmap_index (k : string) : invariant P (helpmap_index k).
Proof.
  intros st H. unfold helpmap_index, StdMap.index.
  destruct (StdMap.find k (helpmap st)); cbn [final].
  - now destruct st.
  - exact (stable_helpmap P HP st k _ H).
Qed.

Lemma inv_typeMap_index (k : string) : invariant P (typeMap_index k).
Proof.
  intros st H. unfold typeMap_index, StdMap.index.
  destruct (StdMap.find k (d_typeMap st)); cbn [final].
  - now destruct st.
  - exact (stable_typeMap P HP st k _ H).
Qed.

Lemma inv_defaultmap_index (k : string) : invariant P (defaultmap_index k).
Proof.
  intros st H. unfold defaultmap_index, StdMap.index.
  destruct (StdMap.find k (defaultmap st)) eqn:E; cbn [final].
  - now destruct st.
  - exact (stable_defaultmap P HP st k _ (proj2 (mem_false_find _ _) E) H).
Qed.

Lemma inv_default_insert (k v : string) :
  invariant P (modify (fun st =>
    if negb (StdMap.mem k st.(defaultmap))
    then with_defaultmap (StdMap.insert k v st.(defaultmap)) st
    else st)).
Proof.
  intros st H. cbn [final modify]. unfold StdMap.insert.
  destruct (StdMap.mem k (defaultmap st)) eqn:E; cbn [negb]; [exact H|].
  exact (stable_defaultmap P HP st k v E H).
Qed.

Lemma inv_with_cmds (f : ArgvMap -> list string) :
  invariant P (modify (fun st => with_cmds (f st) st)).
Proof. intros st H. exact (stable_cmds P HP st _ H). Qed.

Lemma inv_with_cleared (f : ArgvMap -> StdSet.t) :
  invariant P (modify (fun st => with_cleared (f st) st)).
Proof. intros st H. exact (stable_cleared P HP st _ H). Qed.

Create HintDb invariants.

Hint Resolve inv_ret inv_throw inv_gets inv_params_assign inv_helpmap_assign
  inv_typeMap_assign inv_unknownParams_assign inv_log inv_params_index
  inv_helpmap_index inv_typeMap_index inv_defaultmap_index inv_default_insert
  inv_with_cmds inv_with_cleared : invariants.

Ltac inv_step :=
  match goal with
  | |- invariant P (bind _ _) => apply inv_bind; [|intros]
  | |- invariant P (if _ then _ else _) => apply inv_if
  | |- invariant P (for_each _ _) => apply inv_for_each; intros
  | |- invariant P (for_fold _ _ _) => apply inv_for_fold; intros
  | |- invariant P (modify (with_cmds ?l)) =>
      exact (inv_with_cmds (fun _ => l))
  | |- invariant P (modify (with_cleared ?s)) =>
      exact (inv_with_cleared (fun _ => s))
  | |- invariant P (match ?x with Some _ => _ | None => _ end) => destruct x
  | |- invariant P (match ?x with inl _ => _ | inr _ => _ end) => destruct x
  | |- invariant P (let '(_, _) := ?x in _) => destruct x
  | |- invariant P _ => solve [auto with invariants]
  end.

Ltac inv_auto := repeat inv_step.

Lemma inv_parseOne (arg parseOnly : string) (lax : bool) :
  invariant P (parseOne arg parseOnly lax).
Proof.
  unfold parseOne, warnIfDeprecated, parmIsset. apply inv_bind.
  - destruct (split_arg arg); inv_auto.
  - intros [[var val] incremental]. inv_auto.
Qed.

Hint Resolve inv_parseOne : invariants.

Lemma inv_parseFile_loop (plines : list string) (line arg : string) (lax : bool) :
  invariant P (parseFile_loop plines line arg lax).
Proof.
  revert line. induction plines as [|pline plines IH]; intros line; cbn [parseFile_loop].
  - inv_auto.
  - inv_auto; apply IH.
Qed.

Hint Resolve inv_parseFile_loop : invariants.

Lemma inv_parmIsset (var : string) : invariant P (parmIsset var).
Proof. unfold parmIsset. inv_auto. Qed.

Lemma inv_set_help (var help : string) : invariant P (set_help var help).
Proof. unfold set_help, set. inv_auto. Qed.

Lemma inv_operator_index (arg : string) : invariant P (operator_index arg).
Proof. unfold operator_index, parmIsset. inv_auto. Qed.

Lemma inv_parseFile (fs : FileSystem) (fname arg : string) (lax : bool) :
  invariant P (parseFile fs fname arg lax).
Proof. unfold parseFile. inv_auto. Qed.

Lemma inv_gatherIncludes (fs : FileSystem) (directory suffix : string)
      (extraConfigs : list string) :
  invariant P (gatherIncludes fs directory suffix extraConfigs).
Proof. unfold gatherIncludes, gatherIncludes_loop. inv_auto. Qed.

Hint Resolve inv_parmIsset inv_set_help inv_operator_index inv_parseFile
  inv_gatherIncludes : invariants.

Lemma inv_file_with (fs : FileSystem) (inner : string -> bool -> M bool)
      (fname : string) (lax included : bool) :
  (forall f l, invariant P (inner f l)) ->
  invariant P (file_with fs inner fname lax included).
Proof. intros Hinner. unfold file_with. inv_auto. Qed.

Lemma inv_file3 (fs : FileSystem) (fname : string) (lax included : bool) :
  invariant P (file3 fs fname lax included).
Proof.
  apply inv_file_with. intros f l. apply inv_file_with. intros; apply inv_ret.
Qed.

Hint Resolve inv_file3 : invariants.

(** A stable property, once true, stays true through every call. *)
Lemma stable_member_call (A : Type) (c : M A) :
  member_call A c -> invariant P c.
Proof.
  destruct 1;
    unfold file, preParseFile, preParse, parse, getCommands, isEmpty, asNum, asUid, asGid,
      asMode, configstring, helpstring, contains, setSwitch, setCmd, list_names, mustDo,
      setDefaults, setDefault, set;
    inv_auto.
Qed.

End Invariants.

Lemma stable_declared (k : string) :
  stable (fun st => StdMap.mem k st.(d_params) = true).
Proof.
  constructor; intros; cbn; trivial. now apply mem_assign_mono.
Qed.

Lemma stable_default (k d : string) :
  stable (fun st => StdMap.find k st.(defaultmap) = Some d).
Proof.
  constructor; intros; cbn; trivial.
  rewrite find_assign_other; [assumption|].
  intros ->. apply mem_false_find in H. congruence.
Qed.

Lemma stable_unknown (k : string) :
  stable (fun st => StdMap.mem k st.(d_unknownParams) = true).
Proof.
  constructor; intros; cbn; trivial. now apply mem_assign_mono.
Qed.

(** X1: no member function ever removes a declared parameter: a name that
    [parmIsset] accepts before a call is accepted after it, whether the call
    returns or throws. *)
Theorem declared_names_stay (A : Type) (c : M A) (st : ArgvMap) (k : string) :
  member_call A c ->
  StdMap.mem k st.(d_params) = true ->
  StdMap.mem k (final (c st)).(d_params) = true.
Proof.
  intros Hc H. exact (stable_member_call _ (stable_declared k) A c Hc st H).
Qed.

Lemma declared_names_stay_witness :
  StdMap.mem "x" (final (parse ["pdns"; "--x+=a"] false demo_registry)).(d_params) = true.
Proof.
  apply (declared_names_stay unit (parse ["pdns"; "--x+=a"] false) demo_registry "x").
  - constructor.
  - reflexivity.
Defined.

(** X2: a registered default is never changed: whatever is called
    afterwards, [setDefault] and [setDefaults] included, the default map
    still gives the name the same value. *)
Theorem registered_default_is_final (A : Type) (c : M A) (st : ArgvMap) (k d : string) :
  member_call A c ->
  StdMap.find k st.(defaultmap) = Some d ->
  StdMap.find k (final (c st)).(defaultmap) = Some d.
Proof.
  intros Hc H. exact (stable_member_call _ (stable_default k d) A c Hc st H).
Qed.

Lemma registered_default_is_final_witness :
  StdMap.find "b" (final (setDefault "b" "9" demo_registry)).(defaultmap) = Some "2".
Proof.
  apply (registered_default_is_final unit (setDefault "b" "9") demo_registry "b" "2").
  - constructor.
  - reflexivity.
Defined.

(** X3: an unknown setting, once recorded, stays recorded: no member
    function removes it, and [parse], which empties the command list and the
    cleared set, leaves the unknown settings in place. *)
Theorem unknown_settings_stay (A : Type) (c : M A) (st : ArgvMap) (k : string) :
  member_call A c ->
  StdMap.mem k st.(d_unknownParams) = true ->
  StdMap.mem k (final (c st)).(d_unknownParams) = true.
Proof.
  intros Hc H. exact (stable_member_call _ (stable_unknown k) A c Hc st H).
Qed.

Lemma unknown_settings_stay_witness :
  StdMap.mem "foo"
    (final (parse ["pdns"; "--b=5"] false
              (with_unknownParams [("foo", "1")] demo_registry))).(d_unknownParams) = true.
Proof.
  apply (unknown_settings_stay unit (parse ["pdns"; "--b=5"] false)
           (with_unknownParams [("foo", "1")] demo_registry) "foo").
  - constructor.
  - reflexivity.
Defined.

(** ** Registering defaults *)

Lemma setDefaults_loop (params : list (string * string)) (st : ArgvMap) :
  exists st',
    for_each params (fun param =>
      modify (fun st =>
        if negb (StdMap.mem (fst param) st.(defaultmap))
        then with_defaultmap (StdMap.insert (fst param) (snd param) st.(defaultmap)) st
        else st)) st = Ok tt st'
    /\ st'.(d_params) = st.(d_params)
    /\ st'.(helpmap) = st.(helpmap)
    /\ st'.(d_typeMap) = st.(d_typeMap)
    /\ st'.(d_unknownParams) = st.(d_unknownParams)
    /\ forall k,
         StdMap.find k st'.(defaultmap)
         = match StdMap.find k st.(defaultmap) with
           | Some d => Some d
           | None => StdMap.find k params
           end.
Proof.
  revert st. induction params as [|[k0 v0] params IH]; intros st.
  - exists st. repeat split; trivial. intros k. now destruct (StdMap.find k (defaultmap st)).
  - cbn [for_each fst snd].
    set (st1 := if negb (StdMap.mem k0 (defaultmap st))
                then with_defaultmap (StdMap.insert k0 v0 (defaultmap st)) st else st).
    destruct (IH st1) as (st' & Hrun & Hp & Hh & Ht & Hu & Hd).
    exists st'. unfold bind, modify. fold st1.
    assert (Hframe : d_params st1 = d_params st /\ helpmap st1 = helpmap st
                     /\ d_typeMap st1 = d_typeMap st
                     /\ d_unknownParams st1 = d_unknownParams st).
    { unfold st1. now destruct (negb (StdMap.mem k0 (defaultmap st))). }
    destruct Hframe as (F1 & F2 & F3 & F4).
    split; [exact Hrun|]. repeat split; try congruence.
    intros k. rewrite Hd. cbn [StdMap.find]. unfold st1, StdMap.insert, StdMap.mem.
    destruct (StdMap.find k0 (defaultmap st)) as [d0|] eqn:E0; cbn [negb].
    + destruct (StdMap.find k (defaultmap st)) eqn:E; [reflexivity|].
      destruct (String.eqb_spec k k0) as [->|_]; [congruence | reflexivity].
    + cbn [defaultmap with_defaultmap].
      destruct (String.eqb_spec k k0) as [->|Hne].
      * now rewrite find_assign_same, E0.
      * rewrite find_assign_other by congruence. reflexivity.
Qed.

(** X4: [setDefaults] gives every declared parameter a default: a name
    that had one keeps it, any other gets its current value; the values,
    help texts, types and unknown settings are not touched. *)
Theorem setDefaults_fills_missing (st : ArgvMap) :
  exists st',
    setDefaults st = Ok tt st'
    /\ st'.(d_params) = st.(d_params)
    /\ st'.(helpmap) = st.(helpmap)
    /\ st'.(d_typeMap) = st.(d_typeMap)
    /\ st'.(d_unknownParams) = st.(d_unknownParams)
    /\ (forall k,
          StdMap.find k st'.(defaultmap)
          = match StdMap.find k st.(defaultmap) with
            | Some d => Some d
            | None => StdMap.find k st.(d_params)
            end)
    /\ (forall k, StdMap.mem k st.(d_params) = true ->
                  StdMap.mem k st'.(defaultmap) = true).
Proof.
  destruct (setDefaults_loop (d_params st) st) as (st' & Hrun & Hp & Hh & Ht & Hu & Hd).
  exists st'. split; [exact Hrun|]. repeat split; trivial.
  intros k Hk. unfold StdMap.mem in *. rewrite Hd.
  destruct (StdMap.find k (defaultmap st)); [reflexivity | exact Hk].
Qed.

(** X5: [setDefault] registers a default only once: on a name without one
    it records the value, on a name with one it changes nothing, and either
    way no other name's default moves; a second call with any value is
    without effect. *)
Theorem setDefault_first_wins (var value : string) (st : ArgvMap) :
  exists st',
    setDefault var value st = Ok tt st'
    /\ StdMap.find var st'.(defaultmap)
       = Some (match StdMap.find var st.(defaultmap) with
               | Some d => d
               | None => value
               end)
    /\ (forall k, k <> var ->
                  StdMap.find k st'.(defaultmap) = StdMap.find k st.(defaultmap))
    /\ st'.(d_params) = st.(d_params)
    /\ (forall value2, setDefault var value2 st' = Ok tt st').
Proof.
  assert (Hidem : forall s d v2, StdMap.find var (defaultmap s) = Some d ->
                                 setDefault var v2 s = Ok tt s).
  { intros s d v2 Hs. unfold setDefault, modify, StdMap.mem. now rewrite Hs. }
  destruct (StdMap.find var (defaultmap st)) as [d|] eqn:E.
  - exists st. rewrite (Hidem st d value E). repeat split; trivial.
    intros v2. exact (Hidem st d v2 E).
  - eexists. split.
    + unfold setDefault, modify, StdMap.insert, StdMap.mem. rewrite E. reflexivity.
    + cbn. rewrite find_assign_same. repeat split; trivial.
      * intros k Hk. apply find_assign_other. congruence.
      * intros v2. apply (Hidem _ value). cbn. apply find_assign_same.
Qed.

Lemma setDefaults_fills_missing_witness :
  StdMap.mem "daemon" demo_registry.(defaultmap) = false
  /\ StdMap.find "daemon" (final (setDefaults demo_registry)).(defaultmap) = Some "no"
  /\ StdMap.find "b" (final (setDefaults c1_registry)).(defaultmap) = Some "2".
Proof.
  split; [reflexivity|]. split.
  - destruct (setDefaults_fills_missing demo_registry) as (st' & Hrun & _ & _ & _ & _ & Hd & _).
    rewrite Hrun. cbn [final]. rewrite Hd. reflexivity.
  - destruct (setDefaults_fills_missing c1_registry) as (st' & Hrun & _ & _ & _ & _ & Hd & _).
    rewrite Hrun. cbn [final]. rewrite Hd. reflexivity.
Defined.

(** ** The dump in every mode *)

Lemma concat_map_app {A} (f : A -> string) (a b : list A) :
  concat_map f (a ++ b) = concat_map f a ++ concat_map f b.
Proof.
  induction a as [|x a IH]; [reflexivity|].
  cbn [app concat_map]. now rewrite IH, append_assoc.
Qed.

Lemma concat_map_ext {A} (f g : A -> string) (l : list A) :
  (forall x, In x l -> f x = g x) -> concat_map f l = concat_map g l.
Proof.
  induction l as [|x l IH]; intros H; [reflexivity|].
  cbn [concat_map]. rewrite (H x (or_introl eq_refl)), IH; [reflexivity|].
  intros y Hy. apply H. now right.
Qed.

Lemma for_fold_app {A B} (a b : list A) (acc : B) (body : A -> B -> M B) (st : ArgvMap) :
  for_fold (a ++ b) acc body st
  = (acc' <- for_fold a acc body ;; for_fold b acc' body) st.
Proof.
  revert acc st. induction a as [|x a IH]; intros acc st; [reflexivity|].
  cbn [app for_fold]. unfold bind.
  destruct (body x acc st) as [acc1 st1|e st1]; [|reflexivity].
  rewrite IH. reflexivity.
Qed.

Section DumpModes.

Variable st : ArgvMap.
Variables running full : bool.

Let loop_body := fun (helpitem : string * string) (help : string) =>
  type <- typeMap_index (fst helpitem) ;;
  if String.eqb type "Command" then ret help
  else if String.eqb (fst helpitem) "ignore-unknown-settings" then ret help
  else
    hasdef <- gets (fun st => StdMap.mem (fst helpitem) st.(defaultmap)) ;;
    if negb hasdef then throw (MissingDefault (fst helpitem))
    else
      d <- defaultmap_index (fst helpitem) ;;
      c <- params_index (fst helpitem) ;;
      ret (help ++ formatOne running full (fst helpitem) (snd helpitem) d c).

(** One turn of the loop on a setting that has a value and a type. *)
Lemma dump_step (k h help : string) :
  StdMap.mem k st.(d_params) = true ->
  StdMap.mem k st.(d_typeMap) = true ->
  loop_body (k, h) help st
  = if lacks_default st k then Throw (MissingDefault k) st
    else Ok (help ++ item_text running full st (k, h)) st.
Proof.
  intros Hp Ht. apply mem_find in Hp as [c Hp]. apply mem_find in Ht as [ty Ht].
  unfold loop_body, lacks_default, item_text. cbn [fst snd].
  rewrite (value_or_empty_find _ _ _ Ht).
  rewrite (bind_ok _ _ _ _ _ (typeMap_index_present _ _ _ Ht)).
  destruct (String.eqb ty "Command"); [cbn; now rewrite append_nil_r|].
  destruct (String.eqb k "ignore-unknown-settings"); [cbn; now rewrite append_nil_r|].
  cbn [negb andb]. unfold bind at 1, gets.
  destruct (StdMap.mem k (defaultmap st)) eqn:Hd; cbn [negb]; [|reflexivity].
  apply mem_find in Hd as [d Hd].
  rewrite (bind_ok _ _ _ _ _ (defaultmap_index_present _ _ _ Hd)).
  rewrite (bind_ok _ _ _ _ _ (params_index_present _ _ _ Hp)).
  now rewrite (value_or_empty_find _ _ _ Hd), (value_or_empty_find _ _ _ Hp).
Qed.

Lemma dump_loop_ok (items : list (string * string)) (help : string) :
  forallb (fun helpitem : string * string =>
             StdMap.mem (fst helpitem) st.(d_params)
             && StdMap.mem (fst helpitem) st.(d_typeMap)) items = true ->
  forallb (fun helpitem : string * string => negb (lacks_default st (fst helpitem)))
          items = true ->
  for_fold items help loop_body st
  = Ok (help ++ concat_map (item_text running full st) items) st.
Proof.
  revert help. induction items as [|[k h] items IH]; intros help Hwf Hdef.
  - cbn. now rewrite append_nil_r.
  - cbn [forallb fst] in Hwf, Hdef.
    apply andb_true_iff in Hwf as [Hk Hwf]. apply andb_true_iff in Hk as [Hp Ht].
    apply andb_true_iff in Hdef as [Hd Hdef]. apply negb_true_iff in Hd.
    cbn [for_fold concat_map].
    pose proof (dump_step k h help Hp Ht) as Hstep. rewrite Hd in Hstep.
    rewrite (bind_ok _ _ _ _ _ Hstep), (IH _ Hwf Hdef).
    now rewrite append_assoc.
Qed.

Lemma dump_unknown_loop_modes (unknowns : list (string * string)) (help : string) :
  for_fold unknowns help (fun unknown help =>
    ret (help ++ formatOne running full (fst unknown) "unknown setting" "" (snd unknown))) st
  = Ok (help ++ concat_map (fun unknown : string * string =>
                              formatOne running full (fst unknown) "unknown setting" ""
                                        (snd unknown)) unknowns) st.
Proof.
  revert help. induction unknowns as [|u unknowns IH]; intros help.
  - cbn. now rewrite append_nil_r.
  - cbn [for_fold concat_map].
    rewrite (bind_ok _ _ _ _ _ (eq_refl : ret _ st = Ok _ st)), IH.
    now rewrite append_assoc.
Qed.

Lemma defaults_set_no_lack :
  defaults_set st = true ->
  forallb (fun helpitem : string * string => negb (lacks_default st (fst helpitem)))
          st.(helpmap) = true.
Proof.
  unfold defaults_set. rewrite andb_true_iff. intros [_ H].
  rewrite forallb_forall in *. intros x Hx. specialize (H x Hx).
  unfold lacks_default. apply negb_true_iff.
  apply orb_true_iff in H as [->| ->]; cbn [negb andb]; [reflexivity|].
  now rewrite !andb_false_r.
Qed.

(** In every mode [configstring] writes the banner and [dump_text], and
    leaves a well-formed registry with all its defaults as it is. *)
Lemma configstring_text (nowTime : string) :
  registry_wf st = true ->
  defaults_set st = true ->
  configstring nowTime running full st
  = Ok (banner running nowTime ++ dump_text running full st) st.
Proof.
  intros Hwf Hdef. pose proof (defaults_set_no_lack Hdef) as Hno.
  destruct (wf_ignore_declared _ Hwf) as [c Hp].
  unfold registry_wf, defaults_set in *. rewrite andb_true_iff in Hwf, Hdef.
  destruct Hwf as [Hh Hwf]. destruct Hdef as [Hd _].
  apply mem_find in Hh as [h Hh]. apply mem_find in Hd as [d Hd].
  unfold configstring.
  rewrite (bind_ok _ _ _ _ _ (helpmap_index_present _ _ _ Hh)).
  rewrite (bind_ok _ _ _ _ _ (defaultmap_index_present _ _ _ Hd)).
  rewrite (bind_ok _ _ _ _ _ (params_index_present _ _ _ Hp)).
  rewrite (bind_ok _ _ _ _ _ (eq_refl : gets helpmap st = Ok _ st)).
  fold loop_body. rewrite (bind_ok _ _ _ _ _ (dump_loop_ok _ _ Hwf Hno)).
  unfold dump_text, banner.
  rewrite (value_or_empty_find _ _ _ Hh), (value_or_empty_find _ _ _ Hd),
    (value_or_empty_find _ _ _ Hp).
  pose proof dump_unknown_loop_modes as Hu.
  destruct running.
  - rewrite (bind_ok _ _ _ _ _ (eq_refl : gets d_unknownParams st = Ok _ st)).
    rewrite Hu. now rewrite !append_assoc.
  - unfold ret. now rewrite append_nil_r, !append_assoc.
Qed.

(** The first declared setting without a default stops the dump. *)
Lemma configstring_missing (nowTime k h : string) (pre post : list (string * string)) :
  registry_wf st = true ->
  StdMap.mem "ignore-unknown-settings" st.(defaultmap) = true ->
  st.(helpmap) = (pre ++ (k, h) :: post)%list ->
  forallb (fun helpitem : string * string => negb (lacks_default st (fst helpitem)))
          pre = true ->
  lacks_default st k = true ->
  configstring nowTime running full st = Throw (MissingDefault k) st.
Proof.
  intros Hwf Hd Hitems Hpre Hk.
  destruct (wf_ignore_declared _ Hwf) as [c Hp].
  unfold registry_wf in Hwf. rewrite andb_true_iff in Hwf. destruct Hwf as [Hh Hwf].
  apply mem_find in Hh as [h0 Hh]. apply mem_find in Hd as [d Hd].
  unfold configstring.
  rewrite (bind_ok _ _ _ _ _ (helpmap_index_present _ _ _ Hh)).
  rewrite (bind_ok _ _ _ _ _ (defaultmap_index_present _ _ _ Hd)).
  rewrite (bind_ok _ _ _ _ _ (params_index_present _ _ _ Hp)).
  rewrite (bind_ok _ _ _ _ _ (eq_refl : gets helpmap st = Ok _ st)).
  fold loop_body. rewrite Hitems in Hwf |- *.
  rewrite forallb_app in Hwf. apply andb_true_iff in Hwf as [Hwf1 Hwf2].
  cbn [forallb fst] in Hwf2. apply andb_true_iff in Hwf2 as [Hkwf _].
  apply andb_true_iff in Hkwf as [Hkp Hkt].
  apply bind_throw. rewrite for_fold_app.
  rewrite (bind_ok _ _ _ _ _ (dump_loop_ok _ _ Hwf1 Hpre)).
  cbn [for_fold]. apply bind_throw.
  rewrite (dump_step k h _ Hkp Hkt), Hk. reflexivity.
Qed.

End DumpModes.

(** X6: on a reachable registry in which every declared non-Command
    parameter has a default, [configstring] returns in every mode, never
    throws, and leaves the registry exactly as it was. *)
Theorem configstring_total_on_reachable
        (nowTime : string) (running full : bool) (st : ArgvMap) :
  reachable st ->
  defaults_set st = true ->
  configstring nowTime running full st
  = Ok (banner running nowTime ++ dump_text running full st) st.
Proof.
  intros Hreach Hdef. apply configstring_text; [now apply reachable_wf | exact Hdef].
Qed.

Lemma configstring_total_on_reachable_witness :
  configstring "T" false true demo_registry
  = Ok (banner false "T" ++ dump_text false true demo_registry) demo_registry.
Proof.
  apply configstring_total_on_reachable; [apply reachable_demo | reflexivity].
Defined.

Lemma setDefaults_defaults_set (st : ArgvMap) :
  registry_wf st = true -> defaults_set (final (setDefaults st)) = true.
Proof.
  intros Hwf. destruct (wf_ignore_declared _ Hwf) as [ign Hign].
  destruct (setDefaults_fills_missing st) as (st' & Hrun & Hp & Hh & Ht & _ & _ & Hall).
  rewrite Hrun. cbn [final]. unfold defaults_set. rewrite Hh, Ht.
  rewrite (Hall "ignore-unknown-settings") by (apply mem_find; eauto). cbn [andb].
  unfold registry_wf in Hwf. apply andb_true_iff in Hwf as [_ Hwf].
  rewrite forallb_forall in *. intros x Hx. specialize (Hwf x Hx).
  apply andb_true_iff in Hwf as [Hxp _]. rewrite (Hall _ Hxp). apply orb_true_r.
Qed.

(** X7: after [setDefaults] a dump cannot fail: on every reachable
    registry, [setDefaults] followed by [configstring], in any mode,
    returns. *)
Theorem setDefaults_then_configstring
        (nowTime : string) (running full : bool) (st : ArgvMap) :
  reachable st ->
  exists out st',
    (setDefaults ;; configstring nowTime running full) st = Ok out st'
    /\ st'.(d_params) = st.(d_params).
Proof.
  intros Hreach.
  assert (Hreach' : reachable (final (setDefaults st)))
    by (apply reachable_call; [exact Hreach | constructor]).
  pose proof (setDefaults_defaults_set st (reachable_wf _ Hreach)) as Hdef.
  destruct (setDefaults_fills_missing st) as (st' & Hrun & Hp & _).
  rewrite Hrun in Hreach', Hdef. cbn [final] in Hreach', Hdef.
  exists (banner running nowTime ++ dump_text running full st'), st'.
  split; [|exact Hp].
  rewrite (bind_ok _ _ _ _ _ Hrun).
  now apply configstring_total_on_reachable.
Qed.

Lemma setDefaults_then_configstring_witness :
  exists out st',
    (setDefaults ;; configstring "T" true true) no_default_registry = Ok out st'
    /\ st'.(d_params) = no_default_registry.(d_params).
Proof.
  apply setDefaults_then_configstring.
  unfold no_default_registry. apply reachable_call; [apply reachable_demo | constructor].
Defined.

Lemma formatOne_template (full : bool) (var help theDefault current : string) :
  formatOne false full var help theDefault current
  = block_header var help ++ "# " ++ var ++ "=" ++ theDefault ++ Str.NL ++ Str.NL.
Proof.
  unfold formatOne, block_header. cbn [negb orb]. now rewrite !append_assoc.
Qed.

(** X8: the template ([running] false) is made of the help texts, types
    and defaults alone: two registries that agree on those get the same
    text, whatever their current values and unknown settings, whatever
    [full] and the time. *)
Theorem template_ignores_state
        (now1 now2 : string) (full1 full2 : bool) (st1 st2 : ArgvMap) :
  registry_wf st1 = true -> defaults_set st1 = true ->
  registry_wf st2 = true -> defaults_set st2 = true ->
  st1.(helpmap) = st2.(helpmap) ->
  st1.(d_typeMap) = st2.(d_typeMap) ->
  st1.(defaultmap) = st2.(defaultmap) ->
  exists out,
    configstring now1 false full1 st1 = Ok out st1
    /\ configstring now2 false full2 st2 = Ok out st2.
Proof.
  intros Hwf1 Hd1 Hwf2 Hd2 Hh Ht Hd.
  exists (banner false now1 ++ dump_text false full1 st1). split.
  - now apply configstring_text.
  - rewrite (configstring_text st2 false full2 now2 Hwf2 Hd2).
    f_equal. unfold banner. f_equal. unfold dump_text.
    rewrite !formatOne_template, Hh, Hd. f_equal. f_equal.
    apply concat_map_ext. intros x _. unfold item_text.
    now rewrite !formatOne_template, Ht, Hd.
Qed.

Lemma template_ignores_state_witness :
  exists out,
    configstring "T1" false true demo_registry = Ok out demo_registry
    /\ configstring "T2" false false c8_registry = Ok out c8_registry.
Proof.
  apply template_ignores_state; reflexivity.
Defined.

Lemma defaultmap_index_final (k : string) (st : ArgvMap) :
  defaultmap_index k st
  = Ok (fst (StdMap.index k st.(defaultmap)))
       (with_defaultmap (snd (StdMap.index k st.(defaultmap))) st).
Proof. unfold defaultmap_index. now destruct (StdMap.index k (defaultmap st)). Qed.

Lemma with_ignore_default_eq (st : ArgvMap) :
  with_ignore_default st
  = with_defaultmap (snd (StdMap.index "ignore-unknown-settings" st.(defaultmap))) st.
Proof. unfold with_ignore_default. now rewrite defaultmap_index_final. Qed.

Lemma with_ignore_default_id (st : ArgvMap) :
  StdMap.mem "ignore-unknown-settings" st.(defaultmap) = true ->
  with_ignore_default st = st.
Proof.
  intros H. apply mem_find in H as [d H]. unfold with_ignore_default.
  now rewrite (defaultmap_index_present _ _ _ H).
Qed.

Lemma mem_with_ignore_default (k : string) (st : ArgvMap) :
  StdMap.mem k (with_ignore_default st).(defaultmap)
  = String.eqb k "ignore-unknown-settings" || StdMap.mem k st.(defaultmap).
Proof.
  rewrite with_ignore_default_eq. cbn [defaultmap with_defaultmap].
  destruct (String.eqb_spec k "ignore-unknown-settings") as [->|Hne].
  - apply mem_index_same.
  - unfold StdMap.mem. rewrite find_index_other by congruence. reflexivity.
Qed.

Lemma lacks_default_with_ignore (k : string) (st : ArgvMap) :
  lacks_default (with_ignore_default st) k = lacks_default st k.
Proof.
  unfold lacks_default. rewrite mem_with_ignore_default, with_ignore_default_eq.
  cbn [d_typeMap with_defaultmap].
  destruct (String.eqb k "ignore-unknown-settings"); [|reflexivity].
  cbn [negb orb]. now rewrite !andb_false_r.
Qed.

(** The dump begins by reading the constructor's setting, default
    included, so it runs as on the registry that has that default. *)
Lemma configstring_ignore_default (nowTime : string) (running full : bool) (st : ArgvMap) :
  registry_wf st = true ->
  configstring nowTime running full st
  = configstring nowTime running full (with_ignore_default st).
Proof.
  intros Hwf. unfold registry_wf in Hwf. apply andb_true_iff in Hwf as [Hh _].
  apply mem_find in Hh as [h Hh].
  assert (Hh1 : StdMap.find "ignore-unknown-settings" (with_ignore_default st).(helpmap)
                = Some h) by (now rewrite with_ignore_default_eq).
  assert (Hd1 : StdMap.find "ignore-unknown-settings" (with_ignore_default st).(defaultmap)
                = Some (fst (StdMap.index "ignore-unknown-settings" st.(defaultmap)))).
  { rewrite with_ignore_default_eq. cbn [defaultmap with_defaultmap].
    apply find_index_same. }
  unfold configstring.
  rewrite (bind_ok _ _ _ _ _ (helpmap_index_present _ _ _ Hh)).
  rewrite (bind_ok _ _ _ _ _ (helpmap_index_present _ _ _ Hh1)).
  rewrite (bind_ok _ _ _ _ _ (defaultmap_index_final _ st)).
  rewrite (bind_ok _ _ _ _ _ (defaultmap_index_present _ _ _ Hd1)).
  now rewrite <- with_ignore_default_eq.
Qed.

(** X9: what stops a dump.  A declared setting other than
    ignore-unknown-settings that is not a Command and has no default makes
    [configstring], in every mode, throw MissingDefault for the first such
    name in key order; when there is none the dump returns.
    ignore-unknown-settings itself never stops it: its default is read with
    [operator[]], which registers the empty default when there is none, and
    that is the only change to the registry, whether the call returns or
    throws. *)
Theorem configstring_missing_default
        (nowTime : string) (running full : bool) (st : ArgvMap) :
  registry_wf st = true ->
  (forall k h pre post,
      st.(helpmap) = (pre ++ (k, h) :: post)%list ->
      forallb (fun helpitem : string * string => negb (lacks_default st (fst helpitem)))
              pre = true ->
      lacks_default st k = true ->
      configstring nowTime running full st
      = Throw (MissingDefault k) (with_ignore_default st))
  /\ (forallb (fun helpitem : string * string => negb (lacks_default st (fst helpitem)))
              st.(helpmap) = true ->
      configstring nowTime running full st
      = Ok (banner running nowTime ++ dump_text running full (with_ignore_default st))
           (with_ignore_default st))
  /\ (StdMap.mem "ignore-unknown-settings" st.(defaultmap) = true ->
      with_ignore_default st = st).
Proof.
  intros Hwf.
  assert (Hwf1 : registry_wf (with_ignore_default st) = true)
    by (now rewrite with_ignore_default_eq).
  assert (Hd1 : StdMap.mem "ignore-unknown-settings" (with_ignore_default st).(defaultmap)
                = true) by (now rewrite mem_with_ignore_default).
  split; [|split].
  - intros k h pre post Hitems Hpre Hk.
    rewrite (configstring_ignore_default _ _ _ _ Hwf).
    apply (configstring_missing (with_ignore_default st) running full nowTime k h pre post);
      trivial.
    + now rewrite with_ignore_default_eq.
    + rewrite forallb_forall in *. intros x Hx.
      rewrite lacks_default_with_ignore. now apply Hpre.
    + now rewrite lacks_default_with_ignore.
  - intros Hno. rewrite (configstring_ignore_default _ _ _ _ Hwf).
    apply configstring_text; [exact Hwf1|].
    unfold defaults_set. rewrite Hd1. cbn [andb].
    replace (helpmap (with_ignore_default st)) with (helpmap st)
      by (now rewrite with_ignore_default_eq).
    rewrite forallb_forall in *. intros x Hx. specialize (Hno x Hx).
    rewrite mem_with_ignore_default.
    replace (d_typeMap (with_ignore_default st)) with (d_typeMap st)
      by (now rewrite with_ignore_default_eq).
    unfold lacks_default in Hno.
    destruct (String.eqb (value_or_empty (fst x) (d_typeMap st)) "Command");
      [reflexivity|].
    destruct (String.eqb (fst x) "ignore-unknown-settings"); [reflexivity|].
    cbn [negb andb orb] in *. now apply negb_true_iff in Hno; apply negb_false_iff in Hno.
  - apply with_ignore_default_id.
Qed.

Lemma configstring_missing_default_witness :
  configstring "T" true false no_default_registry
  = Throw (MissingDefault "z") no_default_registry
  /\ configstring "T" true false bare_registry
     = Throw (MissingDefault "z") (with_ignore_default bare_registry)
  /\ StdMap.find "ignore-unknown-settings" bare_registry.(defaultmap) = None
  /\ StdMap.find "ignore-unknown-settings" (with_ignore_default bare_registry).(defaultmap)
     = Some ""
  /\ exists out,
       configstring "T" true false (final (ArgvMap_ctor empty_ArgvMap))
       = Ok out (with_ignore_default (final (ArgvMap_ctor empty_ArgvMap))).
Proof.
  split; [|split; [|split; [|split]]].
  - pose proof (configstring_missing_default "T" true false no_default_registry eq_refl)
      as [H [_ Hid]].
    rewrite <- (Hid eq_refl) at 2.
    apply (H "z" "a setting without a default"
             (firstn 6 no_default_registry.(helpmap)) []); reflexivity.
  - apply (proj1 (configstring_missing_default "T" true false bare_registry eq_refl)
             "z" "a setting without a default"
             (firstn 1 bare_registry.(helpmap)) []); reflexivity.
  - reflexivity.
  - reflexivity.
  - eexists.
    apply (proj1 (proj2 (configstring_missing_default "T" true false
                           (final (ArgvMap_ctor empty_ArgvMap)) eq_refl))).
    reflexivity.
Defined.

(** X10: a Command other than ignore-unknown-settings never shows in a
    dump: on a well-formed registry whose defaults are set, giving such a
    setting any value changes no character of the text, in any mode.  (The
    constructor's setting is written first, before the kind of a setting is
    looked at, so it is the one name for which this does not hold.) *)
Theorem command_values_not_dumped
        (nowTime k v : string) (running full : bool) (st : ArgvMap) :
  registry_wf st = true ->
  defaults_set st = true ->
  value_or_empty k st.(d_typeMap) = "Command" ->
  k <> "ignore-unknown-settings" ->
  exists out,
    configstring nowTime running full st = Ok out st
    /\ configstring nowTime running full (with_params (StdMap.assign k v st.(d_params)) st)
       = Ok out (with_params (StdMap.assign k v st.(d_params)) st).
Proof.
  intros Hwf Hdef Hty Hne.
  set (st' := with_params (StdMap.assign k v st.(d_params)) st).
  assert (Hwf' : registry_wf st' = true).
  { unfold registry_wf in *. apply andb_true_iff in Hwf as [Hh Hwf].
    apply andb_true_iff. split; [exact Hh|].
    rewrite forallb_forall in *. intros x Hx. specialize (Hwf x Hx).
    apply andb_true_iff in Hwf as [Hp Ht]. apply andb_true_iff. split; [|exact Ht].
    cbn. now apply mem_assign_mono. }
  exists (banner running nowTime ++ dump_text running full st). split.
  - now apply configstring_text.
  - rewrite (configstring_text st' running full nowTime Hwf' Hdef).
    f_equal. f_equal. unfold dump_text, st'. cbn [helpmap defaultmap d_params
      d_unknownParams with_params].
    unfold value_or_empty at 3.
    rewrite (find_assign_other k "ignore-unknown-settings" v) by exact Hne.
    fold (value_or_empty "ignore-unknown-settings" (d_params st)).
    f_equal. f_equal. apply concat_map_ext. intros [k' h'] _.
    unfold item_text. cbn [fst snd d_typeMap defaultmap d_params with_params].
    destruct (String.eqb_spec k k') as [<-|Hk].
    + now rewrite Hty.
    + unfold value_or_empty at 3. rewrite (find_assign_other k k' v) by exact Hk.
      reflexivity.
Qed.

Lemma command_values_not_dumped_witness :
  exists out,
    configstring "T" true true demo_registry = Ok out demo_registry
    /\ configstring "T" true true
         (with_params (StdMap.assign "daemon" "yes" demo_registry.(d_params)) demo_registry)
       = Ok out (with_params (StdMap.assign "daemon" "yes" demo_registry.(d_params))
                             demo_registry).
Proof.
  apply command_values_not_dumped; try reflexivity. discriminate.
Defined.

(** ** The command list *)

Lemma split_arg_command (arg : string) :
  split_arg arg = None <-> is_command arg = true.
Proof.
  unfold split_arg, is_command, Str.contains_char.
  destruct (Str.starts_with "--" arg); cbn [negb andb].
  - split; [|discriminate].
    destruct (Str.find_str "+=" arg); [discriminate|].
    destruct (Str.find_char "=" arg); discriminate.
  - destruct (Ascii.eqb (Str.front arg) "-" && Nat.ltb 1 (String.length arg));
      cbn [negb]; split; congruence.
Qed.

Lemma warned_cmds (lax : bool) (var : string) (st : ArgvMap) :
  d_cmds (warned lax var st) = d_cmds st.
Proof. destruct (warned_log lax var st) as [l ->]. reflexivity. Qed.

(** [parseOne] adds a bare word to the command list and otherwise leaves
    the list alone, whether it returns or throws. *)
Lemma parseOne_cmds (arg : string) (lax : bool) (st : ArgvMap) :
  StdMap.mem "ignore-unknown-settings" st.(d_params) = true ->
  d_cmds (final (parseOne arg "" lax st))
  = (d_cmds st ++ (if is_command arg then [arg] else []))%list.
Proof.
  intros Hign. apply mem_find in Hign as [ign Hign].
  destruct (split_arg arg) as [[[var0 val0] incr]|] eqn:Hs.
  - assert (Hc : is_command arg = false).
    { destruct (is_command arg) eqn:E; [|reflexivity].
      apply split_arg_command in E. congruence. }
    rewrite Hc, app_nil_r.
    destruct (Str.empty (Str.trim var0)) eqn:He.
    { rewrite (parseOne_skip _ _ _ _ _ lax st Hs); [reflexivity|]. now rewrite He. }
    destruct (StdMap.find (Str.trim var0) (d_params st)) as [cur|] eqn:Hf.
    + rewrite (parseOne_declared _ "" _ _ _ _ lax st Hs He eq_refl Hf). cbv zeta.
      destruct incr; [destruct (Str.empty cur);
                      [destruct (StdSet.mem (Str.trim var0) (d_cleared st))|]|];
        cbn; apply warned_cmds.
    + rewrite (parseOne_undeclared _ "" _ _ _ _ lax st Hs He eq_refl Hf Hign). cbv zeta.
      destruct (existsb _ _); [cbn; apply warned_cmds|].
      destruct lax; [reflexivity | exact (warned_cmds false _ st)].
  - rewrite (parseOne_command _ _ _ _ Hs). cbn.
    now rewrite (proj1 (split_arg_command arg) Hs).
Qed.

Lemma parse_loop_cmds (args : list string) (lax : bool) (st st' : ArgvMap) :
  StdMap.mem "ignore-unknown-settings" st.(d_params) = true ->
  for_each args (fun a => parseOne a "" lax) st = Ok tt st' ->
  d_cmds st' = (d_cmds st ++ filter is_command args)%list.
Proof.
  revert st. induction args as [|a args IH]; intros st Hign Hrun.
  - cbn in Hrun. injection Hrun as <-. now rewrite app_nil_r.
  - cbn [for_each] in Hrun. apply bind_Ok_inv in Hrun as (u & st1 & H1 & Hrun).
    pose proof (parseOne_cmds a lax st Hign) as Hc. rewrite H1 in Hc. cbn [final] in Hc.
    pose proof (inv_parseOne _ (stable_declared "ignore-unknown-settings") a "" lax st Hign)
      as Hign1.
    rewrite H1 in Hign1. cbn [final] in Hign1.
    rewrite (IH st1 Hign1 Hrun), Hc, <- app_assoc. cbn [filter].
    now destruct (is_command a).
Qed.

(** X11: after a [parse] that returned, [getCommands] gives exactly the
    bare words of that argument vector, in order: the arguments that do not
    begin with "--" and are not "-" followed by something.  [argv[0]] and
    the commands of any earlier parse are not among them. *)
Theorem parse_collects_commands (prog : string) (args : list string) (lax : bool)
        (st st' : ArgvMap) :
  StdMap.mem "ignore-unknown-settings" st.(d_params) = true ->
  parse (prog :: args) lax st = Ok tt st' ->
  getCommands st' = Ok (filter is_command args) st'.
Proof.
  intros Hign Hrun. rewrite parse_unfold in Hrun.
  apply parse_loop_cmds in Hrun; [|exact Hign].
  unfold getCommands, gets. now rewrite Hrun.
Qed.

Lemma parse_collects_commands_witness :
  getCommands (final (parse ["pdns"; "start"; "--b=5"; "-"; "now"; "-a"] false
                            (with_cmds ["old"] demo_registry)))
  = Ok ["start"; "-"; "now"]
       (final (parse ["pdns"; "start"; "--b=5"; "-"; "now"; "-a"] false
                     (with_cmds ["old"] demo_registry))).
Proof.
  apply (parse_collects_commands "pdns" ["start"; "--b=5"; "-"; "now"; "-a"] false
           (with_cmds ["old"] demo_registry)).
  - reflexivity.
  - vm_compute. reflexivity.
Defined.

(** ** Pre-parsing a file *)

Lemma parseFile_loop_invariant (P : ArgvMap -> Prop) (arg : string) (lax : bool) :
  (forall a, invariant P (parseOne a arg lax)) ->
  forall plines line, invariant P (parseFile_loop plines line arg lax).
Proof.
  intros Hone plines. induction plines as [|pline plines IH]; intros line;
    cbn [parseFile_loop].
  - apply inv_ret.
  - apply inv_if; [apply IH|]. apply inv_bind; [apply Hone | intros _; apply IH].
Qed.

(** With a filter, [parseOne] touches no value but the filter's. *)
Lemma parseOne_filter_frame (st0 : ArgvMap) (a arg : string) (lax : bool) :
  Str.empty arg = false ->
  invariant (fun s => StdMap.mem "ignore-unknown-settings" s.(d_params) = true
                      /\ forall k, k <> arg ->
                                   StdMap.find k s.(d_params) = StdMap.find k st0.(d_params))
            (parseOne a arg lax).
Proof.
  intros Harg st [Hign Hframe]. cbv beta.
  pose proof Hign as Hign'. apply mem_find in Hign' as [ign Hi].
  destruct (split_arg a) as [[[var0 val0] incr]|] eqn:Hs.
  2:{ rewrite (parseOne_command _ _ _ _ Hs). now split. }
  destruct (negb (Str.empty (Str.trim var0))
            && (Str.empty arg || String.eqb (Str.trim var0) arg)) eqn:Hpass.
  2:{ rewrite (parseOne_skip _ _ _ _ _ lax st Hs Hpass). now split. }
  apply andb_true_iff in Hpass as [He Hf]. apply negb_true_iff in He.
  rewrite Harg in Hf. cbn [orb] in Hf. pose proof Hf as Heq.
  apply String.eqb_eq in Heq.
  assert (Hfilter : Str.empty arg || String.eqb (Str.trim var0) arg = true)
    by (now rewrite Hf, orb_true_r).
  destruct (warned_log lax (Str.trim var0) st) as [l Hl].
  assert (Hassign : forall v s,
             d_params s = StdMap.assign (Str.trim var0) v (d_params st) ->
             StdMap.mem "ignore-unknown-settings" (d_params s) = true
             /\ forall k, k <> arg ->
                          StdMap.find k (d_params s) = StdMap.find k (d_params st0)).
  { intros v s ->. split; [now apply mem_assign_mono|].
    intros k Hk. rewrite find_assign_other by congruence. now apply Hframe. }
  destruct (StdMap.find (Str.trim var0) (d_params st)) as [cur|] eqn:Hfind.
  - rewrite (parseOne_declared _ arg _ _ _ _ lax st Hs He Hfilter Hfind). cbv zeta.
    rewrite Hl.
    destruct incr; [destruct (Str.empty cur);
                    [destruct (StdSet.mem (Str.trim var0) (d_cleared st))|]|];
      cbn [final]; try (eapply Hassign; reflexivity).
    now split.
  - rewrite (parseOne_undeclared _ arg _ _ _ _ lax st Hs He Hfilter Hfind Hi). cbv zeta.
    rewrite Hl. destruct (existsb _ _); [now split|]. destruct lax; now split.
Qed.

(** X12: [preParseFile], asked for a name that is not empty, sets that
    name and no other: whatever the file holds, unknown names and malformed
    lines included, every other declared value is as before, also when the
    call throws or the file cannot be opened; and the name itself is
    declared afterwards.  (With the empty name [parseOne] does not filter,
    and every line of the file is applied.) *)
Theorem preParseFile_touches_one_name
        (fs : FileSystem) (fname arg theDefault : string) (st : ArgvMap) :
  Str.empty arg = false ->
  StdMap.mem "ignore-unknown-settings" st.(d_params) = true ->
  (forall k, k <> arg ->
             StdMap.find k (final (preParseFile fs fname arg theDefault st)).(d_params)
             = StdMap.find k st.(d_params))
  /\ StdMap.mem arg (final (preParseFile fs fname arg theDefault st)).(d_params) = true
  /\ (fs_ifstream fs fname = None ->
      preParseFile fs fname arg theDefault st
      = Ok false (with_params (StdMap.assign arg theDefault st.(d_params)) st)).
Proof.
  intros Harg Hign.
  set (st1 := with_params (StdMap.assign arg theDefault st.(d_params)) st).
  assert (Hrun : preParseFile fs fname arg theDefault st = parseFile fs fname arg false st1)
    by reflexivity.
  split; [|split].
  - rewrite Hrun. unfold parseFile.
    assert (H1 : StdMap.mem "ignore-unknown-settings" st1.(d_params) = true
                 /\ forall k, k <> arg ->
                              StdMap.find k st1.(d_params) = StdMap.find k st.(d_params)).
    { split; [now apply mem_assign_mono|]. intros k Hk. cbn.
      apply find_assign_other. congruence. }
    destruct (fs_ifstream fs fname) as [content|]; [|apply H1].
    pose proof (parseFile_loop_invariant _ arg false
                  (fun a => parseOne_filter_frame st a arg false Harg)
                  (Str.getlines content) "" st1 H1) as [_ H2].
    unfold bind. destruct (parseFile_loop _ _ _ _ st1); exact H2.
  - rewrite Hrun.
    apply (inv_parseFile _ (stable_declared arg) fs fname arg false st1).
    apply mem_assign_same.
  - intros Hnone. rewrite Hrun. unfold parseFile. now rewrite Hnone.
Qed.

Lemma preParseFile_touches_one_name_witness :
  StdMap.find "a" (final (preParseFile preparse_fs "pdns.conf" "b" "0" demo_registry)).(d_params)
  = Some "1"
  /\ StdMap.find "b"
       (final (preParseFile preparse_fs "pdns.conf" "b" "0" demo_registry)).(d_params)
     = Some "8, 9".
Proof.
  split.
  - rewrite (proj1 (preParseFile_touches_one_name preparse_fs "pdns.conf" "b" "0"
                      demo_registry eq_refl eq_refl) "a"); [reflexivity | discriminate].
  - vm_compute. reflexivity.
Defined.

(** ** Files and includes *)

(** X13: a top-level file that cannot be opened is not an error: [file]
    returns false, having logged one warning and declared include-dir if it
    was not; every value that was set is still set. *)
Theorem file_missing (fs : FileSystem) (fname : string) (lax : bool) (st : ArgvMap) :
  fs_ifstream fs fname = None ->
  exists st',
    file fs fname lax st = Ok false st'
    /\ st'.(g_log) = (st.(g_log) ++ [(Warning, ("Unable to open " ++ fname)%string)])%list
    /\ StdMap.mem "include-dir" st'.(d_params) = true
    /\ (forall k v, StdMap.find k st.(d_params) = Some v ->
                    StdMap.find k st'.(d_params) = Some v).
Proof.
  intros Hnone. unfold file, file3, file_with, parseFile. rewrite Hnone.
  unfold parmIsset, gets, bind at 1.
  destruct (StdMap.mem "include-dir" (d_params st)) eqn:Hm; cbn [negb].
  - eexists. split; [reflexivity|]. cbn. repeat split; trivial.
  - unfold set_help, set, params_index, helpmap_assign, typeMap_assign, modify, bind.
    cbn [d_params with_typeMap with_helpmap]. unfold StdMap.index.
    apply mem_false_find in Hm. rewrite Hm.
    eexists. split; [reflexivity|]. cbn. repeat split; trivial.
    + apply mem_assign_same.
    + intros k v Hk. rewrite find_assign_other; [exact Hk | congruence].
Qed.

Lemma file_missing_witness :
  exists st',
    file c6_fs "/nonexistent" false demo_registry = Ok false st'
    /\ StdMap.mem "include-dir" st'.(d_params) = true.
Proof.
  destruct (file_missing c6_fs "/nonexistent" false demo_registry eq_refl)
    as (st' & H1 & _ & H2 & _).
  exists st'. now split.
Defined.

(** X14: an included file never opens the include directory: with
    [included] set, [file] depends on the file system only through the one
    file it reads, so an include-dir set inside it is not followed. *)
Theorem included_file_does_not_include
        (fs1 fs2 : FileSystem) (fname : string) (lax : bool) (st : ArgvMap) :
  fs_ifstream fs1 fname = fs_ifstream fs2 fname ->
  file3 fs1 fname lax true st = file3 fs2 fname lax true st.
Proof.
  intros H. unfold file3, file_with, parseFile. rewrite H. reflexivity.
Qed.

Lemma included_file_does_not_include_witness :
  file3 c2_fs "pdns.conf" false true demo_registry
  = file3 (mkFileSystem (fs_ifstream c2_fs) (fun _ => inr ["x.conf"]) (fun _ => false)
                         Ext.ties_keep)
          "pdns.conf" false true demo_registry.
Proof. apply included_file_does_not_include. reflexivity. Defined.

(** X15: a gathered file that cannot be opened is fatal: when the
    top-level file has been read and the first gathered name cannot be
    opened, [file] throws "could not be parsed" for it, and none of the
    files after it is read. *)
Theorem included_file_unreadable
        (fs : FileSystem) (fname dir f : string) (rest : list string) (lax : bool)
        (st st1 : ArgvMap) :
  file_included fs fname lax st = Ok true st1 ->
  StdMap.find "include-dir" st1.(d_params) = Some dir ->
  Str.empty dir = false ->
  gatherIncludes fs dir ".conf" [] st1 = Ok (f :: rest) st1 ->
  fs_ifstream fs f = None ->
  exists st',
    file fs fname lax st = Throw (CouldNotBeParsed f) st'
    /\ st'.(d_params) = st1.(d_params)
    /\ st'.(g_log) = (st1.(g_log) ++ [(Warning, ("Unable to open " ++ f)%string);
                                      (Error, (f ++ " could not be parsed")%string)])%list.
Proof.
  intros Hinc Hfind Hne Hg Hnone.
  unfold file_included, file_with in Hinc.
  apply bind_Ok_inv in Hinc as (isset & s1 & H1 & Hinc).
  apply bind_Ok_inv in Hinc as (u & s2 & H2 & Hinc).
  apply bind_Ok_inv in Hinc as (ok & s3 & H3 & Hinc).
  unfold file, file3. unfold file_with at 1.
  rewrite (bind_ok _ _ _ _ _ H1), (bind_ok _ _ _ _ _ H2), (bind_ok _ _ _ _ _ H3).
  destruct ok; cbn [negb andb] in *; [|discriminate].
  injection Hinc as ->.
  rewrite (bind_ok _ _ _ _ _ (params_index_present _ _ _ Hfind)).
  rewrite Hne. cbn [negb].
  rewrite (bind_ok _ _ _ _ _ (params_index_present _ _ _ Hfind)).
  rewrite (bind_ok _ _ _ _ _ Hg). cbn [for_each].
  assert (Hdecl : StdMap.mem "include-dir" st1.(d_params) = true)
    by (apply mem_find; eauto).
  assert (Hf : file_with fs (fun _ _ => ret true) f lax true st1
               = Ok false (with_log (st1.(g_log) ++ [(Warning, ("Unable to open " ++ f)%string)])%list
                                    st1)).
  { unfold file_with, parseFile, parmIsset, gets, bind. rewrite Hdecl, Hnone. reflexivity. }
  eexists. split.
  - apply bind_throw. apply bind_throw. rewrite (bind_ok _ _ _ _ _ Hf). reflexivity.
  - cbn. split; [reflexivity|]. now rewrite <- app_assoc.
Qed.

Lemma included_file_unreadable_witness :
  exists st',
    file unreadable_fs "pdns.conf" false demo_registry
    = Throw (CouldNotBeParsed "/etc/pdns.d/secret.conf") st'.
Proof.
  destruct (included_file_unreadable unreadable_fs "pdns.conf" "/etc/pdns.d"
              "/etc/pdns.d/secret.conf" [] false demo_registry
              (final (file_included unreadable_fs "pdns.conf" false demo_registry)))
    as (st' & H & _).
  - vm_compute. reflexivity.
  - vm_compute. reflexivity.
  - reflexivity.
  - vm_compute. reflexivity.
  - reflexivity.
  - exists st'. exact H.
Defined.

(** ** Edge cases of the line loop *)

Lemma bind_cont_eq {A B} (c : M A) (k1 k2 : A -> M B) (st : ArgvMap) :
  (forall a st', k1 a st' = k2 a st') -> bind c k1 st = bind c k2 st.
Proof. intros H. unfold bind. destruct (c st); [apply H | reflexivity]. Qed.

(** X16: a continuation that nothing follows is lost: when the last line
    of a file ends in a backslash, what was gathered for that logical line
    is never handed to the parser. *)
Theorem trailing_continuation_dropped
        (plines : list string) (p line arg : string) (lax : bool) (st : ArgvMap) :
  ends_in (fun c => Ascii.eqb c Str.backslash) (Str.trim_right p) = true ->
  parseFile_loop (plines ++ [p]) line arg lax st
  = parseFile_loop plines line arg lax st.
Proof.
  intros Hp. revert line st. induction plines as [|pline plines IH]; intros line st.
  - cbn [app]. rewrite (parseFile_loop_continue _ _ _ _ _ Hp). reflexivity.
  - cbn [app parseFile_loop].
    destruct (negb (Str.empty (Str.trim_right pline))
              && option_eqb_backslash (Str.last (Str.trim_right pline))).
    + apply IH.
    + apply bind_cont_eq. intros _ st'. apply IH.
Qed.

Lemma trailing_continuation_dropped_witness :
  parseFile_loop (Str.getlines ("b=3" ++ Str.NL ++ "a=1" ++ String Str.backslash ""))
                 "" "" false demo_registry
  = parseFile_loop ["b=3"] "" "" false demo_registry.
Proof.
  apply (trailing_continuation_dropped ["b=3"] ("a=1" ++ String Str.backslash "")).
  reflexivity.
Defined.

Lemma trim_right_spaces (ws : string) :
  forallb Str.isspace (list_ascii_of_string ws) = true -> Str.trim_right ws = "".
Proof.
  induction ws as [|c ws IH]; [reflexivity|].
  cbn [list_ascii_of_string forallb Str.trim_right]. intros H.
  apply andb_true_iff in H as [Hc Hws]. now rewrite (IH Hws), Hc.
Qed.

Lemma trim_right_append_spaces (s ws : string) :
  forallb Str.isspace (list_ascii_of_string ws) = true ->
  Str.trim_right (s ++ ws) = Str.trim_right s.
Proof.
  intros H. induction s as [|c s IH]; [now apply trim_right_spaces|].
  cbn [append Str.trim_right]. now rewrite IH.
Qed.

(** X17: white space at the end of a physical line, a carriage return
    included, is of no consequence: the loop does with the line what it does
    without it. *)
Theorem trailing_space_ignored
        (pline ws line arg : string) (plines : list string) (lax : bool) :
  forallb Str.isspace (list_ascii_of_string ws) = true ->
  parseFile_loop ((pline ++ ws) :: plines) line arg lax
  = parseFile_loop (pline :: plines) line arg lax.
Proof.
  intros H. cbn [parseFile_loop]. now rewrite (trim_right_append_spaces _ _ H).
Qed.

Lemma trailing_space_ignored_witness :
  parseFile_loop ["a=1" ++ String Str.cr ""] "" "" false demo_registry
  = parseFile_loop ["a=1"] "" "" false demo_registry.
Proof.
  exact (f_equal (fun c => c demo_registry)
                 (trailing_space_ignored "a=1" (String Str.cr "") "" "" [] false eq_refl)).
Defined.

Lemma remove_last_append_char (a : string) (c : ascii) :
  Str.remove_last (a ++ String c "") = a.
Proof.
  induction a as [|d a IH]; [reflexivity|].
  change (String d a ++ String c "") with (String d (a ++ String c "")).
  cbn [Str.remove_last]. destruct (a ++ String c "") eqn:E.
  - now destruct a.
  - now rewrite IH.
Qed.

(** X18: a comment line that ends in a backslash takes the next line with
    it: the two are joined before the comment is cut, so the next line,
    whatever it sets, is not parsed. *)
Theorem comment_continuation_swallows_next
        (text next arg : string) (plines : list string) (lax : bool) (st : ArgvMap) :
  option_eqb_backslash (Str.last (Str.trim_right next)) = false ->
  parseFile_loop (("#" ++ text ++ String Str.backslash "") :: next :: plines) "" arg lax st
  = parseFile_loop plines "" arg lax st.
Proof.
  intros Hnext.
  assert (Hl : Str.last ("#" ++ text ++ String Str.backslash "") = Some Str.backslash).
  { change ("#" ++ text ++ String Str.backslash "")
      with (("#" ++ text) ++ String Str.backslash "").
    apply last_append_char. }
  assert (Htr : Str.trim_right ("#" ++ text ++ String Str.backslash "")
                = "#" ++ text ++ String Str.backslash "").
  { apply trim_right_id. unfold ends_in. now rewrite Hl. }
  rewrite parseFile_loop_continue
    by (rewrite Htr; unfold ends_in; rewrite Hl; reflexivity).
  rewrite Htr.
  change ("#" ++ text ++ String Str.backslash "")
    with (("#" ++ text) ++ String Str.backslash "").
  rewrite remove_last_append_char.
  cbn [parseFile_loop]. rewrite Hnext, andb_false_r.
  change (strip_comment (("" ++ "#" ++ text) ++ Str.trim_right next)) with "".
  change (strip_leading_spaces (Str.trim_right "")) with "".
  now rewrite (bind_ok _ _ _ _ _ (parseOne_empty_line arg lax st)).
Qed.

Lemma comment_continuation_swallows_next_witness :
  parseFile_loop ["# set a" ++ String Str.backslash ""; "a=9"] "" "" false demo_registry
  = Ok tt demo_registry.
Proof.
  exact (comment_continuation_swallows_next " set a" "a=9" "" [] false demo_registry
           eq_refl).
Defined.

(** ** The typed accessors on odd values *)

Lemma strtol_nothing_converted (s : string) (base : Z) :
  snd (Ext.strtol s base) = 0 -> fst (Ext.strtol s base) = 0%Z.
Proof.
  unfold Ext.strtol.
  set (ws := Ext.count_space s). set (s1 := Str.drop ws s).
  destruct (match s1 with
            | String "-" _ => (true, 1)
            | String "+" _ => (false, 1)
            | _ => (false, 0)
            end) as [neg sl].
  set (s2 := Str.drop sl s1).
  destruct (match s2 with
            | String "0" (String x (String h _)) =>
                if (Z.eqb base 0 || Z.eqb base 16) && Ext.is_x x && Ext.is_digit_in 16 h
                then (16%Z, 2)
                else if Z.eqb base 0 then (8%Z, 0) else (base, 0)
            | String "0" _ => if Z.eqb base 0 then (8%Z, 0) else (base, 0)
            | _ => if Z.eqb base 0 then (10%Z, 0) else (base, 0)
            end) as [b pl].
  destruct (Ext.digits b (Str.drop pl s2) 0 0) as [v n].
  destruct n; cbn [fst snd]; [reflexivity | lia].
Qed.

(** X19: [asNum] rejects a non-empty value exactly when [strtol] converts
    no character of it; the test for a zero result adds nothing, and what
    follows the digits is never looked at. *)
Theorem asNum_rejects_only_unconverted (arg cur : string) (def : Z) (st : ArgvMap) :
  StdMap.find arg st.(d_params) = Some cur ->
  Str.empty cur = false ->
  asNum arg def st
  = if Nat.eqb (snd (Ext.strtol cur 0)) 0
    then Throw (MalformedValue ("'" ++ arg ++ "' value '" ++ cur
                                  ++ "' is not a valid number")) st
    else Ok (Ext.to_int (fst (Ext.strtol cur 0))) st.
Proof.
  intros Hfind Hne. rewrite (asNum_declared _ _ _ _ Hfind), Hne.
  pose proof (strtol_nothing_converted cur 0) as Hz.
  destruct (Ext.strtol cur 0) as [v consumed]. cbn [fst snd] in *.
  destruct (Nat.eqb_spec consumed 0) as [->|_].
  - now rewrite (Hz eq_refl).
  - now rewrite andb_false_r.
Qed.

Lemma asNum_rejects_only_unconverted_witness :
  asNum "a" 0%Z (with_params [("a", "12 monkeys")] demo_registry)
  = Ok 12%Z (with_params [("a", "12 monkeys")] demo_registry).
Proof.
  exact (asNum_rejects_only_unconverted "a" "12 monkeys" 0%Z
           (with_params [("a", "12 monkeys")] demo_registry) eq_refl eq_refl).
Defined.

Section EmptyValue.

Variables getgrnam getpwnam : string -> option Z.
Variable double : Type.
Variable double_zero : double.
Variable double_is_zero : double -> bool.
Variable strtod : string -> double * nat.

(** X20: a declared but empty value is not treated alike by the
    accessors: [isEmpty] and [mustDo] answer true, [asNum] gives the caller's
    default, [asDouble] gives zero without calling [strtod], [asMode] throws,
    and [asGid] and [asUid] ask the system for the group or user named "". *)
Theorem accessors_on_empty_value (arg : string) (def : Z) (st : ArgvMap) :
  StdMap.find arg st.(d_params) = Some "" ->
  isEmpty arg st = Ok true st
  /\ mustDo arg st = Ok true st
  /\ asNum arg def st = Ok def st
  /\ asDouble double double_zero double_is_zero strtod arg st = Ok double_zero st
  /\ asMode arg st
     = Throw (MalformedValue ("'" ++ arg ++ "' contains invalid octal mode")) st
  /\ asGid getgrnam arg st
     = match getgrnam "" with
       | Some gr_gid => Ok gr_gid st
       | None => Throw (IdentityResolutionFailed arg) st
       end
  /\ asUid getpwnam arg st
     = match getpwnam "" with
       | Some pw_uid => Ok pw_uid st
       | None => Throw (IdentityResolutionFailed arg) st
       end.
Proof.
  intros H. pose proof (params_index_present _ _ _ H) as Hidx.
  assert (Hmem : StdMap.mem arg st.(d_params) = true).
  { unfold StdMap.mem. now rewrite H. }
  unfold isEmpty, mustDo, operator_index, asNum, asDouble, asMode, asGid, asUid,
    parmIsset, bind, ret, throw, gets.
  rewrite Hmem. cbn [negb]. rewrite ?Hidx. cbn [negb Str.empty String.eqb].
  rewrite ?Hidx.
  change (Ext.strtol "" 0) with (0%Z, 0). change (Ext.strtol "" 8) with (0%Z, 0).
  cbv iota beta.
  change (Z.eqb (Ext.to_u32 0) 0 && Nat.eqb 0 0) with true. cbv iota.
  rewrite ?Hidx.
  repeat split; try reflexivity.
  - rewrite Hmem. cbn [negb]. now rewrite Hidx.
  - rewrite Hidx. now destruct (getgrnam "").
  - rewrite Hidx. now destruct (getpwnam "").
Qed.

(** X21: for [asGid] a value that begins like a number is a number: the
    group database is consulted only when [strtol] converts nothing, in which
    case its answer, or its failure, is the result. *)
Theorem asGid_number_before_name (arg cur : string) (st : ArgvMap) :
  StdMap.find arg st.(d_params) = Some cur ->
  asGid getgrnam arg st
  = if Nat.eqb (snd (Ext.strtol cur 0)) 0
    then match getgrnam cur with
         | Some gr_gid => Ok gr_gid st
         | None => Throw (IdentityResolutionFailed arg) st
         end
    else Ok (Ext.to_u32 (fst (Ext.strtol cur 0))) st.
Proof.
  intros H. pose proof (params_index_present _ _ _ H) as Hidx.
  assert (Hmem : StdMap.mem arg st.(d_params) = true).
  { unfold StdMap.mem. now rewrite H. }
  unfold asGid, parmIsset, bind, ret, throw, gets.
  rewrite Hmem. cbn [negb]. rewrite Hidx.
  pose proof (strtol_nothing_converted cur 0) as Hz.
  destruct (Ext.strtol cur 0) as [v consumed]. cbn [fst snd] in *.
  destruct (Nat.eqb_spec consumed 0) as [->|_].
  - rewrite (Hz eq_refl). change (Z.eqb (Ext.to_u32 0) 0 && true) with true.
    cbv iota beta. rewrite Hidx. now destruct (getgrnam cur).
  - now rewrite andb_false_r.
Qed.

(** X22: [asUid] does the same with the user database. *)
Theorem asUid_number_before_name (arg cur : string) (st : ArgvMap) :
  StdMap.find arg st.(d_params) = Some cur ->
  asUid getpwnam arg st
  = if Nat.eqb (snd (Ext.strtol cur 0)) 0
    then match getpwnam cur with
         | Some pw_uid => Ok pw_uid st
         | None => Throw (IdentityResolutionFailed arg) st
         end
    else Ok (Ext.to_u32 (fst (Ext.strtol cur 0))) st.
Proof.
  intros H. pose proof (params_index_present _ _ _ H) as Hidx.
  assert (Hmem : StdMap.mem arg st.(d_params) = true).
  { unfold StdMap.mem. now rewrite H. }
  unfold asUid, parmIsset, bind, ret, throw, gets.
  rewrite Hmem. cbn [negb]. rewrite Hidx.
  pose proof (strtol_nothing_converted cur 0) as Hz.
  destruct (Ext.strtol cur 0) as [v consumed]. cbn [fst snd] in *.
  destruct (Nat.eqb_spec consumed 0) as [->|_].
  - rewrite (Hz eq_refl). change (Z.eqb (Ext.to_u32 0) 0 && true) with true.
    cbv iota beta. rewrite Hidx. now destruct (getpwnam cur).
  - now rewrite andb_false_r.
Qed.

End EmptyValue.

Lemma accessors_on_empty_value_witness :
  asNum "c" 53%Z demo_registry = Ok 53%Z demo_registry
  /\ asMode "c" demo_registry
     = Throw (MalformedValue "'c' contains invalid octal mode") demo_registry.
Proof.
  pose proof (accessors_on_empty_value (fun _ => None) (fun _ => None)
                unit tt (fun _ => true) (fun _ => (tt, 0))
                "c" 53%Z demo_registry eq_refl) as H.
  split; [exact (proj1 (proj2 (proj2 H))) | exact (proj1 (proj2 (proj2 (proj2 (proj2 H)))))].
Defined.

Lemma asGid_number_before_name_witness :
  asGid (fun name => if String.eqb name "100" then Some 7%Z else None) "a"
        (with_params [("a", "100")] demo_registry)
  = Ok 100%Z (with_params [("a", "100")] demo_registry)
  /\ asGid (fun name => if String.eqb name "wheel" then Some 10%Z else None) "a"
           (with_params [("a", "wheel")] demo_registry)
     = Ok 10%Z (with_params [("a", "wheel")] demo_registry).
Proof.
  split.
  - exact (asGid_number_before_name _ "a" "100"
             (with_params [("a", "100")] demo_registry) eq_refl).
  - exact (asGid_number_before_name _ "a" "wheel"
             (with_params [("a", "wheel")] demo_registry) eq_refl).
Defined.

Lemma asUid_number_before_name_witness :
  asUid (fun _ => None) "a" (with_params [("a", "-1")] demo_registry)
  = Ok 4294967295%Z (with_params [("a", "-1")] demo_registry).
Proof.
  exact (asUid_number_before_name (fun _ => None) "a" "-1"
           (with_params [("a", "-1")] demo_registry) eq_refl).
Defined.

(** ** Arguments after arguments *)

Lemma for_each_app {A} (a b : list A) (body : A -> M unit) (st : ArgvMap) :
  for_each (a ++ b) body st = (for_each a body ;; for_each b body) st.
Proof.
  revert st. induction a as [|x a IH]; intros st; [reflexivity|].
  cbn [app for_each]. unfold bind.
  destruct (body x st) as [u st1|e st1]; [|reflexivity].
  rewrite IH. reflexivity.
Qed.

Lemma parse_snoc (prog a : string) (args : list string) (lax : bool) (st st1 : ArgvMap) :
  parse (prog :: args) lax st = Ok tt st1 ->
  parse (prog :: args ++ [a]) lax st = parseOne a "" lax st1.
Proof.
  rewrite !parse_unfold. intros H. rewrite for_each_app.
  rewrite (bind_ok _ _ _ _ _ H). cbn [for_each]. unfold bind, ret.
  destruct (parseOne a "" lax st1) as [[] st2|e st2]; reflexivity.
Qed.

(** X23: the last direct assignment wins.  Whatever arguments come first,
    if they are accepted then a final "--x=v" in which no "+=" occurs, to a
    declared name, is accepted too, leaves x holding v without its leading
    blanks, whatever x held or was appended to before, touches no other
    parameter, and marks x as cleared.  (An argument in which "+=" occurs
    anywhere is read as an increment of what stands before it.) *)
Theorem last_assignment_wins (x v prog : string) (args : list string) (lax : bool)
        (st st1 : ArgvMap) :
  name_ok x = true ->
  Str.find_str "+=" (x ++ "=" ++ v) = None ->
  StdMap.mem x st.(d_params) = true ->
  parse (prog :: args) lax st = Ok tt st1 ->
  exists st',
    parse (prog :: args ++ ["--" ++ x ++ "=" ++ v]) lax st = Ok tt st'
    /\ StdMap.find x st'.(d_params) = Some (strip_leading v)
    /\ (forall k, k <> x -> StdMap.find k st'.(d_params) = StdMap.find k st1.(d_params))
    /\ StdSet.mem x st'.(d_cleared) = true.
Proof.
  intros Hok Hv Hmem Hparse.
  destruct (name_ok_inv _ Hok) as (Hne & Hc & Htrim & Hplus).
  assert (Hmem1 : StdMap.mem x st1.(d_params) = true).
  { pose proof (stable_member_call _ (stable_declared x) unit _
                  (call_parse (prog :: args) lax) st Hmem) as H.
    now rewrite Hparse in H. }
  apply mem_find in Hmem1 as [cur Hcur].
  rewrite (parse_snoc _ _ _ _ _ _ Hparse).
  pose proof (parseOne_declared _ "" x v cur false lax st1
                (split_arg_assign x v Hc Hv)) as H1.
  rewrite Htrim in H1. specialize (H1 Hne eq_refl Hcur). cbv zeta in H1.
  destruct (warned_log lax x st1) as [l Hl]. rewrite Hl in H1.
  rewrite H1. eexists. split; [reflexivity|]. cbn. split; [|split].
  - apply find_assign_same.
  - intros k Hk. apply find_assign_other. congruence.
  - apply mem_insert_same.
Qed.

Lemma last_assignment_wins_witness :
  exists st',
    parse ("pdns" :: ["--x=a"; "--x+=b"; "--b=7"] ++ ["--" ++ "x" ++ "=" ++ " c"])
          false demo_registry = Ok tt st'
    /\ StdMap.find "x" st'.(d_params) = Some "c".
Proof.
  destruct (last_assignment_wins "x" " c" "pdns" ["--x=a"; "--x+=b"; "--b=7"] false
              demo_registry
              (final (parse ["pdns"; "--x=a"; "--x+=b"; "--b=7"] false demo_registry))
              eq_refl eq_refl eq_refl ltac:(vm_compute; reflexivity))
    as [st' [H1 [H2 _]]].
  exists st'. split; [exact H1 | exact H2].
Defined.

(** X24: an increment needs no earlier assignment when the parameter
    already holds something: "--x+=w" as the only argument, on a declared x
    whose value is not empty, appends ", " and w to that value. *)
Theorem increment_extends_value (x w cur prog : string) (lax : bool) (st : ArgvMap) :
  name_ok x = true ->
  StdMap.find x st.(d_params) = Some cur ->
  Str.empty cur = false ->
  exists st',
    parse [prog; "--" ++ x ++ "+=" ++ w] lax st = Ok tt st'
    /\ StdMap.find x st'.(d_params) = Some (cur ++ ", " ++ strip_leading w)
    /\ (forall k, k <> x -> StdMap.find k st'.(d_params) = StdMap.find k st.(d_params))
    /\ StdSet.mem x st'.(d_cleared) = false.
Proof.
  intros Hok Hcur Hne'.
  destruct (name_ok_inv _ Hok) as (Hne & Hc & Htrim & Hplus).
  rewrite parse_unfold. cbn [for_each].
  set (st0 := with_cleared StdSet.empty (with_cmds [] st)).
  pose proof (parseOne_declared _ "" x w cur true lax st0 (split_arg_incr x w Hc)) as H1.
  rewrite Htrim in H1. specialize (H1 Hne eq_refl Hcur). cbv zeta in H1.
  rewrite Hne' in H1.
  destruct (warned_log lax x st0) as [l Hl]. rewrite Hl in H1.
  rewrite (bind_ok _ _ _ _ _ H1). eexists. split; [reflexivity|]. cbn. split; [|split].
  - apply find_assign_same.
  - intros k Hk. apply find_assign_other. congruence.
  - reflexivity.
Qed.

Lemma increment_extends_value_witness :
  exists st',
    parse ["pdns"; "--" ++ "b" ++ "+=" ++ "3"] false demo_registry = Ok tt st'
    /\ StdMap.find "b" st'.(d_params) = Some "2, 3".
Proof.
  destruct (increment_extends_value "b" "3" "2" "pdns" false demo_registry
              eq_refl eq_refl eq_refl) as [st' [H1 [H2 _]]].
  exists st'. split; [exact H1 | exact H2].
Defined.

(** ** Declaring and reading *)

Lemma params_index_final (k : string) (st : ArgvMap) :
  params_index k st
  = Ok (fst (StdMap.index k st.(d_params)))
       (with_params (snd (StdMap.index k st.(d_params))) st).
Proof. unfold params_index. now destruct (StdMap.index k (d_params st)). Qed.

(** X25: [set(var)] declares.  A name that was never declared is, after
    the call, a parameter with the empty value: [parmIsset] accepts it,
    [operator[]] returns "" where it threw before, and a declared name keeps
    its value.  No help text, type or default is recorded, and the other
    parameters are as they were. *)
Theorem set_declares (var : string) (st : ArgvMap) :
  let st' := final (set var st) in
  parmIsset var st' = Ok true st'
  /\ operator_index var st'
     = Ok (match StdMap.find var st.(d_params) with Some v => v | None => "" end) st'
  /\ (forall k, k <> var -> StdMap.find k st'.(d_params) = StdMap.find k st.(d_params))
  /\ st'.(helpmap) = st.(helpmap)
  /\ st'.(d_typeMap) = st.(d_typeMap)
  /\ st'.(defaultmap) = st.(defaultmap).
Proof.
  unfold set. rewrite params_index_final. cbn [final].
  set (st' := with_params _ st).
  assert (Hf : StdMap.find var st'.(d_params)
               = Some (match StdMap.find var st.(d_params) with
                       | Some v => v | None => "" end)).
  { unfold st'. cbn. rewrite find_index_same. unfold StdMap.index.
    now destruct (StdMap.find var (d_params st)). }
  assert (Hm : StdMap.mem var st'.(d_params) = true).
  { unfold StdMap.mem. now rewrite Hf. }
  split; [|split; [|split; [|split; [|split]]]]; try reflexivity.
  - unfold parmIsset, gets. now rewrite Hm.
  - unfold operator_index, parmIsset, gets, bind. rewrite Hm. cbn [negb].
    apply params_index_present. exact Hf.
  - intros k Hk. unfold st'. cbn. apply find_index_other. congruence.
Qed.

Lemma contains_char_find_str (x : string) :
  Str.contains_char "=" x = false -> Str.find_str "+=" x = None.
Proof.
  induction x as [|c x IH]; intros H; [reflexivity|].
  rewrite contains_char_cons in H. apply orb_false_elim in H as [Hc Hx].
  change (Str.find_str "+=" (String c x))
    with (if Str.starts_with "+=" (String c x) then Some 0
          else option_map S (Str.find_str "+=" x)).
  rewrite (IH Hx), starts_with_cons.
  destruct x as [|d x]; [now rewrite andb_false_r|].
  rewrite contains_char_cons in Hx. apply orb_false_elim in Hx as [Hd _].
  rewrite starts_with_cons, (Ascii.eqb_sym "="%char d), Hd.
  now rewrite andb_false_r.
Qed.

Lemma split_arg_switch (x : string) :
  Str.contains_char "=" x = false ->
  split_arg ("--" ++ x) = Some (x, "", false).
Proof.
  intros Hx. unfold split_arg.
  change (Str.starts_with "--" ("--" ++ x)) with true. cbv iota.
  rewrite find_str_dashes, (contains_char_find_str _ Hx). cbn [option_map].
  rewrite find_char_dashes, (contains_char_false _ _ Hx). cbn [option_map andb].
  change ("--" ++ x) with (String "-" (String "-" x)).
  rewrite !contains_char_cons, Hx. reflexivity.
Qed.

Lemma find_str_assign (x v : string) :
  Str.contains_char "=" x = false ->
  ends_in (fun c => Ascii.eqb c "+") x = false ->
  Str.find_str "+=" ("=" ++ v) = None ->
  Str.find_str "+=" (x ++ "=" ++ v) = None.
Proof.
  intros Hc Hl Hv. induction x as [|c x IH]; [exact Hv|].
  rewrite contains_char_cons in Hc. apply orb_false_elim in Hc as [Hc Hx].
  change (Str.find_str "+=" (String c x ++ "=" ++ v))
    with (if Str.starts_with "+=" (String c (x ++ "=" ++ v)) then Some 0
          else option_map S (Str.find_str "+=" (x ++ "=" ++ v))).
  rewrite starts_with_cons.
  destruct x as [|d x].
  - unfold ends_in in Hl. simpl in Hl. rewrite Ascii.eqb_sym, Hl.
    cbn [andb]. change ("" ++ "=" ++ v) with ("=" ++ v). now rewrite Hv.
  - rewrite (IH Hx Hl).
    rewrite contains_char_cons in Hx. apply orb_false_elim in Hx as [Hd _].
    change (String d x ++ "=" ++ v) with (String d (x ++ "=" ++ v)).
    rewrite starts_with_cons, (Ascii.eqb_sym "="%char d), Hd.
    now rewrite andb_false_r.
Qed.

Lemma mustDo_declared (var v : string) (st : ArgvMap) :
  StdMap.find var st.(d_params) = Some v ->
  mustDo var st = Ok (negb (String.eqb v "no") && negb (String.eqb v "off")) st.
Proof.
  intros H. pose proof (params_index_present _ _ _ H) as Hidx.
  assert (Hop : operator_index var st = Ok v st).
  { unfold operator_index, parmIsset, gets, bind, StdMap.mem. now rewrite H. }
  unfold mustDo. rewrite (bind_ok _ _ _ _ _ Hop).
  destruct (String.eqb v "no"); [reflexivity|]. cbn [negb andb].
  now rewrite (bind_ok _ _ _ _ _ Hop).
Qed.

Lemma setCmd_value (var help : string) (st : ArgvMap) :
  StdMap.find var (final (setCmd var help st)).(d_params) = Some "no".
Proof.
  unfold setCmd, helpmap_assign, typeMap_assign, set, params_assign, modify, bind.
  rewrite params_index_final. cbn. apply find_assign_same.
Qed.

(** X26: a command flag is off until it is named.  After [setCmd] the
    flag reads false with [mustDo]; naming it on the command line without a
    value turns it on, and with a value in which no "+=" occurs it is on
    unless the value, leading blanks apart, is exactly "no" or "off". *)
Theorem command_flag_switches (var help prog : string) (lax : bool) (st : ArgvMap) :
  name_ok var = true ->
  let st1 := final (setCmd var help st) in
  mustDo var st1 = Ok false st1
  /\ (exists st2, parse [prog; "--" ++ var] lax st1 = Ok tt st2
                  /\ mustDo var st2 = Ok true st2)
  /\ (forall v, Str.find_str "+=" ("=" ++ v) = None ->
        exists st2,
          parse [prog; "--" ++ var ++ "=" ++ v] lax st1 = Ok tt st2
          /\ mustDo var st2
             = Ok (negb (String.eqb (strip_leading v) "no")
                   && negb (String.eqb (strip_leading v) "off")) st2).
Proof.
  intros Hok st1.
  destruct (name_ok_inv _ Hok) as (Hne & Hc & Htrim & Hplus).
  pose proof (setCmd_value var help st) as Hno. fold st1 in Hno.
  split; [|split].
  - now rewrite (mustDo_declared _ _ _ Hno).
  - rewrite parse_unfold. cbn [for_each].
    set (st0 := with_cleared StdSet.empty (with_cmds [] st1)).
    pose proof (parseOne_declared _ "" var "" "no" false lax st0
                  (split_arg_switch var Hc)) as H1.
    rewrite Htrim in H1. specialize (H1 Hne eq_refl Hno). cbv zeta in H1.
    destruct (warned_log lax var st0) as [l Hl]. rewrite Hl in H1.
    rewrite (bind_ok _ _ _ _ _ H1). eexists. split; [reflexivity|].
    apply (mustDo_declared var ""). cbn. apply find_assign_same.
  - intros v Hv. rewrite parse_unfold. cbn [for_each].
    set (st0 := with_cleared StdSet.empty (with_cmds [] st1)).
    pose proof (parseOne_declared _ "" var v "no" false lax st0
                  (split_arg_assign var v Hc (find_str_assign _ _ Hc Hplus Hv))) as H1.
    rewrite Htrim in H1. specialize (H1 Hne eq_refl Hno). cbv zeta in H1.
    destruct (warned_log lax var st0) as [l Hl]. rewrite Hl in H1.
    rewrite (bind_ok _ _ _ _ _ H1). eexists. split; [reflexivity|].
    apply mustDo_declared. cbn. apply find_assign_same.
Qed.

Lemma command_flag_switches_witness :
  mustDo "daemon" demo_registry = Ok false demo_registry
  /\ (exists st2, parse ["pdns"; "--" ++ "daemon"] false demo_registry = Ok tt st2
                  /\ mustDo "daemon" st2 = Ok true st2)
  /\ (exists st2, parse ["pdns"; "--" ++ "daemon" ++ "=" ++ "No"] false demo_registry
                  = Ok tt st2
                  /\ mustDo "daemon" st2 = Ok true st2).
Proof.
  pose proof (command_flag_switches "daemon" "Operate as a daemon" "pdns" false
                (declare "x" "an example list" ""
                (declare "c" "third example setting" ""
                (declare "b" "second example setting" "2"
                (declare "a" "first example setting" "1"
                (final (setDefault "ignore-unknown-settings" ""
                (final (ArgvMap_ctor empty_ArgvMap))))))))
                eq_refl) as [H1 [H2 H3]].
  split; [exact H1 | split; [exact H2 | exact (H3 "No" eq_refl)]].
Defined.

(** ** Lists of values *)

Lemma stringtok_from_delim (delims : list ascii) (s rest tok : string) (d : ascii) :
  existsb (Ascii.eqb d) delims = true ->
  Ext.stringtok_from delims (s ++ String d rest) tok
  = (Ext.stringtok_from delims s tok ++ Ext.stringtok_from delims rest "")%list.
Proof.
  intros Hd. revert tok. induction s as [|c s IH]; intros tok.
  - cbn [append Ext.stringtok_from]. rewrite Hd. now destruct (Str.empty tok).
  - cbn [append Ext.stringtok_from].
    destruct (existsb (Ascii.eqb c) delims); [|apply IH].
    rewrite IH. now destruct (Str.empty tok).
Qed.

Lemma stringtok_from_token (delims : list ascii) (t tok : string) :
  forallb (fun c => negb (existsb (Ascii.eqb c) delims)) (list_ascii_of_string t) = true ->
  Ext.stringtok_from delims t tok = if Str.empty (tok ++ t) then [] else [tok ++ t].
Proof.
  revert tok. induction t as [|c t IH]; intros tok Ht.
  - cbn [Ext.stringtok_from]. now rewrite append_nil_r.
  - cbn [list_ascii_of_string forallb] in Ht. apply andb_true_iff in Ht as [Hc Ht].
    apply negb_true_iff in Hc. cbn [Ext.stringtok_from]. rewrite Hc, (IH _ Ht).
    now rewrite append_assoc.
Qed.

Lemma is_token_inv (w : string) :
  is_token w = true ->
  Str.empty w = false
  /\ strip_leading w = w
  /\ Ext.stringtok_from [","%char; " "%char; Str.tab] w "" = [w].
Proof.
  unfold is_token. rewrite andb_true_iff, negb_true_iff. intros [Hne Hall].
  split; [exact Hne|]. split.
  - apply strip_leading_id. destruct w as [|c w]; [discriminate|].
    cbn [list_ascii_of_string forallb] in Hall. apply andb_true_iff in Hall as [Hc _].
    apply negb_true_iff in Hc. cbn [existsb Str.front] in *.
    apply orb_false_elim in Hc as [_ Hc]. exact Hc.
  - rewrite (stringtok_from_token _ _ _ Hall). cbn [append]. now rewrite Hne.
Qed.

Lemma empty_append (a b : string) : Str.empty a = false -> Str.empty (a ++ b) = false.
Proof. now destruct a. Qed.

(** X27: an increment adds one value to the list that [contains] reads.
    On a declared parameter whose value is not empty, after "--x+=w" with w a
    single token, [contains] finds w, and finds any other value exactly when
    it found it before: the ", " that the parser writes is a separator for
    [contains]. *)
Theorem increment_adds_token (x w cur val prog : string) (lax : bool) (st : ArgvMap) :
  name_ok x = true ->
  StdMap.find x st.(d_params) = Some cur ->
  Str.empty cur = false ->
  is_token w = true ->
  exists st' was,
    contains x val st = Ok was st
    /\ parse [prog; "--" ++ x ++ "+=" ++ w] lax st = Ok tt st'
    /\ contains x val st' = Ok (was || String.eqb w val) st'.
Proof.
  intros Hok Hcur Hne' Hw.
  destruct (name_ok_inv _ Hok) as (Hne & Hc & Htrim & Hplus).
  destruct (is_token_inv _ Hw) as (Hwne & Hstrip & Htok).
  rewrite parse_unfold. cbn [for_each].
  set (st0 := with_cleared StdSet.empty (with_cmds [] st)).
  pose proof (parseOne_declared _ "" x w cur true lax st0 (split_arg_incr x w Hc)) as H1.
  rewrite Htrim in H1. specialize (H1 Hne eq_refl Hcur). cbv zeta in H1.
  rewrite Hne', Hstrip in H1.
  destruct (warned_log lax x st0) as [l Hl]. rewrite Hl in H1.
  rewrite (bind_ok _ _ _ _ _ H1). eexists _, _. split; [|split; [reflexivity|]].
  - unfold contains, gets. rewrite Hcur, Hne'. reflexivity.
  - unfold contains, gets. cbn [d_params with_params].
    rewrite find_assign_same, (empty_append _ _ Hne'). f_equal.
    unfold Ext.stringtok.
    change (list_ascii_of_string (", " ++ Str.TAB)) with [","%char; " "%char; Str.tab].
    change (cur ++ ", " ++ w) with (cur ++ String "," (String " " w)).
    rewrite stringtok_from_delim by reflexivity.
    change (Ext.stringtok_from [","%char; " "%char; Str.tab] (String " " w) "")
      with (Ext.stringtok_from [","%char; " "%char; Str.tab] w "").
    rewrite Htok, existsb_app. cbn [existsb]. now rewrite orb_false_r.
Qed.

Lemma increment_adds_token_witness :
  exists st',
    parse ["pdns"; "--" ++ "b" ++ "+=" ++ "3"] false demo_registry = Ok tt st'
    /\ contains "b" "3" st' = Ok true st'
    /\ contains "b" "2" st' = Ok true st'.
Proof.
  destruct (increment_adds_token "b" "3" "2" "3" "pdns" false demo_registry
              eq_refl eq_refl eq_refl eq_refl) as [st1 [was1 [Hc1 [Hp1 Hr1]]]].
  destruct (increment_adds_token "b" "3" "2" "2" "pdns" false demo_registry
              eq_refl eq_refl eq_refl eq_refl) as [st2 [was2 [Hc2 [Hp2 Hr2]]]].
  exists st1. split; [exact Hp1|]. split.
  - rewrite Hr1. f_equal. apply orb_true_r.
  - assert (st2 = st1) as Heq by congruence. rewrite Heq in Hr2.
    assert (was2 = true) as Hwas by (vm_compute in Hc2; congruence).
    rewrite Hr2, Hwas. reflexivity.
Defined.

(** ** The help text *)

Lemma typeMap_index_run (k : string) (st : ArgvMap) :
  typeMap_index k st
  = Ok (value_or_empty k st.(d_typeMap))
       (with_typeMap (snd (StdMap.index k st.(d_typeMap))) st).
Proof.
  unfold typeMap_index, value_or_empty, StdMap.index.
  now destruct (StdMap.find k (d_typeMap st)).
Qed.

Lemma value_or_empty_index (k k' : string) (m : StdMap.t) :
  value_or_empty k' (snd (StdMap.index k m)) = value_or_empty k' m.
Proof.
  unfold value_or_empty, StdMap.index.
  destruct (StdMap.find k m) eqn:E; cbn [snd]; [reflexivity|].
  destruct (String.eqb_spec k k') as [<-|Hne].
  - now rewrite find_assign_same, E.
  - now rewrite find_assign_other.
Qed.

Lemma bind_assoc {A B C} (c : M A) (f : A -> M B) (g : B -> M C) (st : ArgvMap) :
  bind (bind c f) g st = bind c (fun x => bind (f x) g) st.
Proof. unfold bind. now destruct (c st). Qed.

Lemma helpstring_fold (p : string) (st0 : ArgvMap) (items : list (string * string)) :
  forall (acc : string) (tm : StdMap.t),
    (forall k, value_or_empty k tm = value_or_empty k st0.(d_typeMap)) ->
    exists tm',
      for_fold items acc (fun helpitem help =>
        if negb (Str.empty p) && negb (Str.starts_with p (fst helpitem))
        then ret help
        else
          let help := help ++ "  --" in
          let help := help ++ fst helpitem in
          type <- typeMap_index (fst helpitem) ;;
          let help :=
            if String.eqb type "Parameter" then help ++ "=..."
            else if String.eqb type "Switch"
                 then (help ++ (" | --" ++ fst helpitem ++ "=yes"))
                        ++ (" | --" ++ fst helpitem ++ "=no")
                 else help in
          let help := help ++ (Str.NL ++ Str.TAB) in
          let help := help ++ snd helpitem in
          ret (help ++ Str.NL)) (with_typeMap tm st0)
      = Ok (acc ++ concat_map (help_block st0)
                     (filter (fun item => Str.empty p || Str.starts_with p (fst item)) items))
           (with_typeMap tm' st0)
      /\ (forall k, value_or_empty k tm' = value_or_empty k st0.(d_typeMap)).
Proof.
  induction items as [|[k h] items IH]; intros acc tm Htm.
  - exists tm. cbn. now rewrite append_nil_r.
  - cbn [for_fold filter fst snd].
    destruct (Str.empty p) eqn:Ep; cbn [negb andb orb].
    2: destruct (Str.starts_with p k) eqn:Es; cbn [negb].
    3: { rewrite (bind_ok _ _ _ _ _ (eq_refl : ret acc _ = Ok acc _)). now apply IH. }
    all: cbv zeta; rewrite bind_assoc, (bind_ok _ _ _ _ _ (typeMap_index_run k _));
      cbn [d_typeMap with_typeMap];
      match goal with
      | |- context [bind (ret ?a) _ ?s] =>
          rewrite (bind_ok _ _ _ _ _ (eq_refl : ret a s = Ok a s))
      end;
      change (with_typeMap (snd (StdMap.index k tm)) (with_typeMap tm st0))
        with (with_typeMap (snd (StdMap.index k tm)) st0);
      match goal with
      | |- context [for_fold _ ?a _ _] =>
          destruct (IH a (snd (StdMap.index k tm))) as [tm' [Hrun Htm']];
          [intros k'; now rewrite value_or_empty_index|]
      end;
      exists tm'; split; [|exact Htm'];
      cbn [concat_map]; unfold help_block at 1; cbn [fst snd]; cbv zeta;
      rewrite <- (Htm k);
      etransitivity; [exact Hrun|]; f_equal;
      destruct (String.eqb (value_or_empty k tm) "Parameter");
      [|destruct (String.eqb (value_or_empty k tm) "Switch")];
      rewrite !append_assoc; reflexivity.
Qed.

(** X28: [helpstring] never fails and writes, in the order of the help
    map, one block for each name that begins with the prefix, for every
    name when the prefix is empty or is "no"; the block shows "=..." for
    a Parameter and the two forms "=yes" and "=no" for a Switch.  Values, help
    texts and defaults are not touched, and no name changes its type. *)
Theorem helpstring_lists_prefix (prefix : string) (st : ArgvMap) :
  let p := if String.eqb prefix "no" then "" else prefix in
  exists st',
    helpstring prefix st
    = Ok (concat_map (help_block st)
            (filter (fun item => Str.empty p || Str.starts_with p (fst item)) st.(helpmap)))
         st'
    /\ st'.(d_params) = st.(d_params)
    /\ st'.(helpmap) = st.(helpmap)
    /\ st'.(defaultmap) = st.(defaultmap)
    /\ (forall k, value_or_empty k st'.(d_typeMap) = value_or_empty k st.(d_typeMap)).
Proof.
  intros p. unfold helpstring. fold p.
  rewrite (bind_ok _ _ _ _ _ (eq_refl : gets helpmap st = Ok st.(helpmap) st)).
  destruct (helpstring_fold p st st.(helpmap) "" st.(d_typeMap) (fun k => eq_refl))
    as [tm' [Hrun Htm']].
  replace (with_typeMap (d_typeMap st) st) with st in Hrun by now destruct st.
  exists (with_typeMap tm' st). split; [exact Hrun|]. repeat split. exact Htm'.
Qed.

(** ** Deprecated names *)

Lemma deprecated_has_replacement (var : string) :
  isDeprecated var = "" <-> deprecation_warning var = [].
Proof.
  unfold isDeprecated, deprecation_warning.
  destruct (StdMap.find var deprecateList) as [second|] eqn:E; [|split; reflexivity].
  unfold deprecateList in E. cbn [StdMap.find] in E.
  repeat match type of E with
         | (if ?b then _ else _) = _ => destruct b
         end; try discriminate; injection E as <-; split; discriminate.
Qed.

Lemma warned_deprecation (lax : bool) (var : string) (st : ArgvMap) :
  warned lax var st
  = with_log (st.(g_log) ++ (if lax then [] else deprecation_warning var))%list st.
Proof.
  unfold warned, warnIfDeprecated, deprecation_warning, log, modify.
  destruct lax; [rewrite app_nil_r; now destruct st|].
  destruct (StdMap.find var deprecateList); cbn [final]; [reflexivity|].
  rewrite app_nil_r. now destruct st.
Qed.

(** X29: a deprecated name is still obeyed.  An assignment "--x=v" in
    which no "+=" occurs, to a declared name, sets the value whether or not
    the name is deprecated; outside lax mode it writes one warning that
    names the replacement when [isDeprecated] knows the name, and nothing
    otherwise; in lax mode it writes nothing. *)
Theorem deprecated_name_still_assigned (x v cur : string) (lax : bool) (st : ArgvMap) :
  name_ok x = true ->
  Str.find_str "+=" (x ++ "=" ++ v) = None ->
  StdMap.find x st.(d_params) = Some cur ->
  exists st',
    parseOne ("--" ++ x ++ "=" ++ v) "" lax st = Ok tt st'
    /\ StdMap.find x st'.(d_params) = Some (strip_leading v)
    /\ st'.(g_log) = (st.(g_log) ++ (if lax then [] else deprecation_warning x))%list
    /\ (isDeprecated x = "" <-> deprecation_warning x = []).
Proof.
  intros Hok Hv Hcur.
  destruct (name_ok_inv _ Hok) as (Hne & Hc & Htrim & Hplus).
  pose proof (parseOne_declared _ "" x v cur false lax st
                (split_arg_assign x v Hc Hv)) as H1.
  rewrite Htrim in H1. specialize (H1 Hne eq_refl Hcur). cbv zeta in H1.
  rewrite warned_deprecation in H1. rewrite H1.
  eexists. split; [reflexivity|]. cbn. split; [apply find_assign_same|].
  split; [reflexivity | apply deprecated_has_replacement].
Qed.

Lemma deprecated_name_still_assigned_witness :
  exists st',
    parseOne ("--" ++ "snmp-master-socket" ++ "=" ++ "/run/agentx") "" false
             deprecated_registry = Ok tt st'
    /\ StdMap.find "snmp-master-socket" st'.(d_params) = Some "/run/agentx"
    /\ st'.(g_log)
       = (deprecated_registry.(g_log)
            ++ [(Warning, "'snmp-master-socket' is deprecated and will be removed in a future release, use 'snmp-daemon-socket' instead")])%list.
Proof.
  destruct (deprecated_name_still_assigned "snmp-master-socket" "/run/agentx" "" false
              deprecated_registry eq_refl eq_refl eq_refl) as [st' [H1 [H2 [H3 _]]]].
  exists st'. split; [exact H1 | split; [exact H2 | exact H3]].
Defined.

(** ** The include directory *)

Lemma gatherIncludes_loop_outcomes (fs : FileSystem) (directory suffix : string)
      (ents : list string) (st : ArgvMap) :
  forall vec,
    match for_fold ents vec (fun d_name vec =>
            if Ascii.eqb (Str.front d_name) "." then ret vec
            else if Str.ends_with d_name suffix then
              let name := directory ++ "/" ++ d_name in
              if negb (fs_isreg fs name) then
                let msg := name ++ " is not a regular file" in
                log Error msg ;;
                throw (DirectoryInaccessible msg)
              else ret (vec ++ [name])%list
            else ret vec) st with
    | Ok _ st' => st' = st
    | Throw e st' =>
        exists msg, e = DirectoryInaccessible msg
                    /\ st' = with_log (st.(g_log) ++ [(Error, msg)])%list st
    end.
Proof.
  induction ents as [|d ents IH]; intros vec; [reflexivity|].
  cbn [for_fold].
  destruct (Ascii.eqb (Str.front d) ".").
  - rewrite (bind_ok _ _ _ _ _ (eq_refl : ret vec st = Ok vec st)). apply IH.
  - destruct (Str.ends_with d suffix).
    + destruct (fs_isreg fs (directory ++ "/" ++ d)); cbn [negb].
      * rewrite (bind_ok _ _ _ _ _ (eq_refl : ret _ st = Ok _ st)). apply IH.
      * cbn. eexists. split; reflexivity.
    + rewrite (bind_ok _ _ _ _ _ (eq_refl : ret vec st = Ok vec st)). apply IH.
Qed.

(** X30: [gatherIncludes] fails in one way only.  When it returns, the
    registry and the log are as before and the list given is the front of the
    list returned, in the same order; when it throws, the exception is
    DirectoryInaccessible and its message has been written to the log as an
    error.  With an empty directory name it returns the list given, and the
    file system is not consulted. *)
Theorem gatherIncludes_outcomes (fs : FileSystem) (directory suffix : string)
        (extraConfigs : list string) (st : ArgvMap) :
  match gatherIncludes fs directory suffix extraConfigs st with
  | Ok vec st' =>
      st' = st
      /\ exists new, vec = (extraConfigs ++ new)%list
                     /\ (Str.empty directory = true -> new = [])
  | Throw e st' =>
      Str.empty directory = false
      /\ exists msg, e = DirectoryInaccessible msg
                     /\ st' = with_log (st.(g_log) ++ [(Error, msg)])%list st
  end.
Proof.
  unfold gatherIncludes, gatherIncludes_loop.
  destruct (Str.empty directory) eqn:Ed.
  - cbn. split; [reflexivity|]. exists []. now rewrite app_nil_r.
  - destruct (fs_readdir fs directory) as [err|ents].
    + cbn. split; [reflexivity|]. eexists. split; reflexivity.
    + pose proof (gatherIncludes_loop_outcomes fs directory suffix ents st []) as H.
      match type of H with
      | match ?c with _ => _ end => destruct c as [vec st'|e st'] eqn:E
      end.
      * subst st'. rewrite (bind_ok _ _ _ _ _ E). cbn.
        split; [reflexivity|]. eexists. split; [reflexivity|discriminate].
      * rewrite (bind_throw _ _ _ _ _ E). split; [reflexivity | exact H].
Qed.
